(** * anime-object-cut: the image transforms of [gen.py]

    A shallow embedding of [square], [mask] and [highlight] and of the
    fragment of Python they are written in: unbounded integers, binary64
    floats (through the executable IEEE 754 specification of the standard
    library), exceptions, [pathlib] paths and a file system.  The imaging
    library is not part of [gen.py]: its pictures are kept symbolic, and
    what it accepts and what it draws are a parameter of the model. *)

From Stdlib Require Import ZArith Lia Bool Ascii String DecimalString.
From Stdlib Require Import DecimalNat DecimalFacts.
From Stdlib Require Import Floats.SpecFloat.
From stdpp Require Import base option list gmap strings.

Local Open Scope Z_scope.

(** ** Exceptions and results *)

Inductive exn :=
| OverflowError
| ValueError
| OSError.

Inductive res (A : Type) :=
| Ok (a : A)
| Raise (e : exn).
Arguments Ok {A} a.
Arguments Raise {A} e.

#[global] Instance res_ret : MRet res := fun _ a => Ok a.
#[global] Instance res_bind : MBind res := fun _ _ k r =>
  match r with
  | Ok a => k a
  | Raise e => Raise e
  end.

(** ** Python numbers: [int] and [float] *)

Module Py.

Definition prec : Z := 53.
Definition emax : Z := 1024.

Inductive num :=
| PInt (z : Z)
| PFloat (f : spec_float).

(** [float(z)] as the binary operators apply it to an [int] operand: the
    nearest double, ties to even; [OverflowError] beyond the range. *)
Definition float_of_int (z : Z) : res spec_float :=
  match binary_normalize prec emax z 0 false with
  | S754_infinity _ => Raise OverflowError
  | f => Ok f
  end.

Definition as_float (v : num) : res spec_float :=
  match v with
  | PInt z => float_of_int z
  | PFloat f => Ok f
  end.

Definition mul (a b : num) : res num :=
  match a, b with
  | PInt x, PInt y => Ok (PInt (x * y))
  | _, _ => x ← as_float a; y ← as_float b; Ok (PFloat (SFmul prec emax x y))
  end.

Definition add (a b : num) : res num :=
  match a, b with
  | PInt x, PInt y => Ok (PInt (x + y))
  | _, _ => x ← as_float a; y ← as_float b; Ok (PFloat (SFadd prec emax x y))
  end.

Definition sub (a b : num) : res num :=
  match a, b with
  | PInt x, PInt y => Ok (PInt (x - y))
  | _, _ => x ← as_float a; y ← as_float b; Ok (PFloat (SFsub prec emax x y))
  end.

(** [int(v)]: truncation toward zero; infinities and NaN raise. *)
Definition int (v : num) : res Z :=
  match v with
  | PInt z => Ok z
  | PFloat (S754_zero _) => Ok 0
  | PFloat (S754_infinity _) => Raise OverflowError
  | PFloat S754_nan => Raise ValueError
  | PFloat (S754_finite s m e) => Ok (cond_Zopp s (Z.shiftl (Z.pos m) e))
  end.

(** The value of a number: a dyadic rational [m * 2^e], an infinity, or
    NaN.  Comparisons between [int] and [float] are exact in Python. *)
Inductive extended :=
| NaN
| NegInf
| PosInf
| Dyadic (m e : Z).

Definition value_of (v : num) : extended :=
  match v with
  | PInt z => Dyadic z 0
  | PFloat (S754_zero _) => Dyadic 0 0
  | PFloat (S754_infinity s) => if s then NegInf else PosInf
  | PFloat S754_nan => NaN
  | PFloat (S754_finite s m e) => Dyadic (cond_Zopp s (Z.pos m)) e
  end.

Definition dyadic_compare (m1 e1 m2 e2 : Z) : comparison :=
  let e := Z.min e1 e2 in
  (m1 * 2 ^ (e1 - e)) ?= (m2 * 2 ^ (e2 - e)).

Definition compare (a b : num) : option comparison :=
  match value_of a, value_of b with
  | NaN, _ | _, NaN => None
  | NegInf, NegInf | PosInf, PosInf => Some Eq
  | NegInf, _ | _, PosInf => Some Lt
  | PosInf, _ | _, NegInf => Some Gt
  | Dyadic m1 e1, Dyadic m2 e2 => Some (dyadic_compare m1 e1 m2 e2)
  end.

Definition ltb (a b : num) : bool :=
  match compare a b with Some Lt => true | _ => false end.
Definition leb (a b : num) : bool :=
  match compare a b with Some (Lt | Eq) => true | _ => false end.
Definition eqb (a b : num) : bool :=
  match compare a b with Some Eq => true | _ => false end.

(** [max(a, b)] keeps [a] unless [b > a]; [min(a, b)] keeps [a] unless
    [b < a]. *)
Definition max (a b : num) : num := if ltb a b then b else a.
Definition min (a b : num) : num := if ltb b a then b else a.

(** A dyadic [m * 2^e] against an integer [k]. *)
Definition dle (m e k : Z) : Prop :=
  m * 2 ^ Z.max 0 e ≤ k * 2 ^ Z.max 0 (- e).
Definition dge (m e k : Z) : Prop :=
  k * 2 ^ Z.max 0 (- e) ≤ m * 2 ^ Z.max 0 e.

(** Not below zero: a zero of either sign, a positive number, plus
    infinity, or NaN. *)
Definition not_negative (v : num) : Prop :=
  match v with
  | PInt z => 0 ≤ z
  | PFloat (S754_finite true _ _) | PFloat (S754_infinity true) => False
  | PFloat _ => True
  end.

(** A float carrying the sign [sx], or NaN. *)
Definition signed (sx : bool) (f : spec_float) : Prop :=
  match f with
  | S754_zero s | S754_finite s _ _ | S754_infinity s => s = sx
  | S754_nan => True
  end.

(** A float that is exactly the integer [z]. *)
Definition holds_int (f : spec_float) (z : Z) : Prop :=
  match f with
  | S754_zero _ => z = 0
  | S754_finite s m e => s = false ∧ dle (Z.pos m) e z ∧ dge (Z.pos m) e z
  | _ => False
  end.

Definition is_nan (v : num) : Prop := value_of v = NaN.

(** Not above, and not below, the integer [k]; NaN is neither. *)
Definition at_most (v : num) (k : Z) : Prop :=
  is_nan v ∨ leb v (PInt k) = true.
Definition at_least (v : num) (k : Z) : Prop :=
  is_nan v ∨ leb (PInt k) v = true.

(** The literals of the default arguments. *)
Definition float_0_3 : spec_float := S754_finite false 5404319552844595 (-54).
Definition float_0_2 : spec_float := S754_finite false 7205759403792794 (-55).

End Py.

Import Py.

(** ** Detections *)

Definition BoundingBox : Type := Z * Z * Z * Z.
Definition DetectionResult : Type := BoundingBox * string * spec_float.

(** ** [square]: the crop region of one detection (lines 64-88) *)

Definition expanded_size (base_size : Z) (padding_ratio : num) : res Z :=
  t ← Py.mul padding_ratio (PInt 2);
  u ← Py.add (PInt 1) t;
  v ← Py.mul (PInt base_size) u;
  Py.int v.

Definition square_region (img_width img_height : Z) (box : BoundingBox)
    (expanded_size : Z) : BoundingBox :=
  let '(x0, y0, x1, y1) := box in
  let center_x := (x0 + x1) `div` 2 in
  let center_y := (y0 + y1) `div` 2 in
  let half_size := expanded_size `div` 2 in
  let crop_x0 := Z.max 0 (center_x - half_size) in
  let crop_y0 := Z.max 0 (center_y - half_size) in
  let crop_x1 := Z.min img_width (center_x + half_size) in
  let crop_y1 := Z.min img_height (center_y + half_size) in
  let square_size := Z.min (crop_x1 - crop_x0) (crop_y1 - crop_y0) in
  let new_crop_x0 :=
    Z.max 0 (Z.min (center_x - square_size `div` 2) (img_width - square_size)) in
  let new_crop_y0 :=
    Z.max 0 (Z.min (center_y - square_size `div` 2) (img_height - square_size)) in
  let new_crop_x1 := new_crop_x0 + square_size in
  let new_crop_y1 := new_crop_y0 + square_size in
  (new_crop_x0, new_crop_y0, new_crop_x1, new_crop_y1).

Definition base_size (box : BoundingBox) : Z :=
  let '(x0, y0, x1, y1) := box in Z.max (x1 - x0) (y1 - y0).

Definition square_crop (img_width img_height : Z) (box : BoundingBox)
    (padding_ratio : num) : res BoundingBox :=
  e ← expanded_size (base_size box) padding_ratio;
  Ok (square_region img_width img_height box e).


(** ** [mask] and [highlight]: the padded box of one detection
    (lines 126-134 and 168-176, the same text in both) *)

Definition PaddedBox : Type := num * num * num * num.

Definition padded_box (img_width img_height : Z) (box : BoundingBox)
    (padding_ratio : num) : res PaddedBox :=
  let '(x0, y0, x1, y1) := box in
  let box_width := x1 - x0 in
  let box_height := y1 - y0 in
  pad_w ← Py.mul (PInt box_width) padding_ratio;
  pad_h ← Py.mul (PInt box_height) padding_ratio;
  l ← Py.sub (PInt x0) pad_w;
  let nx0 := Py.max (PInt 0) l in
  u ← Py.sub (PInt y0) pad_h;
  let ny0 := Py.max (PInt 0) u in
  r ← Py.add (PInt x1) pad_w;
  let nx1 := Py.min (PInt img_width) r in
  d ← Py.add (PInt y1) pad_h;
  let ny1 := Py.min (PInt img_height) d in
  Ok (nx0, ny0, nx1, ny1).

(** ** Pictures: the values of the imaging library, kept symbolic *)

Inductive pixel :=
| L (v : Z)
| RGB (r g b : Z).

(** A decoded file is a [Raster] with its mode; every other picture is
    the call that made it.  An outline is kept with the ink the library
    gave for its colour. *)
Inductive picture :=
| Raster (mode : string) (w h : Z) (data : Z → Z → pixel)
| ConvertRGB (im : picture)
| Crop (im : picture) (box : BoundingBox)
| ResizeLanczos (im : picture) (size : Z * Z)
| GaussianBlur (radius : num) (im : picture)
| NewL (size : Z * Z) (v : Z)
| Rectangle (im : picture) (xy : PaddedBox) (fill : option Z)
    (outline : option pixel) (width : Z)
| Composite (image1 image2 mask : picture).

Fixpoint size (im : picture) : Z * Z :=
  match im with
  | Raster _ w h _ => (w, h)
  | ConvertRGB im => size im
  | Crop _ (x0, y0, x1, y1) => (x1 - x0, y1 - y0)
  | ResizeLanczos _ sz => sz
  | GaussianBlur _ im => size im
  | NewL sz _ => sz
  | Rectangle im _ _ _ _ => size im
  | Composite image1 _ _ => size image1
  end.

Fixpoint mode_of (im : picture) : string :=
  match im with
  | Raster mode _ _ _ => mode
  | ConvertRGB _ => "RGB"
  | Crop im _ => mode_of im
  | ResizeLanczos im _ => mode_of im
  | GaussianBlur _ im => mode_of im
  | NewL _ _ => "L"
  | Rectangle im _ _ _ _ => mode_of im
  | Composite _ image2 _ => mode_of image2
  end.

(** ** The imaging library

    What the library accepts and what it computes is its own affair, not
    that of [gen.py]: which pictures it converts, blurs, resamples and
    writes as PNG, which colours it knows, whether it draws an outline of
    a given width, and its filters and rasterisation rules. *)
Record Imaging := {
  (* what it takes: conversion to RGB, a blur radius, a new size, a
     colour (with the ink it gives for it), an outline width, a picture
     to write as PNG *)
  converts : picture → bool;
  blurs : picture → num → bool;
  resamples : picture → Z * Z → bool;
  inks : picture → string → option pixel;
  outlines : Z → bool;
  writes_png : picture → bool;
  (* what it computes *)
  to_rgb : pixel → pixel;
  lanczos : Z * Z → Z * Z → (Z → Z → pixel) → Z → Z → pixel;
  gaussian : num → Z * Z → (Z → Z → pixel) → Z → Z → pixel;
  fills : PaddedBox → Z → Z → bool;
  strokes : PaddedBox → Z → Z → Z → bool;
  blend : pixel → pixel → Z → pixel
}.

(** [image.convert("RGB")] and [image.filter(GaussianBlur(radius))]
    raise [ValueError] on what the library does not take. *)
Definition convert_rgb (lib : Imaging) (im : picture) : res picture :=
  if converts lib im then Ok (ConvertRGB im) else Raise ValueError.

Definition gaussian_blur (lib : Imaging) (radius : num) (im : picture)
    : res picture :=
  if blurs lib im radius then Ok (GaussianBlur radius im)
  else Raise ValueError.

(** [crop] refuses a box whose right or lower edge precedes the left or
    upper one; [resize] refuses a size below one pixel, and what the
    library does not resample. *)
Definition crop (im : picture) (box : BoundingBox) : res picture :=
  let '(x0, y0, x1, y1) := box in
  if (x1 <? x0) || (y1 <? y0) then Raise ValueError else Ok (Crop im box).

Definition resize (lib : Imaging) (im : picture) (sz : Z * Z) : res picture :=
  if (sz.1 <? 1) || (sz.2 <? 1) then Raise ValueError
  else if resamples lib im sz then Ok (ResizeLanczos im sz)
  else Raise ValueError.

Definition given {A} (o : option A) : bool :=
  match o with Some _ => true | None => false end.

(** [draw.rectangle]: the colour of the outline is resolved first, and
    an unknown one raises; then each pass that draws, the fill and the
    outline, refuses corners that are out of order. *)
Definition rectangle (lib : Imaging) (im : picture) (xy : PaddedBox)
    (fill : option Z) (outline : option string) (width : Z) : res picture :=
  let '(x0, y0, x1, y1) := xy in
  ink ← match outline with
        | Some color =>
          match inks lib im color with
          | Some px => Ok (Some px)
          | None => Raise ValueError
          end
        | None => Ok None
        end;
  if (given fill || given ink && outlines lib width)
     && (Py.ltb x1 x0 || Py.ltb y1 y0)
  then Raise ValueError
  else Ok (Rectangle im xy fill ink width).

(** ** Paths and the file system *)

Definition Path : Type := list string.

Fixpoint rfind_dot (name : string) : option nat :=
  match name with
  | EmptyString => None
  | String c rest =>
    match rfind_dot rest with
    | Some i => Some (S i)
    | None => if Ascii.eqb c "." then Some 0%nat else None
    end
  end.

(** [PurePath.stem]: the final component without its last suffix. *)
Definition stem_of_name (name : string) : string :=
  match rfind_dot name with
  | Some i =>
    if (0 <? i)%nat && (i <? String.length name - 1)%nat
    then substring 0 i name else name
  | None => name
  end.

Definition stem (p : Path) : string :=
  match last p with
  | Some name => stem_of_name name
  | None => EmptyString
  end.

Definition parent (p : Path) : Path := removelast p.

Definition str_of_nat (i : nat) : string :=
  NilZero.string_of_uint (Nat.to_uint i).

(** The directories, and the files that hold a picture. *)
Record FS := {
  dirs : gset Path;
  files : gmap Path picture
}.

(** Every prefix of a path, the path itself included. *)
Definition ancestors (p : Path) : list Path :=
  (λ n, take n p) <$> seq 0 (S (length p)).

Definition M (A : Type) : Type := FS → res A * FS.

#[global] Instance M_ret : MRet M := fun _ a fs => (Ok a, fs).
#[global] Instance M_bind : MBind M := fun _ _ k m fs =>
  match m fs with
  | (Ok a, fs') => k a fs'
  | (Raise e, fs') => (Raise e, fs')
  end.

Definition lift {A} (r : res A) : M A := fun fs => (r, fs).

Definition path_exists (p : Path) : M bool := fun fs =>
  (Ok (bool_decide (p ∈ dirs fs) || bool_decide (is_Some (files fs !! p))), fs).

(** [mkdir(parents=True, exist_ok=True)] *)
Definition mkdir_parents (p : Path) : M unit := fun fs =>
  if bool_decide (Exists (λ q, is_Some (files fs !! q)) (ancestors p))
  then (Raise OSError, fs)
  else (Ok (), {| dirs := dirs fs ∪ list_to_set (ancestors p);
                  files := files fs |}).

Definition image_open (p : Path) : M picture := fun fs =>
  match files fs !! p with
  | Some im => (Ok im, fs)
  | None => (Raise OSError, fs)
  end.

(** [image.save(p)] as PNG.  The file is opened for writing first: that
    raises when [p] is a directory or when its parent is none, and empties
    a file that was there.  Then the PNG writer refuses the pictures it
    cannot hold, and a file made by this call is removed again: either
    way no picture is left at [p]. *)
Definition save (lib : Imaging) (im : picture) (p : Path) : M unit := fun fs =>
  if bool_decide (p ∈ dirs fs) || negb (bool_decide (parent p ∈ dirs fs))
  then (Raise OSError, fs)
  else if writes_png lib im
  then (Ok (), {| dirs := dirs fs; files := <[p := im]> (files fs) |})
  else (Raise OSError, {| dirs := dirs fs; files := delete p (files fs) |}).

(** ** The detector registry *)

Inductive GenSquareType :=
| HEAD | EYES | FACES | CENSORS | NUDENET | MONGO | OPAI | ARMPITS | FEET.

Definition value (t : GenSquareType) : string :=
  match t with
  | HEAD => "head"
  | EYES => "eyes"
  | FACES => "faces"
  | CENSORS => "censors"
  | NUDENET => "nudenet"
  | MONGO => "mongo"
  | OPAI => "opai"
  | ARMPITS => "armpits"
  | FEET => "feet"
  end.

Definition members : list GenSquareType :=
  [HEAD; EYES; FACES; CENSORS; NUDENET; MONGO; OPAI; ARMPITS; FEET].

Abbreviation Detector := (Path → list DetectionResult).

(** ** Output paths: [output_dir / f"{img_path.stem}_{type}_..."] *)

Definition square_path (type : string) (img_path output_dir : Path)
    (i : nat) : Path :=
  output_dir ++ [stem img_path +:+ "_" +:+ type +:+ "_" +:+ str_of_nat i +:+ ".png"].

Definition mask_path (type : string) (img_path output_dir : Path) : Path :=
  output_dir ++ [stem img_path +:+ "_" +:+ type +:+ "_marked.png"].

Definition highlight_path (type : string) (img_path output_dir : Path) : Path :=
  output_dir ++ [stem img_path +:+ "_" +:+ type +:+ "_highlighted.png"].

Section Gen.

(** The imaging library, and the functions of the [detect] module by the
    member each is registered under. *)
Variable lib : Imaging.
Variable detect : GenSquareType → Detector.

Definition detector : gmap string Detector :=
  list_to_map ((λ t, (value t, detect t)) <$> members).

Definition ensure_dir (output_dir : Path) : M unit :=
  ex ← path_exists output_dir;
  if ex : bool then mret () else mkdir_parents output_dir.

(** *** [square] *)


Fixpoint square_loop (type : string) (img_path output_dir : Path)
    (target_size : Z) (padding_ratio : num) (i : nat)
    (results : list DetectionResult) (result_paths : list Path)
    : M (list Path) :=
  match results with
  | [] => mret result_paths
  | result :: rest =>
    let box := result.1.1 in
    img ← image_open img_path;
    let '(img_width, img_height) := size img in
    new_crop ← lift (square_crop img_width img_height box padding_ratio);
    square_img ← lift (crop img new_crop);
    final_img ← lift (resize lib square_img (target_size, target_size));
    let output_path := square_path type img_path output_dir i in
    _ ← save lib final_img output_path;
    square_loop type img_path output_dir target_size padding_ratio (S i)
      rest (result_paths ++ [output_path])
  end.

Definition square (type : string) (img_path output_dir : Path)
    (target_size : Z) (padding_ratio : num) : M (option (list Path)) :=
  match detector !! type with
  | None => mret None
  | Some detect_fn =>
    match detect_fn img_path with
    | [] => mret None
    | results =>
      _ ← ensure_dir output_dir;
      result_paths ← square_loop type img_path output_dir target_size
                       padding_ratio 0 results [];
      match result_paths with
      | [] => mret None
      | _ => mret (Some result_paths)
      end
    end
  end.

(** *** [mask] *)

Fixpoint mask_loop (img_width img_height : Z) (padding_ratio : num)
    (color : string) (width : Z) (results : list DetectionResult)
    (image : picture) : res picture :=
  match results with
  | [] => Ok image
  | result :: rest =>
    nb ← padded_box img_width img_height result.1.1 padding_ratio;
    image ← rectangle lib image nb None (Some color) width;
    mask_loop img_width img_height padding_ratio color width rest image
  end.

Definition mask (type : string) (img_path output_dir : Path)
    (padding_ratio : num) (color : string) (width : Z) : M Path :=
  match detector !! type with
  | None => mret img_path
  | Some detect_fn =>
    match detect_fn img_path with
    | [] => mret img_path
    | results =>
      image ← image_open img_path;
      let '(img_width, img_height) := size image in
      image ← lift (mask_loop img_width img_height padding_ratio color width
                      results image);
      let output_path := mask_path type img_path output_dir in
      _ ← save lib image output_path;
      mret output_path
    end
  end.

(** *** [highlight] *)

Fixpoint highlight_loop (img_width img_height : Z) (padding_ratio : num)
    (results : list DetectionResult) (mask : picture)
    (boxes : list PaddedBox) : res (picture * list PaddedBox) :=
  match results with
  | [] => Ok (mask, boxes)
  | result :: rest =>
    nb ← padded_box img_width img_height result.1.1 padding_ratio;
    mask ← rectangle lib mask nb (Some 255) None 1;
    highlight_loop img_width img_height padding_ratio rest mask
      (boxes ++ [nb])
  end.

Fixpoint outline_loop (mask_color : string) (mask_width : Z)
    (boxes : list PaddedBox) (highlighted : picture) : res picture :=
  match boxes with
  | [] => Ok highlighted
  | nb :: rest =>
    highlighted ← rectangle lib highlighted nb None (Some mask_color)
                    mask_width;
    outline_loop mask_color mask_width rest highlighted
  end.

Definition highlight (type : string) (img_path output_dir : Path)
    (padding_ratio : num) (blur_radius : num) (with_mask : bool)
    (mask_color : string) (mask_width : Z) : M Path :=
  match detector !! type with
  | None => mret img_path
  | Some detect_fn =>
    match detect_fn img_path with
    | [] => mret img_path
    | results =>
      opened ← image_open img_path;
      image ← lift (convert_rgb lib opened);
      blurred ← lift (gaussian_blur lib blur_radius image);
      let '(img_width, img_height) := size image in
      let mask := NewL (img_width, img_height) 0 in
      '(mask, boxes) ← lift (highlight_loop img_width img_height padding_ratio
                               results mask []);
      let highlighted := Composite image blurred mask in
      highlighted ←
        (if with_mask && negb (bool_decide (boxes = []))
         then lift (outline_loop mask_color mask_width boxes highlighted)
         else mret highlighted);
      let output_path := highlight_path type img_path output_dir in
      _ ← ensure_dir output_dir;
      _ ← save lib highlighted output_path;
      mret output_path
    end
  end.

End Gen.

(** ** What a picture shows

    The pixels of a symbolic picture, given the library's filters and
    rasterisation rules. *)

(** The pixels an outline of a given width covers. *)
Definition stroked (lib : Imaging) (xy : PaddedBox) (width : Z) (x y : Z)
    : bool :=
  outlines lib width && strokes lib xy width x y.

Fixpoint pixel_at (lib : Imaging) (im : picture) (x y : Z) : pixel :=
  match im with
  | Raster _ _ _ data => data x y
  | ConvertRGB im => to_rgb lib (pixel_at lib im x y)
  | Crop im (x0, y0, _, _) => pixel_at lib im (x0 + x) (y0 + y)
  | ResizeLanczos im sz => lanczos lib (size im) sz (pixel_at lib im) x y
  | GaussianBlur radius im => gaussian lib radius (size im) (pixel_at lib im) x y
  | NewL _ v => L v
  | Rectangle im xy fill outline width =>
    match outline with
    | Some px =>
      if stroked lib xy width x y then px
      else match fill with
           | Some v => if fills lib xy x y then L v else pixel_at lib im x y
           | None => pixel_at lib im x y
           end
    | None =>
      match fill with
      | Some v => if fills lib xy x y then L v else pixel_at lib im x y
      | None => pixel_at lib im x y
      end
    end
  | Composite image1 image2 mask =>
    match pixel_at lib mask x y with
    | L v =>
      if v =? 255 then pixel_at lib image1 x y
      else if v =? 0 then pixel_at lib image2 x y
      else blend lib (pixel_at lib image1 x y) (pixel_at lib image2 x y) v
    | RGB _ _ _ => pixel_at lib image2 x y
    end
  end.

(** ** Conditions on the inputs *)

(** No file sits at the output directory or above it. *)
Definition no_file_above (output_dir : Path) (fs : FS) : Prop :=
  Forall (λ q, files fs !! q = None) (ancestors output_dir).

(** The crop region of a detection is computed and accepted by [crop],
    and the library resamples the crop and writes the result. *)
Definition croppable (lib : Imaging) (im : picture) (target_size : Z)
    (padding_ratio : num) (result : DetectionResult) : bool :=
  match square_crop (size im).1 (size im).2 result.1.1 padding_ratio with
  | Ok region =>
    let '(x0, y0, x1, y1) := region in
    (x0 <=? x1) && (y0 <=? y1) &&
    resamples lib (Crop im region) (target_size, target_size) &&
    writes_png lib (ResizeLanczos (Crop im region) (target_size, target_size))
  | Raise _ => false
  end.

(** The library knows a colour, on whatever picture. *)
Definition knows (lib : Imaging) (color : string) : Prop :=
  ∀ im, is_Some (inks lib im color).

(** The library writes every RGB picture as PNG. *)
Definition writes_rgb (lib : Imaging) : Prop :=
  ∀ im, mode_of im = "RGB"%string → writes_png lib im = true.

(** An ink the library gives for a colour. *)
Definition ink_of (lib : Imaging) (color : string) (px : pixel) : Prop :=
  ∃ im, inks lib im color = Some px.

(** The padded box of a detection is computed and its corners are in
    order, as [rectangle] wants them. *)
Definition drawable (img_width img_height : Z) (padding_ratio : num)
    (result : DetectionResult) : bool :=
  match padded_box img_width img_height result.1.1 padding_ratio with
  | Ok (x0, y0, x1, y1) => negb (Py.ltb x1 x0 || Py.ltb y1 y0)
  | Raise _ => false
  end.

(** The padded boxes of a detection list. *)
Definition padded_boxes (img_width img_height : Z) (padding_ratio : num)
    (results : list DetectionResult) (boxes : list PaddedBox) : Prop :=
  Forall2 (λ r nb, padded_box img_width img_height r.1.1 padding_ratio = Ok nb)
    results boxes.

(** The pixel [highlight] selects: the sharp one inside some padded box,
    the blurred one outside all of them. *)
Definition spotlight (lib : Imaging) (boxes : list PaddedBox)
    (sharp blurred : picture) (x y : Z) : pixel :=
  if existsb (λ nb, fills lib nb x y) boxes
  then pixel_at lib sharp x y
  else pixel_at lib blurred x y.

Definition area (box : BoundingBox) : Z :=
  let '(x0, y0, x1, y1) := box in (x1 - x0) * (y1 - y0).

Definition inside (img_width img_height : Z) (box : BoundingBox) : Prop :=
  let '(x0, y0, x1, y1) := box in
  0 ≤ x0 ∧ x0 < x1 ∧ x1 ≤ img_width ∧ 0 ≤ y0 ∧ y0 < y1 ∧ y1 ≤ img_height.

(** A box whose part within the image has a positive area. *)
Definition overlaps (img_width img_height : Z) (box : BoundingBox) : Prop :=
  let '(x0, y0, x1, y1) := box in
  Z.max 0 x0 < Z.min img_width x1 ∧ Z.max 0 y0 < Z.min img_height y1.

(** Corners and sides that a double holds exactly. *)
Definition representable (box : BoundingBox) : Prop :=
  let '(x0, y0, x1, y1) := box in
  - 2 ^ 53 < x0 ∧ x1 < 2 ^ 53 ∧ x1 - x0 < 2 ^ 53 ∧
  - 2 ^ 53 < y0 ∧ y1 < 2 ^ 53 ∧ y1 - y0 < 2 ^ 53.

(** A padded box whose corners have the values of the raw corners. *)
Definition same_box (nb : PaddedBox) (box : BoundingBox) : bool :=
  let '(nx0, ny0, nx1, ny1) := nb in
  let '(x0, y0, x1, y1) := box in
  Py.eqb nx0 (PInt x0) && Py.eqb ny0 (PInt y0) &&
  Py.eqb nx1 (PInt x1) && Py.eqb ny1 (PInt y1).

(** The invariant the specification states for a padded box. *)
Definition well_formed (img_width img_height : Z) (nb : PaddedBox) : bool :=
  let '(nx0, ny0, nx1, ny1) := nb in
  Py.leb (PInt 0) nx0 && Py.ltb nx0 nx1 && Py.leb nx1 (PInt img_width) &&
  Py.leb (PInt 0) ny0 && Py.ltb ny0 ny1 && Py.leb ny1 (PInt img_height).

Definition clamp (v lo hi : Z) : Z := Z.max lo (Z.min v hi).

(** ** What an operation may change on the file system *)

(** From [fs] to [fs'] only the files at paths in [out] differ, no
    directory is lost, and the only new directories are among [made]. *)
Definition changes_only (out : Path → Prop) (made : gset Path)
    (fs fs' : FS) : Prop :=
  (∀ q, ¬ out q → files fs' !! q = files fs !! q) ∧
  dirs fs ⊆ dirs fs' ∧
  dirs fs' ⊆ dirs fs ∪ made.

(** A computation whose final state, whatever its outcome, is related
    to its initial state by [R]. *)
Definition preserves {A} (R : FS → FS → Prop) (m : M A) : Prop :=
  ∀ fs, R fs (m fs).2.

(** ** Sample inputs *)

Module Sample.

Definition img_path : Path := ["in"; "photo.jpg"].

Definition black (w h : Z) : picture := Raster "RGB" w h (λ _ _, RGB 0 0 0).

Definition cmyk (w h : Z) : picture := Raster "CMYK" w h (λ _ _, RGB 0 0 0).

Definition fs (w h : Z) : FS :=
  {| dirs := {[ ["in"] ]}; files := {[ img_path := black w h ]} |}.

Definition detects (boxes : list BoundingBox) : GenSquareType → Detector :=
  λ _ _, (λ b, (b, "face"%string, S754_finite false 8106479329266893 (-53))) <$> boxes.

(** A sample library.  It converts and resamples everything, blurs with
    a finite radius, knows four colours, draws no outline of width 0 and
    writes as PNG the modes a PNG file can hold.  A rectangle covers the
    whole pixels from corner to corner, both included, and its outline
    the [width] outermost rows and columns of them.  The filters are
    stand-ins: no statement looks at them. *)
Definition whole (v : num) : Z :=
  match Py.int v with Ok z => z | Raise _ => 0 end.

Definition colours : list (string * pixel) :=
  [("red"%string, RGB 255 0 0); ("blue"%string, RGB 0 0 255);
   ("white"%string, RGB 255 255 255); ("black"%string, RGB 0 0 0)].

Definition png_modes : list string :=
  ["1"; "L"; "LA"; "I"; "I;16"; "P"; "RGB"; "RGBA"]%string.

Definition covers (xy : PaddedBox) (x y : Z) : bool :=
  let '(x0, y0, x1, y1) := xy in
  (whole x0 <=? x) && (x <=? whole x1) && (whole y0 <=? y) && (y <=? whole y1).

Definition border (xy : PaddedBox) (width : Z) (x y : Z) : bool :=
  let '(x0, y0, x1, y1) := xy in
  covers xy x y &&
  ((x <? whole x0 + width) || (whole x1 - width <? x) ||
   (y <? whole y0 + width) || (whole y1 - width <? y)).

Definition lib : Imaging := {|
  converts := λ _, true;
  blurs := λ _ radius,
    match value_of radius with Dyadic _ _ => true | _ => false end;
  resamples := λ _ _, true;
  inks := λ _ color,
    snd <$> List.find (λ c, String.eqb c.1 color) colours;
  outlines := λ width, negb (width =? 0);
  writes_png := λ im, existsb (String.eqb (mode_of im)) png_modes;
  to_rgb := λ px, match px with L v => RGB v v v | RGB _ _ _ => px end;
  lanczos := λ from to data x y,
    data (x * from.1 `div` to.1) (y * from.2 `div` to.2);
  gaussian := λ _ _ data x y, data x y;
  fills := covers;
  strokes := border;
  blend := λ a _ _, a
|}.

End Sample.

(** * Rounding to binary64

    What the proofs below need from the IEEE 754 specification: the sign
    of a rounded result, and that rounding never crosses an integer
    below [2^53]. *)

Section Rounding.

Local Abbreviation fexp := (SpecFloat.fexp prec emax).

Lemma fexp_eq (e : Z) : fexp e = Z.max (e - 53) (-1074).
Proof. reflexivity. Qed.

Lemma pow2_pos (n : Z) : 0 ≤ n → 0 < 2 ^ n.
Proof. intros. by apply Z.pow_pos_nonneg. Qed.

Lemma pow2_succ (n : Z) : 0 ≤ n → 2 ^ (n + 1) = 2 * 2 ^ n.
Proof. intros. rewrite Z.pow_add_r by lia. lia. Qed.

Lemma digits2_pos_bounds (p : positive) :
  2 ^ (Z.pos (digits2_pos p) - 1) ≤ Z.pos p < 2 ^ Z.pos (digits2_pos p).
Proof.
  induction p as [p IH|p IH|]; cbn [digits2_pos].
  - rewrite Pos2Z.inj_succ, (Pos2Z.inj_xI p).
    set (d := Z.pos (digits2_pos p)) in *.
    assert (Hd : 2 ^ d = 2 * 2 ^ (d - 1)).
    { rewrite <- pow2_succ by lia. f_equal. lia. }
    replace (Z.succ d - 1) with d by lia.
    replace (Z.succ d) with (d + 1) by lia. rewrite pow2_succ by lia.
    clearbody d. lia.
  - rewrite Pos2Z.inj_succ, (Pos2Z.inj_xO p).
    set (d := Z.pos (digits2_pos p)) in *.
    assert (Hd : 2 ^ d = 2 * 2 ^ (d - 1)).
    { rewrite <- pow2_succ by lia. f_equal. lia. }
    replace (Z.succ d - 1) with d by lia.
    replace (Z.succ d) with (d + 1) by lia. rewrite pow2_succ by lia.
    clearbody d. lia.
  - simpl. lia.
Qed.

(** *** Dyadic comparisons on a common scale *)

Lemma dle_scaled (c m e k : Z) :
  c ≤ e → c ≤ 0 → dle m e k ↔ m * 2 ^ (e - c) ≤ k * 2 ^ (- c).
Proof.
  intros Hce Hc0. unfold dle.
  destruct (Z.le_gt_cases 0 e) as [He|He].
  - rewrite (Z.max_r 0 e), (Z.max_l 0 (- e)) by lia.
    replace (e - c) with (e + - c) by lia.
    rewrite Z.pow_add_r, Z.pow_0_r, Z.mul_assoc by lia.
    pose proof (pow2_pos (- c)). split; nia.
  - rewrite (Z.max_l 0 e), (Z.max_r 0 (- e)) by lia.
    replace (- c) with (- e + (e - c)) by lia.
    rewrite Z.pow_add_r, Z.pow_0_r, Z.mul_assoc by lia.
    pose proof (pow2_pos (e - c)). split; nia.
Qed.

Lemma dge_scaled (c m e k : Z) :
  c ≤ e → c ≤ 0 → dge m e k ↔ k * 2 ^ (- c) ≤ m * 2 ^ (e - c).
Proof.
  intros Hce Hc0. unfold dge.
  destruct (Z.le_gt_cases 0 e) as [He|He].
  - rewrite (Z.max_r 0 e), (Z.max_l 0 (- e)) by lia.
    replace (e - c) with (e + - c) by lia.
    rewrite Z.pow_add_r, Z.pow_0_r, Z.mul_assoc by lia.
    pose proof (pow2_pos (- c)). split; nia.
  - rewrite (Z.max_l 0 e), (Z.max_r 0 (- e)) by lia.
    replace (- c) with (- e + (e - c)) by lia.
    rewrite Z.pow_add_r, Z.pow_0_r, Z.mul_assoc by lia.
    pose proof (pow2_pos (e - c)). split; nia.
Qed.

(** *** Shifting the mantissa right *)

Lemma iter_pos_nat {A} (f : A → A) (p : positive) (x : A) :
  SpecFloat.iter_pos f p x = Nat.iter (Pos.to_nat p) f x.
Proof.
  revert x. induction p as [p IH|p IH|]; intros x; cbn [SpecFloat.iter_pos].
  - rewrite !IH, Pos2Nat.inj_xI, <- Nat.iter_add, <- Nat.iter_succ_r.
    f_equal. lia.
  - rewrite !IH, Pos2Nat.inj_xO, <- Nat.iter_add. f_equal. lia.
  - reflexivity.
Qed.

Lemma shr_1_spec (r : shr_record) :
  0 ≤ shr_m r →
  shr_m (shr_1 r) = shr_m r `div` 2 ∧
  (loc_of_shr_record r = loc_Exact → (2 | shr_m r) →
   loc_of_shr_record (shr_1 r) = loc_Exact).
Proof.
  destruct r as [m rr ss]. cbn [shr_m]. intros Hm.
  destruct m as [|[p|p|]|p]; cbn [shr_1 shr_m]; try lia.
  - split; [done|]. by destruct rr, ss.
  - rewrite (Pos2Z.inj_xI p). split.
    + apply Z.div_unique with 1; lia.
    + intros _ [k Hk]. lia.
  - rewrite (Pos2Z.inj_xO p). split.
    + apply Z.div_unique with 0; lia.
    + by destruct rr, ss.
  - split; [done|]. intros _ [k Hk]. lia.
Qed.

Lemma iter_shr_1_spec (k : nat) (r : shr_record) :
  0 ≤ shr_m r →
  shr_m (Nat.iter k shr_1 r) = shr_m r `div` 2 ^ Z.of_nat k ∧
  (loc_of_shr_record r = loc_Exact → (2 ^ Z.of_nat k | shr_m r) →
   loc_of_shr_record (Nat.iter k shr_1 r) = loc_Exact).
Proof.
  intros Hm. induction k as [|k [IHm IHl]].
  - change (Nat.iter 0 shr_1 r) with r.
    change (Z.of_nat 0) with 0. rewrite Z.pow_0_r, Z.div_1_r. done.
  - rewrite Nat.iter_succ.
    pose proof (pow2_pos (Z.of_nat k) ltac:(lia)) as Hpos.
    assert (Hk : 0 ≤ shr_m (Nat.iter k shr_1 r)).
    { rewrite IHm. apply Z.div_pos; lia. }
    destruct (shr_1_spec _ Hk) as [Hm1 Hl1].
    assert (Hpow : 2 ^ Z.of_nat (S k) = 2 ^ Z.of_nat k * 2).
    { rewrite Nat2Z.inj_succ, Z.pow_succ_r by lia. lia. }
    split.
    + rewrite Hm1, IHm, Hpow. rewrite Z.div_div by lia. done.
    + intros Hl [j Hj]. rewrite Hpow in Hj. apply Hl1.
      * apply IHl; [done|]. exists (j * 2). lia.
      * rewrite IHm. exists j.
        rewrite Hj. replace (j * (2 ^ Z.of_nat k * 2)) with
          (j * 2 * 2 ^ Z.of_nat k) by lia.
        rewrite Z.div_mul by lia. done.
Qed.

Lemma shr_fexp_spec (m e : Z) (r : shr_record) (e' : Z) :
  0 ≤ m →
  shr_fexp prec emax m e loc_Exact = (r, e') →
  let n := fexp (Zdigits2 m + e) - e in
  0 ≤ shr_m r ∧
  ((n ≤ 0 ∧ shr_m r = m ∧ e' = e ∧ loc_of_shr_record r = loc_Exact) ∨
   (0 < n ∧ shr_m r = m `div` 2 ^ n ∧ e' = e + n ∧
    ((2 ^ n | m) → loc_of_shr_record r = loc_Exact))).
Proof.
  intros Hm Hshr n. unfold shr_fexp in Hshr. fold n in Hshr.
  unfold shr in Hshr. destruct n as [|p|p] eqn:Hn.
  - injection Hshr as <- <-. cbn. split; [done|]. left. done.
  - injection Hshr as <- <-. rewrite iter_pos_nat.
    destruct (iter_shr_1_spec (Pos.to_nat p)
                (shr_record_of_loc m loc_Exact) Hm) as [Hm' Hl'].
    rewrite positive_nat_Z in Hm', Hl'. cbn [shr_record_of_loc shr_m] in *.
    split.
    + rewrite Hm'. apply Z.div_pos; [done|]. by apply pow2_pos.
    + right. split; [lia|]. split; [done|]. split; [done|]. by apply Hl'.
  - injection Hshr as <- <-. cbn. split; [done|]. left. split; [lia|done].
Qed.

Lemma round_nearest_even_spec (m : Z) (l : location) :
  m ≤ round_nearest_even m l ≤ m + 1 ∧
  (l = loc_Exact → round_nearest_even m l = m).
Proof.
  unfold round_nearest_even. destruct l as [|[]]; try destruct (Z.even m);
    split; done || lia.
Qed.

(** *** One rounding step against an integer *)

Lemma dle_mono (m m' e k : Z) : m' ≤ m → dle m e k → dle m' e k.
Proof.
  unfold dle. intros Hm H. pose proof (pow2_pos (Z.max 0 e) ltac:(lia)). nia.
Qed.

Lemma dge_mono (m m' e k : Z) : m ≤ m' → dge m e k → dge m' e k.
Proof.
  unfold dge. intros Hm H. pose proof (pow2_pos (Z.max 0 e) ltac:(lia)). nia.
Qed.

Lemma dge_zero (m e : Z) : 0 ≤ m → dge m e 0.
Proof.
  unfold dge. intros Hm. pose proof (pow2_pos (Z.max 0 e) ltac:(lia)). nia.
Qed.

Lemma dge_pos (m e k : Z) : 0 < k → dge m e k → 0 < m.
Proof.
  unfold dge. intros Hk H.
  pose proof (pow2_pos (Z.max 0 e) ltac:(lia)).
  pose proof (pow2_pos (Z.max 0 (- e)) ltac:(lia)). nia.
Qed.

(** Dropping the low bits never raises the value. *)
Lemma dle_floor (m e k n : Z) :
  0 ≤ m → 0 < n → dle m e k → dle (m `div` 2 ^ n) (e + n) k.
Proof.
  intros Hm Hn H. set (c := Z.min e 0).
  apply (dle_scaled c) in H; [|lia..]. apply (dle_scaled c); [lia..|].
  replace (e + n - c) with (n + (e - c)) by lia.
  rewrite Z.pow_add_r by lia.
  pose proof (pow2_pos n ltac:(lia)) as Hn2.
  pose proof (pow2_pos (e - c) ltac:(lia)) as Hp.
  pose proof (Z.mul_div_le m (2 ^ n) Hn2). nia.
Qed.

(** A binade above [2^53] holds no value at most [k]. *)
Lemma dle_small (m e k : Z) :
  0 < m → k < 2 ^ 53 → dle m e k → e < 53.
Proof.
  intros Hm Hk H. destruct (Z.lt_ge_cases e 53) as [|He]; [done|].
  unfold dle in H. rewrite (Z.max_r 0 e), (Z.max_l 0 (- e)) in H by lia.
  rewrite Z.pow_0_r in H.
  pose proof (Z.pow_le_mono_r 2 53 e ltac:(lia) He). nia.
Qed.

Lemma up_step (p : positive) (e k : Z) :
  let n := fexp (Z.pos (digits2_pos p) + e) - e in
  0 ≤ k < 2 ^ 53 → dle (Z.pos p) e k → 0 < n →
  ¬ (2 ^ n | Z.pos p) → dle (Z.pos p `div` 2 ^ n + 1) (e + n) k.
Proof.
  intros n Hk H Hn Hndiv. subst n. rewrite fexp_eq in *.
  pose proof (digits2_pos_bounds p) as [Hd _].
  set (d := Z.pos (digits2_pos p)) in *.
  set (n := Z.max (d + e - 53) (-1074) - e) in *.
  destruct (Z.le_gt_cases (e + n) 0) as [He'|He'].
  - assert (He : e < 0) by lia.
    unfold dle in *.
    rewrite (Z.max_l 0 e), (Z.max_r 0 (- e)) in H by lia.
    rewrite (Z.max_l 0 (e + n)), (Z.max_r 0 (- (e + n))) by lia.
    rewrite Z.pow_0_r in *.
    replace (- e) with (- (e + n) + n) in H by lia.
    rewrite Z.pow_add_r in H by lia.
    pose proof (pow2_pos n ltac:(lia)) as Hn2.
    set (b := k * 2 ^ (- (e + n))) in *.
    assert (Hb : Z.pos p ≤ b * 2 ^ n) by (subst b; lia).
    assert (Hlt : Z.pos p < b * 2 ^ n).
    { destruct (Z.eq_dec (Z.pos p) (b * 2 ^ n)) as [Heq|]; [|lia].
      exfalso. apply Hndiv. by exists b. }
    assert (Z.pos p `div` 2 ^ n < b); [|lia].
    apply Z.div_lt_upper_bound; lia.
  - exfalso. assert (Hde : 54 ≤ d + e) by lia.
    unfold dle in H. destruct (Z.le_gt_cases 0 e) as [He|He].
    + rewrite (Z.max_r 0 e), (Z.max_l 0 (- e)), Z.pow_0_r in H by lia.
      assert (2 ^ 53 ≤ 2 ^ (d - 1) * 2 ^ e).
      { rewrite <- Z.pow_add_r by lia. apply Z.pow_le_mono_r; lia. }
      pose proof (pow2_pos e He). nia.
    + rewrite (Z.max_l 0 e), (Z.max_r 0 (- e)), Z.pow_0_r in H by lia.
      assert (2 ^ 53 * 2 ^ (- e) ≤ 2 ^ (d - 1)).
      { rewrite <- Z.pow_add_r by lia. apply Z.pow_le_mono_r; lia. }
      pose proof (pow2_pos (- e) ltac:(lia)). nia.
Qed.

Lemma down_step (m e k : Z) :
  let n := fexp (Zdigits2 m + e) - e in
  0 ≤ m → 0 ≤ k < 2 ^ 53 → dge m e k → 0 < n →
  dge (m `div` 2 ^ n) (e + n) k.
Proof.
  intros n Hm Hk H Hn.
  pose proof (pow2_pos n ltac:(lia)) as Hn2.
  destruct (Z.eq_dec k 0) as [->|Hk0].
  { apply dge_zero. apply Z.div_pos; lia. }
  assert (Hmpos : 0 < m) by (apply (dge_pos m e k); [lia|done]).
  destruct m as [|p|p]; [lia| |lia]. subst n. cbn [Zdigits2] in *.
  rewrite fexp_eq in *.
  pose proof (digits2_pos_bounds p) as [Hd _].
  set (d := Z.pos (digits2_pos p)) in *.
  set (n := Z.max (d + e - 53) (-1074) - e) in *.
  destruct (Z.le_gt_cases (e + n) 0) as [He'|He'].
  - assert (He : e < 0) by lia.
    unfold dge in *.
    rewrite (Z.max_l 0 e), (Z.max_r 0 (- e)) in H by lia.
    rewrite (Z.max_l 0 (e + n)), (Z.max_r 0 (- (e + n))) by lia.
    rewrite Z.pow_0_r in *.
    replace (- e) with (- (e + n) + n) in H by lia.
    rewrite Z.pow_add_r in H by lia.
    set (b := k * 2 ^ (- (e + n))) in *.
    assert (b ≤ Z.pos p `div` 2 ^ n); [|lia].
    apply Z.div_le_lower_bound; lia.
  - assert (Hn53 : n = d - 53) by lia.
    unfold dge.
    rewrite (Z.max_r 0 (e + n)), (Z.max_l 0 (- (e + n))), Z.pow_0_r by lia.
    assert (H52 : 2 ^ 52 ≤ Z.pos p `div` 2 ^ n).
    { apply Z.div_le_lower_bound; [lia|].
      rewrite <- Z.pow_add_r by lia.
      replace (n + 52) with (d - 1) by lia. done. }
    assert (2 ^ 1 ≤ 2 ^ (e + n)) by (apply Z.pow_le_mono_r; lia).
    assert (2 ^ 53 = 2 ^ 52 * 2 ^ 1) by reflexivity. nia.
Qed.

(** *** Rounding a positive mantissa *)

Lemma round_aux_up (sx : bool) (p : positive) (e k : Z) :
  0 ≤ k < 2 ^ 53 → dle (Z.pos p) e k →
  match binary_round_aux prec emax sx (Z.pos p) e loc_Exact with
  | S754_zero s => s = sx
  | S754_finite s m' e' => s = sx ∧ dle (Z.pos m') e' k
  | _ => False
  end.
Proof.
  intros Hk H. unfold binary_round_aux.
  destruct (shr_fexp prec emax (Z.pos p) e loc_Exact) as [r1 e1] eqn:H1.
  apply shr_fexp_spec in H1; [|lia]. cbn [Zdigits2] in H1.
  destruct H1 as [Hr1 H1].
  pose proof (round_nearest_even_spec (shr_m r1) (loc_of_shr_record r1))
    as [Hrne Hexact].
  set (m2 := round_nearest_even (shr_m r1) (loc_of_shr_record r1)) in *.
  assert (H2 : dle m2 e1 k).
  { destruct H1 as [(_ & Hm1 & -> & Hloc) | (Hn & Hm1 & -> & Hloc)].
    - rewrite (Hexact Hloc), Hm1. done.
    - pose proof (pow2_pos _ (Z.lt_le_incl _ _ Hn)) as Hpow.
      destruct (Z.eq_dec
                  (Z.pos p `mod` 2 ^ (fexp (Z.pos (digits2_pos p) + e) - e)) 0)
        as [Hdiv|Hndiv]; [apply Z.mod_divide in Hdiv; [|lia] |
                          rewrite Z.mod_divide in Hndiv by lia].
      + rewrite (Hexact (Hloc Hdiv)), Hm1. apply dle_floor; [lia|done|done].
      + apply (dle_mono (Z.pos p `div` 2 ^ (fexp (Z.pos (digits2_pos p) + e) - e) + 1));
          [lia|]. by apply up_step. }
  destruct (shr_fexp prec emax m2 e1 loc_Exact) as [r2 e2] eqn:H3.
  apply shr_fexp_spec in H3; [|lia]. destruct H3 as [Hr2 H3].
  assert (H4 : dle (shr_m r2) e2 k).
  { destruct H3 as [(_ & -> & -> & _) | (Hn & -> & -> & _)]; [done|].
    apply dle_floor; [lia|done|done]. }
  destruct (shr_m r2) as [|m3|m3]; [done| |lia].
  assert (e2 < 53) by (apply (dle_small (Z.pos m3) e2 k); [lia|lia|done]).
  rewrite (proj2 (Z.leb_le e2 (emax - prec))) by (unfold emax, prec; lia).
  done.
Qed.

Lemma round_aux_down (sx : bool) (p : positive) (e k : Z) :
  0 ≤ k < 2 ^ 53 → dge (Z.pos p) e k →
  match binary_round_aux prec emax sx (Z.pos p) e loc_Exact with
  | S754_zero s => s = sx ∧ k = 0
  | S754_finite s m' e' => s = sx ∧ dge (Z.pos m') e' k
  | S754_infinity s => s = sx
  | S754_nan => False
  end.
Proof.
  intros Hk H. unfold binary_round_aux.
  destruct (shr_fexp prec emax (Z.pos p) e loc_Exact) as [r1 e1] eqn:H1.
  pose proof H1 as H1'. apply shr_fexp_spec in H1'; [|lia].
  destruct H1' as [Hr1 H1'].
  pose proof (round_nearest_even_spec (shr_m r1) (loc_of_shr_record r1))
    as [Hrne _].
  set (m2 := round_nearest_even (shr_m r1) (loc_of_shr_record r1)) in *.
  assert (H2 : dge m2 e1 k).
  { apply (dge_mono (shr_m r1)); [lia|].
    destruct H1' as [(_ & -> & -> & _) | (Hn & -> & -> & _)]; [done|].
    by apply down_step. }
  destruct (shr_fexp prec emax m2 e1 loc_Exact) as [r2 e2] eqn:H3.
  apply shr_fexp_spec in H3; [|lia]. destruct H3 as [Hr2 H3].
  assert (H4 : dge (shr_m r2) e2 k).
  { destruct H3 as [(_ & -> & -> & _) | (Hn & -> & -> & _)]; [done|].
    apply down_step; [lia|done|done|done]. }
  destruct (shr_m r2) as [|m3|m3]; [|by destruct (e2 <=? emax - prec)|lia].
  split; [done|]. unfold dge in H4.
  pose proof (pow2_pos (Z.max 0 (- e2)) ltac:(lia)). nia.
Qed.

Lemma pos_iter_xO (m d : positive) :
  Z.pos (Pos.iter xO m d) = Z.pos m * 2 ^ Z.pos d.
Proof.
  induction d as [|d IH] using Pos.peano_ind.
  - simpl. lia.
  - rewrite Pos.iter_succ, (Pos2Z.inj_xO (Pos.iter xO m d)), IH.
    rewrite Pos2Z.inj_succ, Z.pow_succ_r by lia. lia.
Qed.

Lemma shl_align_spec (mx : positive) (ex ex' : Z) :
  let '(mz, ez) := shl_align mx ex ex' in
  ez ≤ ex ∧ Z.pos mz = Z.pos mx * 2 ^ (ex - ez).
Proof.
  unfold shl_align. destruct (ex' - ex) as [|d|d] eqn:Hd.
  - rewrite Z.sub_diag. lia.
  - rewrite Z.sub_diag. lia.
  - split; [lia|]. rewrite pos_iter_xO. f_equal. f_equal. lia.
Qed.

Lemma dle_shift (m e e' k : Z) :
  e' ≤ e → dle (m * 2 ^ (e - e')) e' k ↔ dle m e k.
Proof.
  intros He. set (c := Z.min e' 0).
  rewrite (dle_scaled c (m * 2 ^ (e - e')) e'), (dle_scaled c m e) by lia.
  replace (e - c) with (e - e' + (e' - c)) by lia.
  rewrite Z.pow_add_r by lia. by rewrite Z.mul_assoc.
Qed.

Lemma dge_shift (m e e' k : Z) :
  e' ≤ e → dge (m * 2 ^ (e - e')) e' k ↔ dge m e k.
Proof.
  intros He. set (c := Z.min e' 0).
  rewrite (dge_scaled c (m * 2 ^ (e - e')) e'), (dge_scaled c m e) by lia.
  replace (e - c) with (e - e' + (e' - c)) by lia.
  rewrite Z.pow_add_r by lia. by rewrite Z.mul_assoc.
Qed.

(** Rounding a value that is at most the integer [k] gives at most [k];
    rounding one that is at least [k] gives at least [k]. *)
Lemma round_up (sx : bool) (p : positive) (e k : Z) :
  0 ≤ k < 2 ^ 53 → dle (Z.pos p) e k →
  match binary_round prec emax sx p e with
  | S754_zero s => s = sx
  | S754_finite s m' e' => s = sx ∧ dle (Z.pos m') e' k
  | _ => False
  end.
Proof.
  intros Hk H. unfold binary_round.
  pose proof (shl_align_spec p e (fexp (Z.pos (digits2_pos p) + e))) as Hal.
  destruct (shl_align p e _) as [mz ez]. destruct Hal as [Hez Hmz].
  apply round_aux_up; [done|]. rewrite Hmz. by apply dle_shift.
Qed.

Lemma round_down (sx : bool) (p : positive) (e k : Z) :
  0 ≤ k < 2 ^ 53 → dge (Z.pos p) e k →
  match binary_round prec emax sx p e with
  | S754_zero s => s = sx ∧ k = 0
  | S754_finite s m' e' => s = sx ∧ dge (Z.pos m') e' k
  | S754_infinity s => s = sx
  | S754_nan => False
  end.
Proof.
  intros Hk H. unfold binary_round.
  pose proof (shl_align_spec p e (fexp (Z.pos (digits2_pos p) + e))) as Hal.
  destruct (shl_align p e _) as [mz ez]. destruct Hal as [Hez Hmz].
  apply round_aux_down; [done|]. rewrite Hmz. by apply dge_shift.
Qed.

(** *** Signs *)

Lemma round_aux_signed (sx : bool) (m e : Z) (l : location) :
  signed sx (binary_round_aux prec emax sx m e l).
Proof.
  unfold binary_round_aux.
  destruct (shr_fexp prec emax m e l) as [r1 e1].
  destruct (shr_fexp prec emax _ e1 loc_Exact) as [r2 e2].
  destruct (shr_m r2); [done| |done].
  by destruct (e2 <=? emax - prec).
Qed.

Lemma round_signed (sx : bool) (p : positive) (e : Z) :
  signed sx (binary_round prec emax sx p e).
Proof.
  unfold binary_round. destruct (shl_align p e _) as [mz ez].
  apply round_aux_signed.
Qed.

Lemma signed_not_negative (f : spec_float) :
  signed false f → not_negative (PFloat f).
Proof. destruct f as [s|s| |s m e]; cbn; try done; by intros ->. Qed.

Lemma normalize_not_negative (m e : Z) :
  0 ≤ m → not_negative (PFloat (binary_normalize prec emax m e false)).
Proof.
  intros Hm. destruct m as [|p|p]; [done| |lia].
  apply signed_not_negative, round_signed.
Qed.

(** *** Integers as floats *)

Lemma float_of_int_not_negative (z : Z) (f : spec_float) :
  0 ≤ z → float_of_int z = Ok f → not_negative (PFloat f).
Proof.
  intros Hz. unfold float_of_int.
  pose proof (normalize_not_negative z 0 Hz) as H.
  destruct (binary_normalize prec emax z 0 false); by intros [= <-].
Qed.

Lemma dle_int (z : Z) : dle z 0 z.
Proof. change (z * 1 ≤ z * 1). lia. Qed.

Lemma dge_int (z : Z) : dge z 0 z.
Proof. change (z * 1 ≤ z * 1). lia. Qed.

(** Below [2^53] the conversion is exact. *)
Lemma float_of_int_exact (z : Z) :
  0 ≤ z < 2 ^ 53 → ∃ f, float_of_int z = Ok f ∧ holds_int f z.
Proof.
  intros Hz. unfold float_of_int, binary_normalize.
  destruct z as [|p|p]; [by eexists| |lia].
  pose proof (round_up false p 0 (Z.pos p) Hz (dle_int _)) as Hup.
  pose proof (round_down false p 0 (Z.pos p) Hz (dge_int _)) as Hdown.
  destruct (binary_round prec emax false p 0) as [s|s| |s m e]; try done.
  - lia.
  - eexists. split; [done|]. cbn. tauto.
Qed.

(** *** Comparisons *)

Lemma compare_scale (n m p : Z) : 0 < p → (n * p ?= m * p) = (n ?= m).
Proof.
  intros Hp. destruct (Z.compare_spec n m) as [->|Hlt|Hgt].
  - apply Z.compare_refl.
  - apply Z.compare_lt_iff. nia.
  - apply Z.compare_gt_iff. nia.
Qed.

Lemma dyadic_compare_scaled (c m1 e1 m2 e2 : Z) :
  c ≤ e1 → c ≤ e2 →
  dyadic_compare m1 e1 m2 e2 = (m1 * 2 ^ (e1 - c) ?= m2 * 2 ^ (e2 - c)).
Proof.
  intros H1 H2. unfold dyadic_compare. set (c' := Z.min e1 e2).
  replace (e1 - c) with (e1 - c' + (c' - c)) by lia.
  replace (e2 - c) with (e2 - c' + (c' - c)) by lia.
  rewrite !Z.pow_add_r, !Z.mul_assoc by lia.
  symmetry. apply compare_scale. apply pow2_pos. lia.
Qed.

Lemma dle_compare (m e k : Z) : dle m e k ↔ dyadic_compare m e k 0 ≠ Gt.
Proof.
  rewrite (dyadic_compare_scaled (Z.min e 0)) by lia.
  rewrite (dle_scaled (Z.min e 0)) by lia.
  replace (0 - Z.min e 0) with (- Z.min e 0) by lia.
  symmetry. apply Z.compare_le_iff.
Qed.

Lemma dge_compare (m e k : Z) : dge m e k ↔ dyadic_compare k 0 m e ≠ Gt.
Proof.
  rewrite (dyadic_compare_scaled (Z.min e 0)) by lia.
  rewrite (dge_scaled (Z.min e 0)) by lia.
  replace (0 - Z.min e 0) with (- Z.min e 0) by lia.
  symmetry. apply Z.compare_le_iff.
Qed.

Lemma leb_dyadic_int (a : num) (m e k : Z) :
  value_of a = Dyadic m e → leb a (PInt k) = true ↔ dle m e k.
Proof.
  intros Ha. unfold leb, compare. rewrite Ha. cbn [value_of].
  rewrite dle_compare. by destruct (dyadic_compare m e k 0).
Qed.

Lemma leb_int_dyadic (b : num) (m e k : Z) :
  value_of b = Dyadic m e → leb (PInt k) b = true ↔ dge m e k.
Proof.
  intros Hb. unfold leb, compare. rewrite Hb. cbn [value_of].
  rewrite dge_compare. by destruct (dyadic_compare k 0 m e).
Qed.

Lemma leb_int (k k' : Z) : leb (PInt k) (PInt k') = true ↔ k ≤ k'.
Proof.
  rewrite (leb_dyadic_int _ k 0) by done. unfold dle.
  change (2 ^ Z.max 0 0) with 1. change (2 ^ Z.max 0 (- 0)) with 1. lia.
Qed.

Lemma ltb_int (k k' : Z) : ltb (PInt k) (PInt k') = true ↔ k < k'.
Proof.
  unfold ltb, compare, dyadic_compare. cbn [value_of].
  change (2 ^ (0 - Z.min 0 0)) with 1. rewrite !Z.mul_1_r.
  destruct (Z.compare_spec k k'); split; (done || lia).
Qed.

Lemma ltb_leb (a b : num) : ltb a b = true → leb a b = true.
Proof. unfold ltb, leb. by destruct (compare a b) as [[]|]. Qed.

Lemma ltb_not_nan (a b : num) : ltb a b = true → ¬ is_nan a ∧ ¬ is_nan b.
Proof.
  unfold ltb, compare, is_nan.
  destruct (value_of a), (value_of b); try done.
Qed.

(** Through two integers: [a <= k < k' <= b] gives [a < b]. *)
Lemma ltb_through_ints (a b : num) (k k' : Z) :
  leb a (PInt k) = true → k < k' → leb (PInt k') b = true → ltb a b = true.
Proof.
  intros Ha Hk Hb.
  destruct (value_of a) as [| | |m1 e1] eqn:Va;
    try (unfold leb, compare in Ha; rewrite Va in Ha; done);
  destruct (value_of b) as [| | |m2 e2] eqn:Vb;
    try (unfold leb, compare in Hb; rewrite Vb in Hb; done);
  unfold ltb, compare; rewrite Va, Vb; try done.
  apply (leb_dyadic_int _ _ _ _ Va) in Ha.
  apply (leb_int_dyadic _ _ _ _ Vb) in Hb.
  set (c := Z.min (Z.min e1 e2) 0).
  apply (dle_scaled c) in Ha; [|lia..]. apply (dge_scaled c) in Hb; [|lia..].
  rewrite (dyadic_compare_scaled c) by lia.
  pose proof (pow2_pos (- c) ltac:(lia)).
  assert (Hlt : m1 * 2 ^ (e1 - c) < m2 * 2 ^ (e2 - c)) by nia.
  apply Z.compare_lt_iff in Hlt. by rewrite Hlt.
Qed.

(** *** Arithmetic on numbers that are not negative *)

Lemma shl_align_fst (mx : positive) (ex ez : Z) :
  ez ≤ ex → Z.pos (fst (shl_align mx ex ez)) = Z.pos mx * 2 ^ (ex - ez).
Proof.
  intros He. unfold shl_align. destruct (ez - ex) as [|d|d] eqn:Hd.
  - replace (ex - ez) with 0 by lia. cbn [fst]. lia.
  - lia.
  - cbn [fst]. rewrite pos_iter_xO. f_equal. f_equal. lia.
Qed.

Lemma SFmul_not_negative (x y : spec_float) :
  not_negative (PFloat x) → not_negative (PFloat y) →
  not_negative (PFloat (SFmul prec emax x y)).
Proof.
  destruct x as [sx|[]| |[] mx ex], y as [sy|[]| |[] my ey];
    cbn [not_negative SFmul xorb]; try done.
  intros _ _. apply signed_not_negative, round_aux_signed.
Qed.

Lemma SFadd_not_negative (x y : spec_float) :
  not_negative (PFloat x) → not_negative (PFloat y) →
  not_negative (PFloat (SFadd prec emax x y)).
Proof.
  destruct x as [[]|[]| |[] mx ex], y as [[]|[]| |[] my ey];
    cbn [not_negative SFadd]; try done.
  intros _ _. apply normalize_not_negative. cbn [cond_Zopp]. lia.
Qed.

Lemma mul_not_negative (a b v : num) :
  not_negative a → not_negative b → mul a b = Ok v → not_negative v.
Proof.
  intros Ha Hb. destruct a as [x|fx], b as [y|fy]; cbn [mul as_float].
  - intros [= <-]. cbn in *. nia.
  - destruct (float_of_int x) as [fx|] eqn:Hx; [|done]. intros [= <-].
    apply SFmul_not_negative; [|done]. by apply (float_of_int_not_negative x).
  - destruct (float_of_int y) as [fy|] eqn:Hy; [|done]. intros [= <-].
    apply SFmul_not_negative; [done|]. by apply (float_of_int_not_negative y).
  - intros [= <-]. by apply SFmul_not_negative.
Qed.

Lemma add_not_negative (a b v : num) :
  not_negative a → not_negative b → add a b = Ok v → not_negative v.
Proof.
  intros Ha Hb. destruct a as [x|fx], b as [y|fy]; cbn [add as_float].
  - intros [= <-]. cbn in *. lia.
  - destruct (float_of_int x) as [fx|] eqn:Hx; [|done]. intros [= <-].
    apply SFadd_not_negative; [|done]. by apply (float_of_int_not_negative x).
  - destruct (float_of_int y) as [fy|] eqn:Hy; [|done]. intros [= <-].
    apply SFadd_not_negative; [done|]. by apply (float_of_int_not_negative y).
  - intros [= <-]. by apply SFadd_not_negative.
Qed.

Lemma int_not_negative (v : num) (z : Z) :
  not_negative v → int v = Ok z → 0 ≤ z.
Proof.
  destruct v as [x|[s|s| |[] m e]]; cbn [not_negative int cond_Zopp];
    try done; intros H [= <-]; try lia.
  apply Z.shiftl_nonneg. lia.
Qed.

(** [p >= 0], as Python evaluates it, makes [p] not negative. *)
Lemma leb_zero_not_negative (p : num) :
  leb (PInt 0) p = true → not_negative p.
Proof.
  destruct p as [z|[s|[]| |[] m e]]; cbn [not_negative]; try done.
  - apply leb_int.
  - intros H. apply (leb_int_dyadic _ (Z.neg m) e) in H; [|done].
    unfold dge in H. pose proof (pow2_pos (Z.max 0 e) ltac:(lia)).
    pose proof (pow2_pos (Z.max 0 (- e)) ltac:(lia)). nia.
Qed.

(** *** Subtracting from, and adding to, an integer below [2^53] *)

Lemma negative_at_most (f : spec_float) (x : Z) :
  signed true f → 0 ≤ x → at_most (PFloat f) x.
Proof.
  intros Hf Hx. destruct f as [s|s| |s m e]; cbn in Hf; subst.
  - right. apply (leb_dyadic_int _ 0 0); [done|]. unfold dle. lia.
  - by right.
  - by left.
  - right. apply (leb_dyadic_int _ (Z.neg m) e); [done|]. unfold dle.
    pose proof (pow2_pos (Z.max 0 e) ltac:(lia)).
    pose proof (pow2_pos (Z.max 0 (- e)) ltac:(lia)). nia.
Qed.

Lemma SFsub_at_most (fx pf : spec_float) (x : Z) :
  0 ≤ x < 2 ^ 53 → holds_int fx x → not_negative (PFloat pf) →
  at_most (PFloat (SFsub prec emax fx pf)) x.
Proof.
  intros Hx Hfx Hpf.
  destruct fx as [sx|sx| |sx mx ex]; cbn [holds_int] in Hfx; try done.
  - subst x.
    destruct pf as [sy|[]| |[] my ey]; cbn [not_negative] in Hpf; try done.
    + right. by destruct sx, sy.
    + by right.
    + by left.
    + by apply negative_at_most.
  - destruct Hfx as (-> & Hle & Hge).
    destruct pf as [sy|[]| |[] my ey]; cbn [not_negative] in Hpf; try done.
    + right. cbn [SFsub]. by apply (leb_dyadic_int _ (Z.pos mx) ex).
    + by right.
    + by left.
    + cbn [SFsub cond_Zopp]. set (ez := Z.min ex ey).
      pose proof (shl_align_fst mx ex ez ltac:(lia)) as HA.
      set (A := fst (shl_align mx ex ez)) in *.
      set (B := fst (shl_align my ey ez)).
      assert (HAle : dle (Z.pos A) ez x).
      { rewrite HA. apply dle_shift; [lia|done]. }
      unfold binary_normalize.
      destruct (Z.pos A - Z.pos B) as [|p|p] eqn:HM.
      * right. apply (leb_dyadic_int _ 0 0); [done|]. unfold dle. lia.
      * pose proof (round_up false p ez x Hx) as Hup.
        destruct (binary_round prec emax false p ez) as [s|s| |s m e];
          try (exfalso; apply Hup; apply (dle_mono (Z.pos A)); [lia|done]).
        -- right. apply (leb_dyadic_int _ 0 0); [done|]. unfold dle. lia.
        -- destruct Hup as [-> Hup]; [apply (dle_mono (Z.pos A)); [lia|done]|].
           right. by apply (leb_dyadic_int _ (Z.pos m) e).
      * apply negative_at_most; [apply round_signed | lia].
Qed.

Lemma SFadd_at_least (fx pf : spec_float) (x : Z) :
  0 ≤ x < 2 ^ 53 → holds_int fx x → not_negative (PFloat pf) →
  at_least (PFloat (SFadd prec emax fx pf)) x.
Proof.
  intros Hx Hfx Hpf.
  destruct fx as [sx|sx| |sx mx ex]; cbn [holds_int] in Hfx; try done.
  - subst x.
    destruct pf as [sy|[]| |[] my ey]; cbn [not_negative] in Hpf; try done.
    + right. by destruct sx, sy.
    + by right.
    + by left.
    + right. cbn [SFadd]. apply (leb_int_dyadic _ (Z.pos my) ey); [done|].
      apply dge_zero. lia.
  - destruct Hfx as (-> & Hle & Hge).
    destruct pf as [sy|[]| |[] my ey]; cbn [not_negative] in Hpf; try done.
    + right. cbn [SFadd]. by apply (leb_int_dyadic _ (Z.pos mx) ex).
    + by right.
    + by left.
    + cbn [SFadd cond_Zopp]. set (ez := Z.min ex ey).
      pose proof (shl_align_fst mx ex ez ltac:(lia)) as HA.
      set (A := fst (shl_align mx ex ez)) in *.
      set (B := fst (shl_align my ey ez)).
      assert (HAge : dge (Z.pos A) ez x).
      { rewrite HA. apply dge_shift; [lia|done]. }
      unfold binary_normalize.
      destruct (Z.pos A + Z.pos B) as [|p|p] eqn:HM; [lia| |lia].
      pose proof (round_down false p ez x Hx) as Hdown.
      assert (Hp : dge (Z.pos p) ez x) by (apply (dge_mono (Z.pos A)); [lia|done]).
      specialize (Hdown Hp).
      destruct (binary_round prec emax false p ez) as [s|s| |s m e]; try done.
      * destruct Hdown as [_ ->]. right. by apply (leb_int_dyadic _ 0 0).
      * subst s. by right.
      * destruct Hdown as [-> Hdown]. right.
        by apply (leb_int_dyadic _ (Z.pos m) e).
Qed.

Lemma sub_at_most (x : Z) (pad : num) :
  0 ≤ x < 2 ^ 53 → not_negative pad →
  ∃ l, sub (PInt x) pad = Ok l ∧ at_most l x.
Proof.
  intros Hx Hpad. destruct pad as [z|pf]; cbn [sub as_float].
  - eexists. split; [done|]. right. apply leb_int. cbn in Hpad. lia.
  - destruct (float_of_int_exact x Hx) as (fx & -> & Hfx).
    eexists. split; [done|]. by apply SFsub_at_most.
Qed.

Lemma add_at_least (x : Z) (pad : num) :
  0 ≤ x < 2 ^ 53 → not_negative pad →
  ∃ r, add (PInt x) pad = Ok r ∧ at_least r x.
Proof.
  intros Hx Hpad. destruct pad as [z|pf]; cbn [add as_float].
  - eexists. split; [done|]. right. apply leb_int. cbn in Hpad. lia.
  - destruct (float_of_int_exact x Hx) as (fx & -> & Hfx).
    eexists. split; [done|]. by apply SFadd_at_least.
Qed.

Lemma mul_int_total (b : Z) (p : num) :
  0 ≤ b < 2 ^ 53 → not_negative p →
  ∃ pad, mul (PInt b) p = Ok pad ∧ not_negative pad.
Proof.
  intros Hb Hp.
  assert (∃ pad, mul (PInt b) p = Ok pad) as [pad Hpad].
  { destruct p as [z|pf]; cbn [mul as_float]; [by eexists|].
    destruct (float_of_int_exact b Hb) as (fb & -> & _). by eexists. }
  exists pad. split; [done|].
  apply (mul_not_negative (PInt b) p); [cbn; lia|done|done].
Qed.

(** *** Floats that hold an integer *)

Lemma compare_holds_int_l (f : spec_float) (x k : Z) :
  holds_int f x → compare (PFloat f) (PInt k) = Some (x ?= k).
Proof.
  destruct f as [s|s| |s m e]; cbn [holds_int]; try done.
  - intros ->. unfold compare, dyadic_compare. cbn [value_of].
    change (2 ^ (0 - Z.min 0 0)) with 1. by rewrite !Z.mul_1_r.
  - intros (-> & Hle & Hge). unfold compare. cbn [value_of cond_Zopp].
    set (c := Z.min e 0). rewrite (dyadic_compare_scaled c) by lia.
    apply (dle_scaled c) in Hle; [|lia..]. apply (dge_scaled c) in Hge; [|lia..].
    replace (Z.pos m * 2 ^ (e - c)) with (x * 2 ^ (- c)) by lia.
    replace (0 - c) with (- c) by lia.
    rewrite compare_scale; [done|]. apply pow2_pos. lia.
Qed.

Lemma compare_holds_int_r (f : spec_float) (x k : Z) :
  holds_int f x → compare (PInt k) (PFloat f) = Some (k ?= x).
Proof.
  destruct f as [s|s| |s m e]; cbn [holds_int]; try done.
  - intros ->. unfold compare, dyadic_compare. cbn [value_of].
    change (2 ^ (0 - Z.min 0 0)) with 1. by rewrite !Z.mul_1_r.
  - intros (-> & Hle & Hge). unfold compare. cbn [value_of cond_Zopp].
    set (c := Z.min e 0). rewrite (dyadic_compare_scaled c) by lia.
    apply (dle_scaled c) in Hle; [|lia..]. apply (dge_scaled c) in Hge; [|lia..].
    replace (Z.pos m * 2 ^ (e - c)) with (x * 2 ^ (- c)) by lia.
    replace (0 - c) with (- c) by lia.
    rewrite compare_scale; [done|]. apply pow2_pos. lia.
Qed.

Lemma SFmul_zero (fb : spec_float) (b : Z) (s : bool) :
  holds_int fb b → ∃ s', SFmul prec emax fb (S754_zero s) = S754_zero s'.
Proof. destruct fb as [sb|sb| |sb m e]; cbn; try done; by eexists. Qed.

Lemma SFsub_zero (fx : spec_float) (x : Z) (s : bool) :
  holds_int fx x → holds_int (SFsub prec emax fx (S754_zero s)) x.
Proof.
  destruct fx as [sx|sx| |sx m e]; cbn [holds_int]; try done.
  intros ->. by destruct sx, s.
Qed.

Lemma SFadd_zero (fx : spec_float) (x : Z) (s : bool) :
  holds_int fx x → holds_int (SFadd prec emax fx (S754_zero s)) x.
Proof.
  destruct fx as [sx|sx| |sx m e]; cbn [holds_int]; try done.
  intros ->. by destruct sx, s.
Qed.

(** Clamping a float that holds an integer inside the range changes
    nothing of its value. *)
Lemma max_zero_holds (f : spec_float) (x : Z) :
  holds_int f x → 0 ≤ x → eqb (max (PInt 0) (PFloat f)) (PInt x) = true.
Proof.
  intros Hf Hx. unfold max, ltb. rewrite (compare_holds_int_r f x 0 Hf).
  destruct (Z.compare_spec 0 x) as [<-|Hlt|Hgt]; [done| |lia].
  unfold eqb. rewrite (compare_holds_int_l f x x Hf). by rewrite Z.compare_refl.
Qed.

Lemma min_width_holds (f : spec_float) (x w : Z) :
  holds_int f x → x ≤ w → eqb (min (PInt w) (PFloat f)) (PInt x) = true.
Proof.
  intros Hf Hx. unfold min, ltb. rewrite (compare_holds_int_l f x w Hf).
  destruct (Z.compare_spec x w) as [->|Hlt|Hgt]; [| |lia].
  - unfold eqb, compare, dyadic_compare. cbn [value_of].
    by rewrite Z.compare_refl.
  - unfold eqb. rewrite (compare_holds_int_l f x x Hf). by rewrite Z.compare_refl.
Qed.

(** *** One axis of a padded box *)

Lemma axis_well_formed (l r : num) (a b w : Z) :
  0 ≤ a → a < b → b ≤ w → at_most l a → at_least r b →
  leb (PInt 0) (max (PInt 0) l) = true ∧
  ltb (max (PInt 0) l) (min (PInt w) r) = true ∧
  leb (min (PInt w) r) (PInt w) = true.
Proof.
  intros Ha Hab Hbw Hl Hr. unfold max, min.
  destruct (ltb (PInt 0) l) eqn:E1, (ltb r (PInt w)) eqn:E2.
  - apply ltb_not_nan in E1 as HE1. apply ltb_not_nan in E2 as HE2.
    destruct Hl as [?|Hl]; [tauto|]. destruct Hr as [?|Hr]; [tauto|].
    split; [by apply ltb_leb|]. split; [|by apply ltb_leb].
    by apply (ltb_through_ints l r a b).
  - apply ltb_not_nan in E1 as HE1. destruct Hl as [?|Hl]; [tauto|].
    split; [by apply ltb_leb|]. split; [|by apply leb_int].
    apply (ltb_through_ints l (PInt w) a b); [done..|]. by apply leb_int.
  - apply ltb_not_nan in E2 as HE2. destruct Hr as [?|Hr]; [tauto|].
    split; [by apply leb_int|]. split; [|by apply ltb_leb].
    apply (ltb_through_ints (PInt 0) r a b); [|done..]. by apply leb_int.
  - split; [by apply leb_int|]. split; [|by apply leb_int].
    apply ltb_int. lia.
Qed.

(** *** Boxes that reach outside the image *)

Lemma float_of_int_negative (z : Z) :
  - 2 ^ 53 < z < 0 → ∃ m e, float_of_int z = Ok (S754_finite true m e).
Proof.
  intros Hz. unfold float_of_int, binary_normalize.
  destruct z as [|p|p]; [lia|lia|].
  assert (Hp : 0 ≤ Z.pos p < 2 ^ 53) by lia.
  pose proof (round_up true p 0 (Z.pos p) Hp (dle_int _)) as Hup.
  pose proof (round_down true p 0 (Z.pos p) Hp (dge_int _)) as Hdown.
  destruct (binary_round prec emax true p 0) as [s|s| |s m e]; try done.
  - lia.
  - destruct Hup as [-> _]. by eexists _, _.
Qed.

Lemma SFsub_negative (m : positive) (e : Z) (pf : spec_float) :
  not_negative (PFloat pf) →
  signed true (SFsub prec emax (S754_finite true m e) pf).
Proof.
  destruct pf as [sy|[]| |[] my ey]; cbn [not_negative]; try done.
  intros _. cbn [SFsub cond_Zopp]. unfold binary_normalize.
  destruct (_ - _) as [|p|p] eqn:HM; [lia|lia|]. apply round_signed.
Qed.

(** Left of the image the subtraction only moves further left. *)
Lemma sub_clamped (x : Z) (pad : num) :
  - 2 ^ 53 < x < 2 ^ 53 → not_negative pad →
  ∃ l, sub (PInt x) pad = Ok l ∧ at_most l (Z.max 0 x).
Proof.
  intros Hx Hpad. destruct (Z.le_gt_cases 0 x) as [H0|H0].
  - rewrite Z.max_r by done. apply sub_at_most; [lia|done].
  - rewrite Z.max_l by lia. destruct pad as [z|pf]; cbn [sub as_float].
    + eexists. split; [done|]. right. apply leb_int. cbn in Hpad. lia.
    + destruct (float_of_int_negative x) as (m & e & ->); [lia|].
      eexists. split; [done|]. apply negative_at_most; [|done].
      by apply SFsub_negative.
Qed.

Lemma at_least_le (r : num) (k k' : Z) :
  k' ≤ k → at_least r k → at_least r k'.
Proof.
  intros Hk [Hnan|Hr]; [by left|]. right.
  destruct (value_of r) as [| | |m e] eqn:Vr;
    try (unfold leb, compare in *; rewrite Vr in *; done).
  apply (leb_int_dyadic _ _ _ _ Vr) in Hr. apply (leb_int_dyadic _ _ _ _ Vr).
  unfold dge in *. pose proof (pow2_pos (Z.max 0 (- e)) ltac:(lia)). nia.
Qed.

(** *** A product with a factor that is at least one *)

Lemma dge_mul (m1 e1 m2 e2 k : Z) :
  0 ≤ k → dge m1 e1 k → dge m2 e2 1 → dge (m1 * m2) (e1 + e2) k.
Proof.
  intros Hk H1 H2. set (c1 := Z.min e1 0). set (c2 := Z.min e2 0).
  apply (dge_scaled c1) in H1; [|lia..]. apply (dge_scaled c2) in H2; [|lia..].
  apply (dge_scaled (c1 + c2)); [lia..|].
  replace (e1 + e2 - (c1 + c2)) with ((e1 - c1) + (e2 - c2)) by lia.
  replace (- (c1 + c2)) with (- c1 + - c2) by lia.
  rewrite !Z.pow_add_r by lia.
  pose proof (pow2_pos (- c1) ltac:(lia)). pose proof (pow2_pos (- c2) ltac:(lia)).
  pose proof (pow2_pos (e1 - c1) ltac:(lia)).
  pose proof (pow2_pos (e2 - c2) ltac:(lia)).
  assert (0 ≤ k * 2 ^ (- c1)) by nia.
  assert (k * 2 ^ (- c1) * (1 * 2 ^ (- c2))
          ≤ m1 * 2 ^ (e1 - c1) * (m2 * 2 ^ (e2 - c2))).
  { apply Z.mul_le_mono_nonneg; lia. }
  lia.
Qed.

Lemma SFmul_at_least (fb u : spec_float) (b : Z) :
  0 ≤ b < 2 ^ 53 → holds_int fb b → at_least (PFloat u) 1 →
  at_least (PFloat (SFmul prec emax fb u)) b.
Proof.
  intros Hb Hfb Hu.
  assert (Hu' : match u with
                | S754_nan | S754_infinity false => True
                | S754_finite false mu eu => dge (Z.pos mu) eu 1
                | _ => False
                end).
  { destruct Hu as [Hnan|Hu]; [by destruct u as [?|[]| |[] ? ?]|].
    destruct u as [s|[]| |s mu eu]; try done.
    apply (leb_int_dyadic _ (cond_Zopp s (Z.pos mu)) eu) in Hu; [|done].
    destruct s; [|done]. apply dge_pos in Hu; [|done]. cbn in Hu. lia. }
  clear Hu.
  destruct fb as [sb|sb| |sb mb eb]; cbn [holds_int] in Hfb; try done.
  - subst b. destruct u as [su|[]| |[] mu eu]; try done; cbn [SFmul xorb];
      try (by left); right; by apply (leb_int_dyadic _ 0 0).
  - destruct Hfb as (-> & Hle & Hge).
    destruct u as [su|[]| |[] mu eu]; try done; cbn [SFmul xorb];
      try (by left); try (by right).
    pose proof (round_aux_down false (mb * mu) (eb + eu) b Hb) as Hdown.
    rewrite Pos2Z.inj_mul in Hdown.
    specialize (Hdown (dge_mul (Z.pos mb) eb (Z.pos mu) eu b (proj1 Hb) Hge Hu')).
    rewrite <- Pos2Z.inj_mul in Hdown.
    destruct (binary_round_aux prec emax false (Z.pos (mb * mu)) (eb + eu)
                loc_Exact) as [s|s| |s m e]; try done.
    + destruct Hdown as [_ ->]. right. by apply (leb_int_dyadic _ 0 0).
    + subst s. by right.
    + destruct Hdown as [-> Hdown]. right.
      by apply (leb_int_dyadic _ (Z.pos m) e).
Qed.

(** Truncation keeps a number that is at least an integer at least that
    integer. *)
Lemma int_at_least (v : num) (b z : Z) :
  0 ≤ b → at_least v b → int v = Ok z → b ≤ z.
Proof.
  intros Hb [Hnan|Hv]; [by destruct v as [x|[s|s| |s m e]]|].
  destruct v as [x|[s|s| |s m e]]; cbn [int]; try done; intros [= <-].
  - by apply leb_int.
  - apply (leb_int_dyadic _ 0 0) in Hv; [|done]. unfold dge in Hv. lia.
  - apply (leb_int_dyadic _ (cond_Zopp s (Z.pos m)) e) in Hv; [|done].
    destruct s; cbn [cond_Zopp] in *.
    + unfold dge in Hv. pose proof (pow2_pos (Z.max 0 e) ltac:(lia)).
      pose proof (pow2_pos (Z.max 0 (- e)) ltac:(lia)). nia.
    + unfold dge in Hv. destruct (Z.le_gt_cases 0 e) as [He|He].
      * rewrite (Z.max_r 0 e), (Z.max_l 0 (- e)), Z.pow_0_r in Hv by lia.
        rewrite Z.shiftl_mul_pow2 by done. lia.
      * rewrite (Z.max_l 0 e), (Z.max_r 0 (- e)), Z.pow_0_r in Hv by lia.
        rewrite Z.shiftl_div_pow2 by lia.
        apply Z.div_le_lower_bound; [apply pow2_pos; lia | lia].
Qed.

End Rounding.
(** * Properties *)

(** ** The registry *)

Lemma detector_member detect (t : GenSquareType) :
  detector detect !! value t = Some (detect t).
Proof. destruct t; reflexivity. Qed.

Lemma detector_registered detect (type : string) (f : Detector) :
  detector detect !! type = Some f → ∃ t, type = value t ∧ f = detect t.
Proof.
  unfold detector. intros H.
  apply elem_of_list_to_map_2 in H.
  apply list_elem_of_fmap in H as (t & Heq & _).
  exists t. by inversion Heq.
Qed.

(** ** Running the monad *)

Lemma bind_ok {A B} (m : M A) (k : A → M B) fs a fs1 :
  m fs = (Ok a, fs1) → (m ≫= k) fs = k a fs1.
Proof. intros H. unfold mbind, M_bind. by rewrite H. Qed.

Lemma bind_raise {A B} (m : M A) (k : A → M B) fs e fs1 :
  m fs = (Raise e, fs1) → (m ≫= k) fs = (Raise e, fs1).
Proof. intros H. unfold mbind, M_bind. by rewrite H. Qed.

Lemma bind_inv {A B} (m : M A) (k : A → M B) fs b fs2 :
  (m ≫= k) fs = (Ok b, fs2) →
  ∃ a fs1, m fs = (Ok a, fs1) ∧ k a fs1 = (Ok b, fs2).
Proof.
  unfold mbind, M_bind. destruct (m fs) as [[a|e] fs1]; [eauto | discriminate].
Qed.

Lemma lift_inv {A} (r : res A) fs a fs1 :
  lift r fs = (Ok a, fs1) → r = Ok a ∧ fs1 = fs.
Proof. unfold lift. by inversion 1. Qed.

Lemma ancestors_self (p : Path) : p ∈ ancestors p.
Proof.
  unfold ancestors. apply list_elem_of_fmap. exists (length p). split.
  - by rewrite firstn_all.
  - apply elem_of_seq. lia.
Qed.

Lemma ancestors_not_below (p : Path) (name : string) :
  p ++ [name] ∉ ancestors p.
Proof.
  unfold ancestors. intros Hin.
  apply list_elem_of_fmap in Hin as (n & Heq & _).
  apply (f_equal length) in Heq.
  rewrite length_app, length_take in Heq. cbn in Heq. lia.
Qed.

Lemma ensure_dir_ok output_dir fs :
  no_file_above output_dir fs →
  ∃ fs1, ensure_dir output_dir fs = (Ok (), fs1) ∧
         output_dir ∈ dirs fs1 ∧ files fs1 = files fs ∧ dirs fs ⊆ dirs fs1 ∧
         ∀ name, output_dir ++ [name] ∉ dirs fs →
                 output_dir ++ [name] ∉ dirs fs1.
Proof.
  intros Hno. unfold ensure_dir, path_exists, mbind, M_bind.
  assert (Hself : files fs !! output_dir = None).
  { unfold no_file_above in Hno. rewrite Forall_forall in Hno.
    apply Hno, ancestors_self. }
  rewrite Hself. rewrite (bool_decide_eq_false_2 (is_Some None)).
  2:{ intros [? ?]. discriminate. }
  rewrite orb_false_r. case_bool_decide as Hin.
  - exists fs. by repeat split.
  - unfold mkdir_parents. rewrite bool_decide_eq_false_2.
    + eexists. split; [reflexivity|]. cbn [dirs files]. repeat split.
      * apply elem_of_union_r, elem_of_list_to_set, ancestors_self.
      * apply union_subseteq_l.
      * intros name Hfree Hbelow. apply elem_of_union in Hbelow as [?|Hanc];
          [done|]. apply elem_of_list_to_set in Hanc.
        by apply ancestors_not_below in Hanc.
    + intros Hex. apply Exists_exists in Hex as (q & Hq & [im Him]).
      unfold no_file_above in Hno. rewrite Forall_forall in Hno.
      specialize (Hno q Hq). congruence.
Qed.

Lemma parent_app (output_dir : Path) (name : string) :
  parent (output_dir ++ [name]) = output_dir.
Proof. unfold parent. apply removelast_last. Qed.

Lemma save_ok lib im (output_dir : Path) name fs :
  output_dir ∈ dirs fs →
  output_dir ++ [name] ∉ dirs fs →
  writes_png lib im = true →
  save lib im (output_dir ++ [name]) fs =
    (Ok (), {| dirs := dirs fs;
               files := <[output_dir ++ [name] := im]> (files fs) |}).
Proof.
  intros Hdir Hfree Hpng. unfold save. rewrite parent_app.
  rewrite (bool_decide_eq_false_2 _ Hfree), (bool_decide_eq_true_2 _ Hdir).
  cbn [orb negb]. by rewrite Hpng.
Qed.

Lemma save_missing_dir lib im (output_dir : Path) name fs :
  output_dir ∉ dirs fs →
  save lib im (output_dir ++ [name]) fs = (Raise OSError, fs).
Proof.
  intros H. unfold save. rewrite parent_app.
  rewrite (bool_decide_eq_false_2 _ H). cbn [negb]. by rewrite orb_true_r.
Qed.

Lemma save_inv lib im (p : Path) fs fs' :
  save lib im p fs = (Ok (), fs') →
  fs' = {| dirs := dirs fs; files := <[p := im]> (files fs) |} ∧
  parent p ∈ dirs fs ∧ (p ∉ dirs fs) ∧ writes_png lib im = true.
Proof.
  unfold save. intros H.
  destruct (bool_decide (p ∈ dirs fs)) eqn:Hp; [discriminate|].
  destruct (bool_decide (parent p ∈ dirs fs)) eqn:Hpar; [|discriminate].
  cbn [orb negb] in H. destruct (writes_png lib im); [|discriminate].
  injection H as <-. apply bool_decide_eq_false in Hp.
  apply bool_decide_eq_true in Hpar. done.
Qed.

(** ** No detections *)

(** C6: when the registered detector returns the empty list, [square]
    returns [None], [mask] and [highlight] return the source path, and
    none of them touches the file system. *)
Theorem no_detections lib detect (type : string) (f : Detector)
    (img_path output_dir : Path) (target_size : Z)
    (square_padding mask_padding highlight_padding blur_radius : num)
    (color : string) (width : Z) (with_mask : bool) (fs : FS) :
  detector detect !! type = Some f →
  f img_path = [] →
  square lib detect type img_path output_dir target_size square_padding fs
    = (Ok None, fs) ∧
  mask lib detect type img_path output_dir mask_padding color width fs
    = (Ok img_path, fs) ∧
  highlight lib detect type img_path output_dir highlight_padding blur_radius
    with_mask color width fs = (Ok img_path, fs).
Proof.
  intros Hd He. unfold square, mask, highlight. rewrite Hd, He. done.
Qed.

Lemma no_detections_witness :
  square Sample.lib (Sample.detects []) "head" Sample.img_path ["out"] 512
    (PFloat float_0_3) (Sample.fs 100 100) = (Ok None, Sample.fs 100 100) ∧
  mask Sample.lib (Sample.detects []) "head" Sample.img_path ["out"]
    (PFloat float_0_2) "red" 8 (Sample.fs 100 100)
    = (Ok Sample.img_path, Sample.fs 100 100) ∧
  highlight Sample.lib (Sample.detects []) "head" Sample.img_path ["out"]
    (PFloat float_0_3) (PInt 15) false "red" 8 (Sample.fs 100 100)
    = (Ok Sample.img_path, Sample.fs 100 100).
Proof.
  apply (no_detections Sample.lib (Sample.detects []) "head"
           (Sample.detects [] HEAD));
    reflexivity.
Defined.

(** ** Output names never collide with the source *)

Lemma append_cons (c : ascii) (s t : string) :
  String c s +:+ t = String c (s +:+ t).
Proof. reflexivity. Qed.

Lemma append_empty_r (s : string) : s = s +:+ EmptyString.
Proof. induction s; [done|]. rewrite append_cons. congruence. Qed.

Lemma rfind_dot_split (name : string) (i : nat) :
  rfind_dot name = Some i →
  ∃ rest, name = substring 0 i name +:+ String "." rest.
Proof.
  revert i. induction name as [|c r IH]; intros i; simpl; [discriminate|].
  destruct (rfind_dot r) as [j|] eqn:Hr.
  - intros [= <-]. destruct (IH j eq_refl) as [rest Hrest].
    exists rest. simpl. rewrite append_cons. by rewrite <- Hrest.
  - destruct (Ascii.eqb c ".") eqn:Hc; [|discriminate].
    intros [= <-]. apply Ascii.eqb_eq in Hc as ->. by exists r.
Qed.

Lemma stem_of_name_split (name : string) :
  ∃ suffix, name = stem_of_name name +:+ suffix ∧
            (suffix = EmptyString ∨ ∃ rest, suffix = String "." rest).
Proof.
  unfold stem_of_name. destruct (rfind_dot name) as [i|] eqn:Hi.
  - destruct ((0 <? i)%nat && (i <? String.length name - 1)%nat).
    + destruct (rfind_dot_split name i Hi) as [rest Hrest]. eauto.
    + exists EmptyString. split; [apply append_empty_r | by left].
  - exists EmptyString. split; [apply append_empty_r | by left].
Qed.

Lemma stem_extended_ne (name tail : string) :
  name ≠ stem_of_name name +:+ String "_" tail.
Proof.
  destruct (stem_of_name_split name) as (suffix & Hname & Hsuffix).
  intros Heq. rewrite Hname in Heq at 1. apply (inj (String.append _)) in Heq.
  destruct Hsuffix as [-> | [rest ->]]; discriminate.
Qed.

Lemma output_name_fresh (img_path output_dir : Path) (tail : string) :
  output_dir ++ [stem img_path +:+ String "_" tail] ≠ img_path.
Proof.
  intros Heq. assert (Hlast : last img_path =
    Some (stem img_path +:+ String "_" tail)).
  { rewrite <- Heq at 1. apply last_snoc. }
  unfold stem in Hlast. destruct (last img_path) as [name|]; [|discriminate].
  injection Hlast as Hlast. by apply stem_extended_ne in Hlast.
Qed.

Lemma square_path_fresh type (img_path output_dir : Path) (i : nat) :
  square_path type img_path output_dir i ≠ img_path.
Proof. apply output_name_fresh. Qed.

(** ** The loop of [square] *)

Section SquareLoop.

Variable lib : Imaging.
Variables (type : string) (img_path output_dir : Path).
Variables (target_size : Z) (padding_ratio : num).

Let loop := square_loop lib type img_path output_dir target_size padding_ratio.

Definition expected_paths (i : nat) (results : list DetectionResult)
    : list Path :=
  imap (λ k _, square_path type img_path output_dir (i + k)) results.

Lemma expected_paths_cons (i : nat) result rest :
  expected_paths i (result :: rest)
  = square_path type img_path output_dir i :: expected_paths (S i) rest.
Proof.
  unfold expected_paths. simpl. rewrite Nat.add_0_r. f_equal.
  apply imap_ext. intros k ? _. simpl. f_equal. lia.
Qed.

(** Whatever the loop returns extends the accumulator by one path per
    detection, in order. *)
Lemma square_loop_paths results : ∀ i acc fs paths fs',
  loop i results acc fs = (Ok paths, fs') →
  paths = acc ++ expected_paths i results.
Proof.
  induction results as [|result rest IH]; intros i acc fs paths fs' Hrun.
  - inversion Hrun. unfold expected_paths. simpl. by rewrite app_nil_r.
  - simpl in Hrun.
    apply bind_inv in Hrun as (img & fs1 & _ & Hrun).
    destruct (size img) as [img_width img_height].
    apply bind_inv in Hrun as (new_crop & fs2 & _ & Hrun).
    apply bind_inv in Hrun as (square_img & fs3 & _ & Hrun).
    apply bind_inv in Hrun as (final_img & fs4 & _ & Hrun).
    apply bind_inv in Hrun as ([] & fs5 & _ & Hrun).
    apply IH in Hrun as ->. rewrite <- app_assoc. f_equal.
    by rewrite expected_paths_cons.
Qed.

(** One turn of the loop that the library and the file system accept. *)
Lemma square_loop_step im (result : DetectionResult)
    (rest : list DetectionResult) i acc fs x0 y0 x1 y1 :
  files fs !! img_path = Some im →
  output_dir ∈ dirs fs →
  square_path type img_path output_dir i ∉ dirs fs →
  0 < target_size →
  square_crop (size im).1 (size im).2 result.1.1 padding_ratio
    = Ok (x0, y0, x1, y1) →
  x0 ≤ x1 → y0 ≤ y1 →
  resamples lib (Crop im (x0, y0, x1, y1)) (target_size, target_size) = true →
  writes_png lib (ResizeLanczos (Crop im (x0, y0, x1, y1))
                    (target_size, target_size)) = true →
  loop i (result :: rest) acc fs
  = loop (S i) rest (acc ++ [square_path type img_path output_dir i])
      {| dirs := dirs fs;
         files := <[square_path type img_path output_dir i :=
                    ResizeLanczos (Crop im (x0, y0, x1, y1))
                      (target_size, target_size)]> (files fs) |}.
Proof.
  intros Him Hdir Hfree Htarget Hcrop Hx Hy Hres Hpng.
  unfold loop. cbn [square_loop].
  erewrite bind_ok; [|unfold image_open; by rewrite Him].
  destruct (size im) as [img_width img_height] eqn:Hsize. cbn [fst snd] in *.
  erewrite bind_ok; [|unfold lift; by rewrite Hcrop].
  erewrite bind_ok.
  2:{ unfold lift, crop.
      rewrite (proj2 (Z.ltb_ge x1 x0)), (proj2 (Z.ltb_ge y1 y0)) by lia.
      reflexivity. }
  erewrite bind_ok.
  2:{ unfold lift, resize. cbn [fst snd orb].
      rewrite (proj2 (Z.ltb_ge target_size 1)) by lia. cbn [orb].
      by rewrite Hres. }
  erewrite bind_ok; [|by apply save_ok]. done.
Qed.

(** The loop runs to its end when the source opens, the directory is
    there, no directory sits at an output path, and every region is
    accepted. *)
Lemma square_loop_ok im results : ∀ i acc fs,
  files fs !! img_path = Some im →
  output_dir ∈ dirs fs →
  Forall (λ p, p ∉ dirs fs) (expected_paths i results) →
  0 < target_size →
  Forall (λ r, croppable lib im target_size padding_ratio r = true) results →
  ∃ fs', loop i results acc fs = (Ok (acc ++ expected_paths i results), fs') ∧
         files fs' !! img_path = Some im ∧ dirs fs' = dirs fs.
Proof.
  induction results as [|result rest IH];
    intros i acc fs Him Hdir Hfree Htarget Hall.
  - exists fs. unfold expected_paths. simpl. by rewrite app_nil_r.
  - apply Forall_cons in Hall as [Hr Hrest].
    rewrite expected_paths_cons in Hfree.
    apply Forall_cons in Hfree as [Hfree Hfrees].
    unfold croppable in Hr.
    destruct (square_crop (size im).1 (size im).2 result.1.1 padding_ratio)
      as [[[[x0 y0] x1] y1]|] eqn:Hcrop; [|discriminate].
    apply andb_true_iff in Hr as [Hr Hpng].
    apply andb_true_iff in Hr as [Hr Hres].
    apply andb_true_iff in Hr as [Hx Hy].
    apply Z.leb_le in Hx. apply Z.leb_le in Hy.
    rewrite (square_loop_step im result rest i acc fs x0 y0 x1 y1) by done.
    rewrite expected_paths_cons.
    replace (acc ++ square_path type img_path output_dir i
                    :: expected_paths (S i) rest)
      with ((acc ++ [square_path type img_path output_dir i])
              ++ expected_paths (S i) rest) by (by rewrite <- app_assoc).
    destruct (IH (S i) (acc ++ [square_path type img_path output_dir i])
                {| dirs := dirs fs;
                   files := <[square_path type img_path output_dir i :=
                     ResizeLanczos (Crop im (x0, y0, x1, y1))
                       (target_size, target_size)]> (files fs) |})
      as (fs' & Hrun & Him' & Hdirs'); cbn [dirs files]; try done.
    { rewrite lookup_insert_ne; [done|]. apply square_path_fresh. }
    by exists fs'.
Qed.

End SquareLoop.

(** ** [square]: one output per detection *)

Lemma expected_paths_length type img_path output_dir i results :
  length (expected_paths type img_path output_dir i results) = length results.
Proof. apply length_imap. Qed.

Lemma expected_paths_lookup type img_path output_dir i results (k : nat) :
  (k < length results)%nat →
  expected_paths type img_path output_dir i results !! k
    = Some (square_path type img_path output_dir (i + k)).
Proof.
  intros Hk. unfold expected_paths. rewrite list_lookup_imap.
  destruct (lookup_lt_is_Some_2 results k Hk) as [r ->]. done.
Qed.

Lemma expected_paths_below type img_path output_dir i results (p : Path) :
  p ∈ expected_paths type img_path output_dir i results →
  ∃ name, p = output_dir ++ [name].
Proof.
  unfold expected_paths. intros Hp.
  apply list_elem_of_lookup in Hp as [k Hk].
  rewrite list_lookup_imap in Hk.
  destruct (results !! k); [|done]. injection Hk as <-. by eexists.
Qed.

(** What [square] returns, when it returns, on a non-empty detection
    list. *)
Lemma square_returns lib detect type f img_path output_dir target_size
    padding_ratio fs r fs' :
  detector detect !! type = Some f →
  f img_path ≠ [] →
  square lib detect type img_path output_dir target_size padding_ratio fs
    = (Ok r, fs') →
  r = Some (expected_paths type img_path output_dir 0 (f img_path)).
Proof.
  intros Hd Hne Hrun. unfold square in Hrun. rewrite Hd in Hrun.
  destruct (f img_path) as [|result rest] eqn:Hres; [done|].
  apply bind_inv in Hrun as ([] & fs1 & _ & Hrun).
  apply bind_inv in Hrun as (paths & fs2 & Hloop & Hrun).
  apply square_loop_paths in Hloop. simpl in Hloop. subst paths.
  unfold expected_paths in *. simpl in *. by inversion Hrun.
Qed.

(** [square] runs to its end when the source opens, nothing blocks the
    output directory or an output path, and every crop region is
    accepted; the directory is there afterwards. *)
Lemma square_runs lib detect type f img_path output_dir target_size
    padding_ratio fs im :
  detector detect !! type = Some f →
  f img_path ≠ [] →
  files fs !! img_path = Some im →
  no_file_above output_dir fs →
  (∀ name, output_dir ++ [name] ∉ dirs fs) →
  0 < target_size →
  Forall (λ r, croppable lib im target_size padding_ratio r = true)
    (f img_path) →
  ∃ fs',
    square lib detect type img_path output_dir target_size padding_ratio fs
      = (Ok (Some (expected_paths type img_path output_dir 0 (f img_path))),
         fs') ∧
    output_dir ∈ dirs fs'.
Proof.
  intros Hd Hne Him Hno Hfree Htarget Hall. unfold square. rewrite Hd.
  destruct (f img_path) as [|result rest] eqn:Hres; [done|].
  destruct (ensure_dir_ok output_dir fs Hno)
    as (fs1 & Hens & Hdir & Hfiles & _ & Hfree1).
  erewrite bind_ok; [|exact Hens].
  destruct (square_loop_ok lib type img_path output_dir target_size
              padding_ratio im (result :: rest) 0 [] fs1)
    as (fs2 & Hloop & _ & Hdirs); [by rewrite Hfiles | done | | done | done |].
  { apply Forall_forall. intros p Hp.
    apply expected_paths_below in Hp as [name ->]. apply Hfree1, Hfree. }
  erewrite bind_ok; [|exact Hloop]. cbn [app].
  exists fs2. split; [|by rewrite Hdirs].
  by destruct (expected_paths type img_path output_dir 0 (result :: rest)) eqn:E.
Qed.

(** C10: on a non-empty detection list [square] never returns [None] or
    an empty list: whatever it returns is the list of one path per
    detection, in the order of the detections and numbered by
    position. *)
Theorem square_one_path_per_detection lib detect (type : string)
    (f : Detector) (img_path output_dir : Path) (target_size : Z)
    (padding_ratio : num) (fs : FS) :
  detector detect !! type = Some f →
  f img_path ≠ [] →
  let results := f img_path in
  let paths := expected_paths type img_path output_dir 0 results in
  let run :=
    square lib detect type img_path output_dir target_size padding_ratio fs in
  length paths = length results ∧
  paths ≠ [] ∧
  (∀ i : nat, (i < length results)%nat →
     paths !! i = Some (square_path type img_path output_dir i)) ∧
  (∀ r fs', run = (Ok r, fs') → r = Some paths).
Proof.
  intros Hd Hne results paths run.
  assert (Hlen : length paths = length results)
    by apply expected_paths_length.
  assert (Hpaths : paths ≠ []).
  { intros Hnil. rewrite Hnil in Hlen. subst results.
    by destruct (f img_path). }
  split; [done|]. split; [done|]. split.
  - intros i Hi. by apply expected_paths_lookup.
  - intros r fs' Hrun. by eapply square_returns.
Qed.

Lemma square_one_path_per_detection_witness :
  (square Sample.lib (Sample.detects [(400, 300, 600, 500); (10, 10, 60, 40)])
     "head" Sample.img_path ["out"] 512 (PFloat float_0_3)
     (Sample.fs 1000 800)).1
  = Ok (Some [["out"; "photo_head_0.png"]; ["out"; "photo_head_1.png"]]).
Proof.
  destruct (square Sample.lib
              (Sample.detects [(400, 300, 600, 500); (10, 10, 60, 40)]) "head"
              Sample.img_path ["out"] 512 (PFloat float_0_3)
              (Sample.fs 1000 800)) as [r fs'] eqn:Hrun.
  assert (Hr : ∃ paths, r = Ok paths).
  { change r with (r, fs').1. rewrite <- Hrun. vm_compute. by eexists. }
  destruct Hr as [paths ->].
  pose proof (square_one_path_per_detection Sample.lib
    (Sample.detects [(400, 300, 600, 500); (10, 10, 60, 40)]) "head"
    (Sample.detects [(400, 300, 600, 500); (10, 10, 60, 40)] HEAD)
    Sample.img_path ["out"] 512 (PFloat float_0_3) (Sample.fs 1000 800)
    eq_refl) as H.
  destruct H as (_ & _ & _ & H); [discriminate|].
  by rewrite (H paths fs' Hrun).
Defined.

(** ** [square]: failure and skipped regions *)

(** C4, as the code has it: [square] skips no region.  When it returns,
    it returns [None] exactly when the category has no detector or the
    detector found nothing, and otherwise a list with one path per
    detection, whatever the area of the crop regions. *)
Theorem square_skips_nothing lib detect (type : string)
    (img_path output_dir : Path) (target_size : Z) (padding_ratio : num)
    (fs fs' : FS) (r : option (list Path)) :
  square lib detect type img_path output_dir target_size padding_ratio fs
    = (Ok r, fs') →
  (r = None ↔
     detector detect !! type = None ∨
     ∃ f, detector detect !! type = Some f ∧ f img_path = []) ∧
  (∀ f paths, detector detect !! type = Some f → r = Some paths →
     length paths = length (f img_path)).
Proof.
  intros Hrun. destruct (detector detect !! type) as [f|] eqn:Hd.
  - destruct (f img_path) as [|result rest] eqn:Hres.
    + unfold square in Hrun. rewrite Hd, Hres in Hrun.
      inversion Hrun; subst. split.
      * split; [|done]. intros _. right. by exists f.
      * intros ? ? _ [=].
    + apply (square_returns lib detect type f) in Hrun as ->;
        [| done | by rewrite Hres]. split.
      * split; [done|]. intros [[=] | (g & [= <-] & Hg)]. congruence.
      * intros g paths [= <-] [= <-]. apply expected_paths_length.
  - unfold square in Hrun. rewrite Hd in Hrun. inversion Hrun; subst. split.
    + split; [|done]. by left.
    + intros ? ? [=].
Qed.

Lemma square_skips_nothing_witness :
  length [["out"; "photo_faces_0.png"]]
  = length (Sample.detects [(10, 10, 11, 11)] FACES Sample.img_path).
Proof.
  destruct (square Sample.lib (Sample.detects [(10, 10, 11, 11)]) "faces"
              Sample.img_path ["out"] 512 (PFloat float_0_3)
              (Sample.fs 100 100))
    as [r fs'] eqn:Hrun.
  assert (Hr : r = Ok (Some [["out"; "photo_faces_0.png"]])).
  { change r with (r, fs').1. rewrite <- Hrun. vm_compute. reflexivity. }
  subst r.
  destruct (square_skips_nothing _ _ _ _ _ _ _ _ _ _ Hrun) as [_ H].
  exact (H (Sample.detects [(10, 10, 11, 11)] FACES) _ eq_refl eq_refl).
Defined.

(** C4 as stated fails: a single detection whose crop region has zero
    area is not skipped; its file is written and its path returned. *)
Lemma degenerate_region_not_skipped :
  let run :=
    square Sample.lib (Sample.detects [(10, 10, 11, 11)]) "faces"
      Sample.img_path ["out"] 512 (PFloat float_0_3) (Sample.fs 100 100) in
  square_crop 100 100 (10, 10, 11, 11) (PFloat float_0_3)
    = Ok (10, 10, 10, 10) ∧
  area (10, 10, 10, 10) = 0 ∧
  run.1 = Ok (Some [["out"; "photo_faces_0.png"]]) ∧
  files run.2 !! ["out"; "photo_faces_0.png"]
    = Some (ResizeLanczos (Crop (Sample.black 100 100) (10, 10, 10, 10))
              (512, 512)).
Proof. repeat split; vm_compute; reflexivity. Qed.

(** ** [square]: the two worked examples *)

(** C1, as the code has it: the corner box expands to 80, and the crop
    region is the 65 by 65 square at the origin. *)
Theorem square_corner_box :
  base_size (0, 0, 50, 50) = 50 ∧
  expanded_size 50 (PFloat float_0_3) = Ok 80 ∧
  (0 + 50) `div` 2 - 80 `div` 2 < 0 ∧
  square_crop 100 100 (0, 0, 50, 50) (PFloat float_0_3) = Ok (0, 0, 65, 65).
Proof. repeat split. Qed.

(** C1 as stated fails: the crop region of the corner box is not the
    80 by 80 square at the origin, although 80 fits the image. *)
Lemma square_corner_box_not_80 :
  80 ≤ Z.min 100 100 ∧
  square_crop 100 100 (0, 0, 50, 50) (PFloat float_0_3)
    ≠ Ok (0, 0, 0 + 80, 0 + 80).
Proof. split; [done|]. vm_compute. discriminate. Qed.

(** C3, as the code has it: one detection (400,300,600,500) in a
    1000 by 800 image gives exactly one file, named by stem, category and
    index 0, of 512 by 512 pixels, resampled from the 320 by 320 region
    centred at (500,400); no directory sits at the output path, and the
    library resamples the crop and writes the result. *)
Theorem square_scenario lib detect (t : GenSquareType)
    (img_path output_dir : Path) (im : picture) (label : string)
    (score : spec_float) (fs : FS) :
  detect t img_path = [((400, 300, 600, 500), label, score)] →
  files fs !! img_path = Some im →
  size im = (1000, 800) →
  no_file_above output_dir fs →
  let region := (340, 240, 660, 560) in
  let saved := ResizeLanczos (Crop im region) (512, 512) in
  let out := output_dir ++ [stem img_path +:+ "_" +:+ value t +:+ "_0.png"] in
  out ∉ dirs fs →
  resamples lib (Crop im region) (512, 512) = true →
  writes_png lib saved = true →
  ∃ fs',
    square lib detect (value t) img_path output_dir 512 (PFloat float_0_3) fs
      = (Ok (Some [out]), fs') ∧
    files fs' = <[out := saved]> (files fs) ∧
    size saved = (512, 512) ∧
    size (Crop im region) = (320, 320) ∧
    ((340 + 660) `div` 2, (240 + 560) `div` 2) = (500, 400).
Proof.
  intros Hdet Him Hsize Hno region saved out Hfree Hres Hpng.
  destruct (ensure_dir_ok output_dir fs Hno)
    as (fs1 & Hens & Hdir & Hfiles & _ & Hfree1).
  exists {| dirs := dirs fs1; files := <[out := saved]> (files fs1) |}.
  split; [|by rewrite Hfiles].
  assert (Hcrop : square_crop 1000 800 (400, 300, 600, 500) (PFloat float_0_3)
                  = Ok region) by (vm_compute; reflexivity).
  assert (Hloop :
    square_loop lib (value t) img_path output_dir 512 (PFloat float_0_3) 0
      [((400, 300, 600, 500), label, score)] [] fs1
    = (Ok [out], {| dirs := dirs fs1;
                    files := <[out := saved]> (files fs1) |})).
  { rewrite (square_loop_step lib (value t) img_path output_dir 512
               (PFloat float_0_3) im _ [] 0 [] fs1 340 240 660 560);
      [done | by rewrite Hfiles | done | by apply Hfree1 | done
       | by rewrite Hsize | lia | lia | done | done]. }
  unfold square. rewrite detector_member, Hdet.
  erewrite bind_ok; [|exact Hens].
  erewrite bind_ok; [|exact Hloop].
  reflexivity.
Qed.

Lemma square_scenario_witness :
  (square Sample.lib (Sample.detects [(400, 300, 600, 500)]) "faces"
     Sample.img_path ["out"] 512 (PFloat float_0_3) (Sample.fs 1000 800)).1
  = Ok (Some [["out"; "photo_faces_0.png"]]).
Proof.
  destruct (square_scenario Sample.lib (Sample.detects [(400, 300, 600, 500)])
    FACES Sample.img_path ["out"] (Sample.black 1000 800) "face"
    (S754_finite false 8106479329266893 (-53)) (Sample.fs 1000 800))
    as (fs' & Hrun & _).
  - reflexivity.
  - reflexivity.
  - reflexivity.
  - repeat constructor.
  - vm_compute. intros H. discriminate.
  - reflexivity.
  - reflexivity.
  - change (value FACES) with "faces"%string in Hrun. by rewrite Hrun.
Defined.

(** C3 as stated fails: the region cropped before resizing is not a
    260 by 260 square. *)
Lemma square_scenario_not_260 :
  ¬ ∃ x0 y0, square_crop 1000 800 (400, 300, 600, 500) (PFloat float_0_3)
               = Ok (x0, y0, x0 + 260, y0 + 260).
Proof.
  intros (x0 & y0 & H).
  assert (Hcrop : square_crop 1000 800 (400, 300, 600, 500) (PFloat float_0_3)
                  = Ok (340, 240, 660, 560)) by (vm_compute; reflexivity).
  rewrite Hcrop in H. injection H. lia.
Qed.

(** ** [highlight]: the mask is the union of the padded boxes *)

Lemma res_bind_inv {A B} (r : res A) (k : A → res B) b :
  r ≫= k = Ok b → ∃ a, r = Ok a ∧ k a = Ok b.
Proof. destruct r as [a|e]; [eauto | discriminate]. Qed.

Lemma res_bind_Ok {A B} (a : A) (k : A → res B) : Ok a ≫= k = k a.
Proof. reflexivity. Qed.

Lemma rectangle_fill_inv lib im xy v width im' :
  rectangle lib im xy (Some v) None width = Ok im' →
  im' = Rectangle im xy (Some v) None width.
Proof.
  unfold rectangle. destruct xy as [[[x0 y0] x1] y1]. rewrite res_bind_Ok.
  destruct (_ && _); [discriminate|]. by intros [= <-].
Qed.

Lemma rectangle_outline_inv lib im xy color width im' :
  rectangle lib im xy None (Some color) width = Ok im' →
  ∃ px, inks lib im color = Some px ∧
        im' = Rectangle im xy None (Some px) width.
Proof.
  unfold rectangle. destruct xy as [[[x0 y0] x1] y1].
  destruct (inks lib im color) as [px|]; [|discriminate].
  rewrite res_bind_Ok. destruct (_ && _); [discriminate|].
  intros [= <-]. by exists px.
Qed.

Lemma rectangle_fill_ok lib im x0 y0 x1 y1 v width :
  Py.ltb x1 x0 || Py.ltb y1 y0 = false →
  rectangle lib im (x0, y0, x1, y1) (Some v) None width
  = Ok (Rectangle im (x0, y0, x1, y1) (Some v) None width).
Proof. intros H. unfold rectangle. by rewrite res_bind_Ok, H, andb_false_r. Qed.

Lemma rectangle_outline_ok lib im x0 y0 x1 y1 color px width :
  Py.ltb x1 x0 || Py.ltb y1 y0 = false →
  inks lib im color = Some px →
  rectangle lib im (x0, y0, x1, y1) None (Some color) width
  = Ok (Rectangle im (x0, y0, x1, y1) None (Some px) width).
Proof.
  intros H Hink. unfold rectangle. by rewrite Hink, res_bind_Ok, H, andb_false_r.
Qed.

Lemma highlight_loop_inv lib img_width img_height padding_ratio results :
  ∀ mask acc mask' boxes',
  highlight_loop lib img_width img_height padding_ratio results mask acc
    = Ok (mask', boxes') →
  ∃ boxes,
    padded_boxes img_width img_height padding_ratio results boxes ∧
    boxes' = acc ++ boxes ∧
    size mask' = size mask ∧
    ∀ x y, pixel_at lib mask' x y =
      if existsb (λ nb, fills lib nb x y) boxes then L 255
      else pixel_at lib mask x y.
Proof.
  induction results as [|result rest IH]; intros mask acc mask' boxes' Hrun.
  - inversion Hrun; subst. exists []. repeat split.
    + constructor.
    + by rewrite app_nil_r.
  - cbn [highlight_loop] in Hrun.
    apply res_bind_inv in Hrun as (nb & Hnb & Hrun).
    apply res_bind_inv in Hrun as (mask1 & Hrect & Hrun).
    apply rectangle_fill_inv in Hrect as ->.
    apply IH in Hrun as (boxes & Hboxes & -> & Hsize & Hpix).
    exists (nb :: boxes). repeat split.
    + by constructor.
    + by rewrite <- app_assoc.
    + done.
    + intros x y. rewrite Hpix. cbn [existsb pixel_at].
      destruct (fills lib nb x y), (existsb _ boxes); done.
Qed.

(** Outlines keep the size and the mode of the picture; a pixel they
    cover holds an ink of the colour, any other pixel is as it was. *)
Lemma outline_loop_inv lib mask_color mask_width boxes :
  ∀ highlighted out,
  outline_loop lib mask_color mask_width boxes highlighted = Ok out →
  size out = size highlighted ∧
  mode_of out = mode_of highlighted ∧
  ∀ x y,
    if existsb (λ nb, stroked lib nb mask_width x y) boxes
    then ink_of lib mask_color (pixel_at lib out x y)
    else pixel_at lib out x y = pixel_at lib highlighted x y.
Proof.
  induction boxes as [|nb rest IH]; intros highlighted out Hrun.
  - by inversion Hrun.
  - cbn [outline_loop] in Hrun.
    apply res_bind_inv in Hrun as (h1 & Hrect & Hrun).
    apply rectangle_outline_inv in Hrect as (px & Hpx & ->).
    destruct (IH _ _ Hrun) as (Hsize & Hmode & Hpix).
    split; [done|]. split; [done|]. intros x y. specialize (Hpix x y).
    cbn [existsb]. destruct (existsb _ rest).
    + by rewrite orb_true_r.
    + rewrite orb_false_r, Hpix. cbn [pixel_at].
      destruct (stroked lib nb mask_width x y); [|done]. by exists highlighted.
Qed.

Lemma composite_spotlight lib image blurred mask boxes x y :
  (∀ x y, pixel_at lib mask x y =
     if existsb (λ nb, fills lib nb x y) boxes then L 255 else L 0) →
  pixel_at lib (Composite image blurred mask) x y
    = spotlight lib boxes image blurred x y.
Proof.
  intros Hmask. unfold spotlight. cbn [pixel_at]. rewrite Hmask.
  by destruct (existsb _ boxes).
Qed.

Lemma outline_loop_ok lib mask_color mask_width boxes :
  knows lib mask_color →
  Forall (λ '(x0, y0, x1, y1), Py.ltb x1 x0 || Py.ltb y1 y0 = false) boxes →
  ∀ highlighted,
    ∃ out, outline_loop lib mask_color mask_width boxes highlighted = Ok out.
Proof.
  intros Hknows. induction boxes as [|[[[x0 y0] x1] y1] rest IH];
    intros Hall highlighted.
  - by eexists.
  - apply Forall_cons in Hall as [Hr Hrest]. cbn [outline_loop].
    destruct (Hknows highlighted) as [px Hpx].
    rewrite (rectangle_outline_ok lib highlighted x0 y0 x1 y1 mask_color px)
      by done.
    rewrite res_bind_Ok. by apply IH.
Qed.

Lemma highlight_loop_ok lib img_width img_height padding_ratio results :
  ∀ mask acc,
  Forall (λ r, drawable img_width img_height padding_ratio r = true) results →
  ∃ mask' boxes,
    highlight_loop lib img_width img_height padding_ratio results mask acc
      = Ok (mask', acc ++ boxes) ∧
    Forall (λ '(x0, y0, x1, y1), Py.ltb x1 x0 || Py.ltb y1 y0 = false) boxes.
Proof.
  induction results as [|result rest IH]; intros mask acc Hall.
  - exists mask, []. rewrite app_nil_r. by split.
  - apply Forall_cons in Hall as [Hr Hrest]. unfold drawable in Hr.
    destruct (padded_box img_width img_height result.1.1 padding_ratio)
      as [[[[x0 y0] x1] y1]|] eqn:Hnb; [|discriminate].
    apply negb_true_iff in Hr.
    destruct (IH (Rectangle mask (x0, y0, x1, y1) (Some 255) None 1)
                (acc ++ [(x0, y0, x1, y1)]) Hrest)
      as (mask' & boxes & Hrun & Hout).
    exists mask', ((x0, y0, x1, y1) :: boxes). split.
    + cbn [highlight_loop]. rewrite Hnb, res_bind_Ok.
      rewrite rectangle_fill_ok by done. rewrite res_bind_Ok.
      etrans; [exact Hrun|]. by rewrite <- app_assoc.
    + by constructor.
Qed.

(** [highlight] runs to its end when the source opens, the library
    converts and blurs it, every padded box is accepted, the colour of
    the outlines is known, and nothing blocks the output directory or the
    output path; the directory is there afterwards. *)
Lemma highlight_runs lib detect type f img_path output_dir padding_ratio
    blur_radius with_mask mask_color mask_width fs opened :
  detector detect !! type = Some f →
  f img_path ≠ [] →
  files fs !! img_path = Some opened →
  no_file_above output_dir fs →
  (∀ name, output_dir ++ [name] ∉ dirs fs) →
  converts lib opened = true →
  blurs lib (ConvertRGB opened) blur_radius = true →
  Forall (λ r, drawable (size opened).1 (size opened).2 padding_ratio r = true)
    (f img_path) →
  knows lib mask_color →
  writes_rgb lib →
  ∃ fs',
    highlight lib detect type img_path output_dir padding_ratio blur_radius
      with_mask mask_color mask_width fs
      = (Ok (highlight_path type img_path output_dir), fs') ∧
    output_dir ∈ dirs fs'.
Proof.
  intros Hd Hne Him Hno Hfree Hconv Hblur Hall Hknows Hrgb.
  unfold highlight. rewrite Hd.
  destruct (f img_path) as [|result rest] eqn:Hres; [done|].
  erewrite bind_ok; [|unfold image_open; by rewrite Him].
  erewrite bind_ok; [|unfold lift, convert_rgb; by rewrite Hconv].
  erewrite bind_ok; [|unfold lift, gaussian_blur; by rewrite Hblur].
  cbn [size]. destruct (size opened) as [img_width img_height] eqn:Hsize.
  destruct (highlight_loop_ok lib img_width img_height padding_ratio
              (result :: rest) (NewL (img_width, img_height) 0) [] Hall)
    as (mask & boxes & Hloop & Hboxes).
  erewrite bind_ok; [|unfold lift; by rewrite Hloop]. cbn [app].
  destruct (ensure_dir_ok output_dir fs Hno)
    as (fs1 & Hens & Hdir & _ & _ & Hfree1).
  set (composite := Composite (ConvertRGB opened)
                      (GaussianBlur blur_radius (ConvertRGB opened)) mask).
  destruct (with_mask && negb (bool_decide (boxes = []))).
  + destruct (outline_loop_ok lib mask_color mask_width boxes Hknows Hboxes
                composite) as [out Hover].
    erewrite bind_ok; [|unfold lift; by rewrite Hover].
    erewrite bind_ok; [|exact Hens].
    apply outline_loop_inv in Hover as (_ & Hmode & _).
    erewrite bind_ok; [|apply save_ok; [done | by apply Hfree1 |]].
    * by eexists.
    * apply Hrgb. by rewrite Hmode.
  + erewrite bind_ok; [|reflexivity].
    erewrite bind_ok; [|exact Hens].
    erewrite bind_ok; [|apply save_ok; [done | by apply Hfree1 | by apply Hrgb]].
    by eexists.
Qed.

(** C9, as the code has it: the composite of line 181 shows, at every
    pixel, the sharp source where some padded box covers the pixel and
    the blurred source elsewhere, a choice between the two with no
    blending; for two detections the sharp part is the union of the two
    boxes.  That composite is what [highlight] saves when [with_mask] is
    off.  With [with_mask] on, the outlines are stroked over it: a pixel
    an outline covers holds the ink of the outline colour, inside a box
    or not, and every other pixel is as in the composite. *)
Theorem highlight_selects lib detect (type : string) (f : Detector)
    (img_path output_dir : Path) (padding_ratio blur_radius : num)
    (with_mask : bool) (mask_color : string) (mask_width : Z) (fs : FS) :
  detector detect !! type = Some f →
  f img_path ≠ [] →
  let run := highlight lib detect type img_path output_dir padding_ratio
               blur_radius with_mask mask_color mask_width fs in
  (∀ path fs', run = (Ok path, fs') →
     ∃ opened boxes saved,
       files fs !! img_path = Some opened ∧
       padded_boxes (size opened).1 (size opened).2 padding_ratio
         (f img_path) boxes ∧
       path = highlight_path type img_path output_dir ∧
       files fs' !! path = Some saved ∧
       ∀ x y,
         if with_mask && existsb (λ nb, stroked lib nb mask_width x y) boxes
         then ink_of lib mask_color (pixel_at lib saved x y)
         else pixel_at lib saved x y =
              spotlight lib boxes (ConvertRGB opened)
                (GaussianBlur blur_radius (ConvertRGB opened)) x y) ∧
  (∀ b1 b2 sharp blurred x y,
     spotlight lib [b1; b2] sharp blurred x y =
       if fills lib b1 x y || fills lib b2 x y
       then pixel_at lib sharp x y else pixel_at lib blurred x y).
Proof.
  intros Hd Hne run. split.
  - intros path fs' Hrun. subst run. unfold highlight in Hrun.
    rewrite Hd in Hrun.
    destruct (f img_path) as [|result rest] eqn:Hres; [done|].
    apply bind_inv in Hrun as (opened & fs1 & Hopen & Hrun).
    unfold image_open in Hopen.
    destruct (files fs !! img_path) as [im|] eqn:Him; [|discriminate].
    injection Hopen as -> <-.
    apply bind_inv in Hrun as (image & fs1 & Hconv & Hrun).
    apply lift_inv in Hconv as [Hconv ->]. unfold convert_rgb in Hconv.
    destruct (converts lib opened); [|discriminate]. injection Hconv as <-.
    apply bind_inv in Hrun as (blurred & fs1 & Hblur & Hrun).
    apply lift_inv in Hblur as [Hblur ->]. unfold gaussian_blur in Hblur.
    destruct (blurs lib (ConvertRGB opened) blur_radius); [|discriminate].
    injection Hblur as <-.
    cbn [size] in Hrun. destruct (size opened) as [img_width img_height] eqn:Hsize.
    apply bind_inv in Hrun as ([mask boxes] & fs1 & Hloop & Hrun).
    apply lift_inv in Hloop as [Hloop ->].
    apply highlight_loop_inv in Hloop as (nbs & Hnbs & -> & _ & Hmask).
    cbn [app] in Hrun.
    apply bind_inv in Hrun as (highlighted & fs1 & Hover & Hrun).
    apply bind_inv in Hrun as ([] & fs2 & Hens & Hrun).
    apply bind_inv in Hrun as ([] & fs3 & Hsave & Hrun).
    injection Hrun as <- <-.
    exists opened, nbs, highlighted. split; [done|]. split; [by rewrite Hsize|].
    split; [done|]. split.
    + apply save_inv in Hsave as (-> & _). cbn [files]. apply lookup_insert_eq.
    + intros x y.
      assert (Hcomp :
        pixel_at lib (Composite (ConvertRGB opened)
          (GaussianBlur blur_radius (ConvertRGB opened)) mask) x y
        = spotlight lib nbs (ConvertRGB opened)
            (GaussianBlur blur_radius (ConvertRGB opened)) x y).
      { apply composite_spotlight. intros x' y'. by rewrite Hmask. }
      destruct (with_mask && negb (bool_decide (nbs = []))) eqn:Hwm.
      * apply lift_inv in Hover as [Hover ->].
        apply andb_true_iff in Hwm as [-> _]. cbn [andb].
        destruct (outline_loop_inv _ _ _ _ _ _ Hover) as (_ & _ & Hpix).
        specialize (Hpix x y). destruct (existsb _ nbs); [done|].
        by rewrite Hpix.
      * injection Hover as <- <-.
        destruct with_mask; cbn [andb] in *; [|exact Hcomp].
        apply negb_false_iff, bool_decide_eq_true in Hwm. subst nbs.
        cbn [existsb]. exact Hcomp.
  - intros b1 b2 sharp blurred x y. unfold spotlight. cbn [existsb].
    by rewrite orb_false_r.
Qed.

Lemma highlight_selects_witness :
  is_Some (files (highlight Sample.lib
                    (Sample.detects [(100, 100, 300, 300); (200, 200, 400, 400)])
                    "faces" Sample.img_path ["out"] (PFloat float_0_3)
                    (PInt 15) false "red" 8 (Sample.fs 1000 800)).2
             !! ["out"; "photo_faces_highlighted.png"]).
Proof.
  destruct (highlight Sample.lib
              (Sample.detects [(100, 100, 300, 300); (200, 200, 400, 400)])
              "faces" Sample.img_path ["out"] (PFloat float_0_3) (PInt 15)
              false "red" 8 (Sample.fs 1000 800)) as [r fs'] eqn:Hrun.
  assert (Hr : r = Ok ["out"; "photo_faces_highlighted.png"]).
  { change r with (r, fs').1. rewrite <- Hrun. vm_compute. reflexivity. }
  subst r.
  pose proof (highlight_selects Sample.lib
    (Sample.detects [(100, 100, 300, 300); (200, 200, 400, 400)]) "faces"
    (Sample.detects [(100, 100, 300, 300); (200, 200, 400, 400)] FACES)
    Sample.img_path ["out"] (PFloat float_0_3) (PInt 15) false "red" 8
    (Sample.fs 1000 800) eq_refl) as H.
  destruct H as [H _]; [discriminate|].
  destruct (H _ _ Hrun) as (opened & boxes & saved & _ & _ & _ & Hfile & _).
  cbn [snd]. by exists saved.
Defined.

(** C9 as stated fails: with [with_mask] on, the corner pixel of the
    padded box of a detection lies inside that box, and the saved
    picture shows there the red of the outline, not the black of the
    source. *)
Lemma highlight_outline_not_sharp :
  let run :=
    highlight Sample.lib (Sample.detects [(400, 300, 600, 500)]) "faces"
      Sample.img_path ["out"] (PFloat float_0_3) (PInt 15) true "red" 8
      (Sample.fs 1000 800) in
  ∃ nb saved,
    padded_box 1000 800 (400, 300, 600, 500) (PFloat float_0_3) = Ok nb ∧
    run.1 = Ok ["out"; "photo_faces_highlighted.png"] ∧
    files run.2 !! ["out"; "photo_faces_highlighted.png"] = Some saved ∧
    fills Sample.lib nb 340 240 = true ∧
    pixel_at Sample.lib (ConvertRGB (Sample.black 1000 800)) 340 240
      = RGB 0 0 0 ∧
    pixel_at Sample.lib saved 340 240 = RGB 255 0 0.
Proof.
  eexists _, _. split; [vm_compute; reflexivity|].
  split; [vm_compute; reflexivity|]. split; [vm_compute; reflexivity|].
  split; [vm_compute; reflexivity|]. split; vm_compute; reflexivity.
Qed.

(** ** The output directory *)

Lemma mask_loop_ok lib img_width img_height padding_ratio color width results :
  knows lib color →
  ∀ image,
  Forall (λ r, drawable img_width img_height padding_ratio r = true) results →
  ∃ marked, mask_loop lib img_width img_height padding_ratio color width
              results image = Ok marked.
Proof.
  intros Hknows. induction results as [|result rest IH]; intros image Hall.
  - by eexists.
  - apply Forall_cons in Hall as [Hr Hrest]. unfold drawable in Hr.
    destruct (padded_box img_width img_height result.1.1 padding_ratio)
      as [[[[x0 y0] x1] y1]|] eqn:Hnb; [|discriminate].
    apply negb_true_iff in Hr. cbn [mask_loop]. rewrite Hnb, res_bind_Ok.
    destruct (Hknows image) as [px Hpx].
    rewrite (rectangle_outline_ok lib image x0 y0 x1 y1 color px) by done.
    rewrite res_bind_Ok. apply IH, Hrest.
Qed.

(** C7 on the code: with the output directory missing, [square] and
    [highlight] create it and write their files, and [mask], which has
    everything else it needs, fails at the write.  The library takes
    every call: it knows the colour, converts and blurs the source, and
    resamples and writes the pictures. *)
Theorem mask_needs_directory lib detect (type : string) (f : Detector)
    (img_path output_dir : Path) (target_size : Z)
    (square_padding mask_padding highlight_padding blur_radius : num)
    (with_mask : bool) (color : string) (width : Z) (fs : FS)
    (opened : picture) :
  detector detect !! type = Some f →
  f img_path ≠ [] →
  files fs !! img_path = Some opened →
  no_file_above output_dir fs →
  output_dir ∉ dirs fs →
  (∀ name, output_dir ++ [name] ∉ dirs fs) →
  0 < target_size →
  Forall (λ r, croppable lib opened target_size square_padding r = true)
    (f img_path) →
  Forall (λ r, drawable (size opened).1 (size opened).2 mask_padding r
               = true) (f img_path) →
  Forall (λ r, drawable (size opened).1 (size opened).2 highlight_padding r
               = true) (f img_path) →
  knows lib color →
  converts lib opened = true →
  blurs lib (ConvertRGB opened) blur_radius = true →
  writes_rgb lib →
  (∃ paths fs', square lib detect type img_path output_dir target_size
                  square_padding fs = (Ok (Some paths), fs') ∧
                output_dir ∈ dirs fs') ∧
  (∃ path fs', highlight lib detect type img_path output_dir
                 highlight_padding blur_radius with_mask color width fs
                 = (Ok path, fs') ∧
               output_dir ∈ dirs fs') ∧
  mask lib detect type img_path output_dir mask_padding color width fs
    = (Raise OSError, fs).
Proof.
  intros Hd Hne Him Hno Hmissing Hfree Htarget Hsq Hmk Hhl Hknows Hconv Hblur
    Hrgb.
  split; [|split].
  - destruct (square_runs lib detect type f img_path output_dir target_size
                square_padding fs opened) as (fs' & Hrun & Hdir); eauto.
  - destruct (highlight_runs lib detect type f img_path output_dir
                highlight_padding blur_radius with_mask color width fs opened)
      as (fs' & Hrun & Hdir); eauto.
  - unfold mask. rewrite Hd.
    destruct (f img_path) as [|result rest] eqn:Hres; [done|].
    erewrite bind_ok; [|unfold image_open; by rewrite Him].
    destruct (size opened) as [img_width img_height] eqn:Hsize.
    destruct (mask_loop_ok lib img_width img_height mask_padding color width
                (result :: rest) Hknows opened Hmk) as [marked Hloop].
    erewrite bind_ok; [|unfold lift; by rewrite Hloop].
    erewrite bind_raise; [done|]. by apply save_missing_dir.
Qed.

Lemma mask_needs_directory_witness :
  mask Sample.lib (Sample.detects [(400, 300, 600, 500)]) "faces"
    Sample.img_path ["out"] (PFloat float_0_2) "red" 8 (Sample.fs 1000 800)
  = (Raise OSError, Sample.fs 1000 800).
Proof.
  apply (mask_needs_directory Sample.lib
    (Sample.detects [(400, 300, 600, 500)]) "faces"
    (Sample.detects [(400, 300, 600, 500)] FACES) Sample.img_path ["out"]
    512 (PFloat float_0_3) (PFloat float_0_2) (PFloat float_0_3) (PInt 15)
    false "red" 8 (Sample.fs 1000 800) (Sample.black 1000 800)).
  - reflexivity.
  - discriminate.
  - reflexivity.
  - repeat constructor.
  - vm_compute. intros H. discriminate.
  - intros name H. cbn [Sample.fs dirs] in H.
    apply elem_of_singleton in H. discriminate.
  - reflexivity.
  - repeat constructor.
  - repeat constructor.
  - repeat constructor.
  - intros im. by eexists.
  - reflexivity.
  - reflexivity.
  - intros im Hmode. unfold Sample.lib. cbn [writes_png]. by rewrite Hmode.
Defined.

(** ** The crop region of [square] *)

Lemma expanded_size_not_negative (b : Z) (p : num) (e : Z) :
  0 ≤ b → not_negative p → expanded_size b p = Ok e → 0 ≤ e.
Proof.
  intros Hb Hp He. unfold expanded_size in He.
  apply res_bind_inv in He as (t & Ht & He).
  apply res_bind_inv in He as (u & Hu & He).
  apply res_bind_inv in He as (v & Hv & He).
  apply (mul_not_negative p (PInt 2)) in Ht; [|done|done].
  apply (add_not_negative (PInt 1) t) in Hu; [|done|done].
  apply (mul_not_negative (PInt b) u) in Hv; [|done|done].
  by apply (int_not_negative v).
Qed.

Lemma base_size_inside (img_width img_height : Z) (box : BoundingBox) :
  inside img_width img_height box → 0 < base_size box.
Proof. destruct box as [[[x0 y0] x1] y1]. unfold inside, base_size. lia. Qed.

(** With a padding ratio that is not negative the expanded size is at
    least the base size, also after the rounding of the product. *)
Lemma expanded_size_at_least (b : Z) (p : num) (e : Z) :
  0 ≤ b < 2 ^ 53 → not_negative p → expanded_size b p = Ok e → b ≤ e.
Proof.
  intros Hb Hp He. unfold expanded_size in He.
  apply res_bind_inv in He as (t & Ht & He).
  apply res_bind_inv in He as (u & Hu & He).
  apply res_bind_inv in He as (v & Hv & He).
  apply (mul_not_negative p (PInt 2)) in Ht; [|done|done].
  destruct (add_at_least 1 t) as (u' & Hu' & Hone); [lia|done|].
  rewrite Hu in Hu'. injection Hu' as <-.
  apply (int_at_least v b e); [lia| |done].
  destruct u as [k|fu]; cbn [mul as_float] in Hv.
  - injection Hv as <-. right. apply leb_int.
    destruct Hone as [Hnan|Hone]; [done|]. apply leb_int in Hone. nia.
  - destruct (float_of_int_exact b Hb) as (fb & Hfb & Hhold).
    rewrite Hfb, !res_bind_Ok in Hv. injection Hv as <-.
    by apply SFmul_at_least.
Qed.

(** The region computed for a box that overlaps the image, from an
    expanded size that is at least the base size: it lies in the image
    with its corners in order. *)
Lemma square_region_overlaps (img_width img_height : Z) (box : BoundingBox)
    (e : Z) (x0' y0' x1' y1' : Z) :
  overlaps img_width img_height box → base_size box ≤ e →
  square_region img_width img_height box e = (x0', y0', x1', y1') →
  0 ≤ x0' ∧ x0' ≤ x1' ∧ x1' ≤ img_width ∧
  0 ≤ y0' ∧ y0' ≤ y1' ∧ y1' ≤ img_height.
Proof.
  destruct box as [[[x0 y0] x1] y1]. unfold overlaps, base_size, square_region.
  intros Hov He.
  pose proof (Z.div_mod (x0 + x1) 2 ltac:(lia)) as Hcx.
  pose proof (Z.mod_pos_bound (x0 + x1) 2 ltac:(lia)) as Hcx'.
  pose proof (Z.div_mod (y0 + y1) 2 ltac:(lia)) as Hcy.
  pose proof (Z.mod_pos_bound (y0 + y1) 2 ltac:(lia)) as Hcy'.
  pose proof (Z.div_mod e 2 ltac:(lia)) as Hh.
  pose proof (Z.mod_pos_bound e 2 ltac:(lia)) as Hh'.
  set (cx := (x0 + x1) `div` 2) in *. set (cy := (y0 + y1) `div` 2) in *.
  set (h := e `div` 2) in *.
  set (rx := (x0 + x1) `mod` 2) in *. set (ry := (y0 + y1) `mod` 2) in *.
  set (re := e `mod` 2) in *. clearbody cx cy h rx ry re.
  assert (Hc : 0 ≤ h ∧ 0 ≤ cx + h ∧ cx - h ≤ img_width ∧
               0 ≤ cy + h ∧ cy - h ≤ img_height ∧
               0 ≤ img_width ∧ 0 ≤ img_height) by lia.
  clear Hov He Hcx Hcx' Hcy Hcy' Hh Hh'.
  set (ex := Z.min img_width (cx + h) - Z.max 0 (cx - h)) in *.
  set (ey := Z.min img_height (cy + h) - Z.max 0 (cy - h)) in *.
  assert (Hex : 0 ≤ ex ∧ ex ≤ img_width) by (subst ex; lia).
  assert (Hey : 0 ≤ ey ∧ ey ≤ img_height) by (subst ey; lia).
  clearbody ex ey. set (s := Z.min ex ey) in *.
  assert (Hs : 0 ≤ s ∧ s ≤ img_width ∧ s ≤ img_height) by (subst s; lia).
  clearbody s. set (hs := s `div` 2) in *. clearbody hs.
  intros [= <- <- <- <-]. lia.
Qed.

(** The region of a box inside the image is not empty once the expanded
    size reaches two pixels. *)
Lemma square_region_not_empty (img_width img_height : Z) (box : BoundingBox)
    (e : Z) (x0' y0' x1' y1' : Z) :
  inside img_width img_height box → 2 ≤ e →
  square_region img_width img_height box e = (x0', y0', x1', y1') →
  x0' < x1' ∧ y0' < y1'.
Proof.
  destruct box as [[[x0 y0] x1] y1]. unfold inside, square_region.
  intros Hin He.
  pose proof (Z.div_mod (x0 + x1) 2 ltac:(lia)) as Hcx.
  pose proof (Z.mod_pos_bound (x0 + x1) 2 ltac:(lia)) as Hcx'.
  pose proof (Z.div_mod (y0 + y1) 2 ltac:(lia)) as Hcy.
  pose proof (Z.mod_pos_bound (y0 + y1) 2 ltac:(lia)) as Hcy'.
  pose proof (Z.div_mod e 2 ltac:(lia)) as Hh.
  pose proof (Z.mod_pos_bound e 2 ltac:(lia)) as Hh'.
  set (cx := (x0 + x1) `div` 2) in *. set (cy := (y0 + y1) `div` 2) in *.
  set (h := e `div` 2) in *.
  set (rx := (x0 + x1) `mod` 2) in *. set (ry := (y0 + y1) `mod` 2) in *.
  set (re := e `mod` 2) in *. clearbody cx cy h rx ry re.
  assert (Hc : 0 < h ∧ 0 ≤ cx < img_width ∧ 0 ≤ cy < img_height) by lia.
  clear Hin He Hcx Hcx' Hcy Hcy' Hh Hh'.
  set (ex := Z.min img_width (cx + h) - Z.max 0 (cx - h)) in *.
  set (ey := Z.min img_height (cy + h) - Z.max 0 (cy - h)) in *.
  assert (Hex : 0 < ex) by (subst ex; lia).
  assert (Hey : 0 < ey) by (subst ey; lia).
  clearbody ex ey. set (s := Z.min ex ey) in *.
  assert (Hs : 0 < s) by (subst s; lia).
  clearbody s. intros [= <- <- <- <-]. lia.
Qed.

(** The region computed for a box inside the image, from an expanded
    size that is not negative. *)
Lemma square_region_spec (img_width img_height : Z) (box : BoundingBox)
    (e : Z) :
  inside img_width img_height box → 0 ≤ e →
  let '(x0, y0, x1, y1) := box in
  let center_x := (x0 + x1) `div` 2 in
  let center_y := (y0 + y1) `div` 2 in
  let half_size := e `div` 2 in
  let side :=
    Z.min (Z.min img_width (center_x + half_size) - Z.max 0 (center_x - half_size))
          (Z.min img_height (center_y + half_size) - Z.max 0 (center_y - half_size)) in
  ∃ nx ny,
    square_region img_width img_height box e = (nx, ny, nx + side, ny + side) ∧
    0 ≤ side ∧ side ≤ 2 * half_size ∧ side ≤ Z.min img_width img_height ∧
    0 ≤ nx ∧ nx + side ≤ img_width ∧ 0 ≤ ny ∧ ny + side ≤ img_height ∧
    (0 ≤ center_x - half_size → center_x + half_size ≤ img_width →
     0 ≤ center_y - half_size → center_y + half_size ≤ img_height →
     side = 2 * half_size ∧ nx = center_x - half_size ∧
     ny = center_y - half_size).
Proof.
  destruct box as [[[x0 y0] x1] y1]. unfold inside, square_region.
  intros Hin He. eexists _, _. split; [reflexivity|].
  set (cx := (x0 + x1) `div` 2). set (cy := (y0 + y1) `div` 2).
  set (h := e `div` 2).
  assert (Hcx : x0 ≤ cx ≤ x1) by (subst cx; split; [apply Z.div_le_lower_bound | apply Z.div_le_upper_bound]; lia).
  assert (Hcy : y0 ≤ cy ≤ y1) by (subst cy; split; [apply Z.div_le_lower_bound | apply Z.div_le_upper_bound]; lia).
  assert (Hh : 0 ≤ h) by (subst h; apply Z.div_pos; lia).
  clearbody cx cy h.
  set (s := Z.min (Z.min img_width (cx + h) - Z.max 0 (cx - h))
                  (Z.min img_height (cy + h) - Z.max 0 (cy - h))).
  assert (Hs : 0 ≤ s ∧ s ≤ 2 * h) by (subst s; lia).
  assert (Hs2 : 2 * (s `div` 2) ≤ s < 2 * (s `div` 2) + 2).
  { pose proof (Z.div_mod s 2 ltac:(lia)).
    pose proof (Z.mod_pos_bound s 2 ltac:(lia)). lia. }
  assert (Hfit : 0 ≤ cx - h → cx + h ≤ img_width → 0 ≤ cy - h →
                 cy + h ≤ img_height → s = 2 * h ∧ s `div` 2 = h).
  { intros. assert (s = 2 * h) by (subst s; lia). split; [done|].
    rewrite H3, Z.mul_comm. by apply Z.div_mul. }
  assert (Hsw : s ≤ Z.min img_width img_height) by (subst s; lia).
  clearbody s. repeat split; try lia.
  all: intros; destruct Hfit as [Hfs Hfh]; try done; lia.
Qed.

(** C2, as the code has it: for a box inside the image and a padding
    ratio that is not negative, the crop region is a square inside the
    image whose side is the smaller clamped extent of the square of half
    size [expanded_size // 2] around the centre; the side never exceeds
    [clamp(expanded_size, 1, min(width, height))], and it is twice the
    half size, with the region centred, when that square fits. *)
Theorem square_side_length (img_width img_height : Z) (box : BoundingBox)
    (padding_ratio : num) (e : Z) :
  inside img_width img_height box →
  leb (PInt 0) padding_ratio = true →
  expanded_size (base_size box) padding_ratio = Ok e →
  let '(x0, y0, x1, y1) := box in
  let center_x := (x0 + x1) `div` 2 in
  let center_y := (y0 + y1) `div` 2 in
  let half_size := e `div` 2 in
  let side :=
    Z.min (Z.min img_width (center_x + half_size) - Z.max 0 (center_x - half_size))
          (Z.min img_height (center_y + half_size) - Z.max 0 (center_y - half_size)) in
  ∃ nx ny,
    square_crop img_width img_height box padding_ratio
      = Ok (nx, ny, nx + side, ny + side) ∧
    0 ≤ side ∧ side ≤ clamp e 1 (Z.min img_width img_height) ∧
    0 ≤ nx ∧ nx + side ≤ img_width ∧ 0 ≤ ny ∧ ny + side ≤ img_height ∧
    (0 ≤ center_x - half_size → center_x + half_size ≤ img_width →
     0 ≤ center_y - half_size → center_y + half_size ≤ img_height →
     side = 2 * half_size ∧ nx = center_x - half_size ∧
     ny = center_y - half_size).
Proof.
  intros Hin Hp He.
  assert (He0 : 0 ≤ e).
  { apply (expanded_size_not_negative (base_size box) padding_ratio);
      [|by apply leb_zero_not_negative|done].
    pose proof (base_size_inside _ _ _ Hin). lia. }
  pose proof (square_region_spec img_width img_height box e Hin He0) as Hreg.
  unfold square_crop. rewrite He, res_bind_Ok.
  destruct box as [[[x0 y0] x1] y1].
  destruct Hreg as (nx & ny & -> & H0 & H1 & H2 & H3 & H4 & H5 & H6 & H7).
  exists nx, ny. split; [done|]. split; [done|]. split.
  { unfold clamp.
    pose proof (Z.div_mod e 2 ltac:(lia)).
    pose proof (Z.mod_pos_bound e 2 ltac:(lia)). lia. }
  done.
Qed.

Lemma square_side_length_witness :
  ∃ nx ny, square_crop 1000 800 (400, 300, 600, 500) (PFloat float_0_3)
             = Ok (nx, ny, nx + 320, ny + 320).
Proof.
  destruct (square_side_length 1000 800 (400, 300, 600, 500)
              (PFloat float_0_3) 320) as (nx & ny & H & _).
  - unfold inside. lia.
  - reflexivity.
  - vm_compute. reflexivity.
  - exists nx, ny. exact H.
Defined.

(** C2 as stated fails: the corner box lies inside the image and
    expands to 80, which fits the image, yet the side of its crop region
    is 65. *)
Lemma square_side_not_clamp :
  inside 100 100 (0, 0, 50, 50) ∧
  expanded_size (base_size (0, 0, 50, 50)) (PFloat float_0_3) = Ok 80 ∧
  square_crop 100 100 (0, 0, 50, 50) (PFloat float_0_3) = Ok (0, 0, 65, 65) ∧
  65 - 0 ≠ clamp 80 1 (Z.min 100 100).
Proof.
  split; [unfold inside; lia|]. split; [by vm_compute|].
  split; [by vm_compute|]. by vm_compute.
Qed.

(** ** The padded box of [mask] and [highlight] *)

Lemma max_int (x : Z) : 0 ≤ x → max (PInt 0) (PInt x) = PInt x.
Proof.
  intros Hx. unfold max. destruct (ltb (PInt 0) (PInt x)) eqn:E; [done|].
  f_equal. destruct (Z.eq_dec 0 x) as [|Hne]; [done|].
  assert (H : ltb (PInt 0) (PInt x) = true) by (apply ltb_int; lia).
  congruence.
Qed.

Lemma min_int (x w : Z) : x ≤ w → min (PInt w) (PInt x) = PInt x.
Proof.
  intros Hx. unfold min. destruct (ltb (PInt x) (PInt w)) eqn:E; [done|].
  f_equal. destruct (Z.eq_dec w x) as [|Hne]; [done|].
  assert (H : ltb (PInt x) (PInt w) = true) by (apply ltb_int; lia).
  congruence.
Qed.

(** C5, as the code has it: for a box that overlaps the image, with
    corners and sides a double holds exactly, and a padding ratio that is
    not negative, the padded box of [mask] and [highlight] is computed
    and satisfies the invariant, and the crop region of [square], when
    computed, lies in the image with its corners in order; it may be
    empty, but not for a box inside the image whose base size is at
    least two pixels. *)
Theorem padded_box_invariant (img_width img_height : Z) (box : BoundingBox)
    (padding_ratio : num) :
  overlaps img_width img_height box →
  representable box →
  leb (PInt 0) padding_ratio = true →
  (∃ nb, padded_box img_width img_height box padding_ratio = Ok nb ∧
         well_formed img_width img_height nb = true) ∧
  (∀ x0 y0 x1 y1,
     square_crop img_width img_height box padding_ratio
       = Ok (x0, y0, x1, y1) →
     0 ≤ x0 ∧ x0 ≤ x1 ∧ x1 ≤ img_width ∧
     0 ≤ y0 ∧ y0 ≤ y1 ∧ y1 ≤ img_height ∧
     (inside img_width img_height box → 2 ≤ base_size box →
      x0 < x1 ∧ y0 < y1)).
Proof.
  intros Hov Hrep Hp. apply leb_zero_not_negative in Hp. split.
  - destruct box as [[[x0 y0] x1] y1]. unfold overlaps in Hov.
    unfold representable in Hrep. unfold padded_box.
    destruct (mul_int_total (x1 - x0) padding_ratio) as (pad_w & -> & Hpw);
      [lia|done|].
    rewrite res_bind_Ok.
    destruct (mul_int_total (y1 - y0) padding_ratio) as (pad_h & -> & Hph);
      [lia|done|].
    rewrite res_bind_Ok.
    destruct (sub_clamped x0 pad_w) as (l & -> & Hl); [lia|done|].
    rewrite res_bind_Ok.
    destruct (sub_clamped y0 pad_h) as (u & -> & Hu); [lia|done|].
    rewrite res_bind_Ok.
    destruct (add_at_least x1 pad_w) as (r & -> & Hr); [lia|done|].
    rewrite res_bind_Ok.
    destruct (add_at_least y1 pad_h) as (d & -> & Hd); [lia|done|].
    rewrite res_bind_Ok.
    eexists. split; [reflexivity|]. unfold well_formed.
    apply (at_least_le r x1 (Z.min img_width x1)) in Hr; [|lia].
    apply (at_least_le d y1 (Z.min img_height y1)) in Hd; [|lia].
    destruct (axis_well_formed l r (Z.max 0 x0) (Z.min img_width x1) img_width)
      as (-> & -> & ->); [lia..|done|done|].
    destruct (axis_well_formed u d (Z.max 0 y0) (Z.min img_height y1)
                img_height) as (-> & -> & ->); [lia..|done|done|].
    done.
  - intros x0' y0' x1' y1' Hcrop. unfold square_crop in Hcrop.
    apply res_bind_inv in Hcrop as (e & He & Hcrop).
    injection Hcrop as Hcrop.
    assert (Hbase : 0 < base_size box < 2 ^ 53).
    { destruct box as [[[x0 y0] x1] y1].
      unfold overlaps, representable, base_size in *. lia. }
    assert (Hbe : base_size box ≤ e).
    { apply (expanded_size_at_least (base_size box) padding_ratio);
        [lia|done|done]. }
    pose proof (square_region_overlaps img_width img_height box e
                  x0' y0' x1' y1' Hov Hbe Hcrop) as Hreg.
    repeat (split; [apply Hreg|]). intros Hin Htwo.
    apply (square_region_not_empty img_width img_height box e x0' y0' x1' y1');
      [done|lia|done].
Qed.

Lemma padded_box_invariant_witness :
  ∃ nb, padded_box 100 100 (-5, -5, 10, 10) (PFloat float_0_2) = Ok nb ∧
        well_formed 100 100 nb = true.
Proof.
  destruct (padded_box_invariant 100 100 (-5, -5, 10, 10)
              (PFloat float_0_2)) as [H _].
  - unfold overlaps. lia.
  - unfold representable. lia.
  - reflexivity.
  - exact H.
Defined.

(** C5 as stated fails: [square] gives a one pixel box inside the image
    an empty region, and [mask] and [highlight] give a box that misses
    the image a padded box whose corners are out of order. *)
Lemma padded_box_invariant_fails :
  inside 100 100 (10, 10, 11, 11) ∧
  square_crop 100 100 (10, 10, 11, 11) (PFloat float_0_3)
    = Ok (10, 10, 10, 10) ∧
  ∃ nb, padded_box 100 100 (120, 10, 130, 20) (PFloat float_0_2) = Ok nb ∧
        well_formed 100 100 nb = false.
Proof.
  split; [unfold inside; lia|]. split; [by vm_compute|].
  eexists. split; [vm_compute; reflexivity|]. by vm_compute.
Qed.

(** C8, as the code has it: with a padding ratio of zero the padded box
    of a box inside the image has the raw corners: the very integers
    for the integer [0], floats of the same values for a float zero (in
    an image below [2^53] pixels a side). *)
Theorem padded_box_zero_padding (img_width img_height : Z)
    (x0 y0 x1 y1 : Z) :
  0 ≤ x0 → x0 ≤ x1 → x1 ≤ img_width →
  0 ≤ y0 → y0 ≤ y1 → y1 ≤ img_height →
  padded_box img_width img_height (x0, y0, x1, y1) (PInt 0)
    = Ok (PInt x0, PInt y0, PInt x1, PInt y1) ∧
  (img_width < 2 ^ 53 → img_height < 2 ^ 53 →
   ∀ s, ∃ nb,
     padded_box img_width img_height (x0, y0, x1, y1) (PFloat (S754_zero s))
       = Ok nb ∧
     same_box nb (x0, y0, x1, y1) = true).
Proof.
  intros Hx0 Hx Hx1 Hy0 Hy Hy1. split.
  - unfold padded_box. cbn [mul sub add]. rewrite !res_bind_Ok.
    rewrite !Z.mul_0_r, !Z.sub_0_r, !Z.add_0_r.
    by rewrite !max_int, !min_int by lia.
  - intros Hw Hh s. unfold padded_box. cbn [mul sub add as_float].
    destruct (float_of_int_exact (x1 - x0)) as (fw & -> & Hfw); [lia|].
    destruct (float_of_int_exact (y1 - y0)) as (fh & -> & Hfh); [lia|].
    rewrite !res_bind_Ok.
    destruct (SFmul_zero fw _ s Hfw) as [sw ->].
    destruct (SFmul_zero fh _ s Hfh) as [sh ->].
    destruct (float_of_int_exact x0) as (fx0 & -> & Hfx0); [lia|].
    destruct (float_of_int_exact y0) as (fy0 & -> & Hfy0); [lia|].
    destruct (float_of_int_exact x1) as (fx1 & -> & Hfx1); [lia|].
    destruct (float_of_int_exact y1) as (fy1 & -> & Hfy1); [lia|].
    rewrite !res_bind_Ok. eexists. split; [reflexivity|].
    unfold same_box.
    rewrite (max_zero_holds _ x0), (max_zero_holds _ y0),
      (min_width_holds _ x1), (min_width_holds _ y1);
      [done | by apply SFadd_zero | lia | by apply SFadd_zero | lia
       | by apply SFsub_zero | lia | by apply SFsub_zero | lia].
Qed.

Lemma padded_box_zero_padding_witness :
  padded_box 1000 800 (400, 300, 600, 500) (PInt 0)
    = Ok (PInt 400, PInt 300, PInt 600, PInt 500).
Proof.
  apply (padded_box_zero_padding 1000 800 400 300 600 500); lia.
Defined.

(** C8 as stated fails: with a padding ratio of zero a box that reaches
    outside the image is clamped to the image. *)
Lemma padded_box_zero_padding_clamps :
  padded_box 100 100 (-5, -5, 10, 10) (PInt 0)
    = Ok (PInt 0, PInt 0, PInt 10, PInt 10) ∧
  same_box (PInt 0, PInt 0, PInt 10, PInt 10) (-5, -5, 10, 10) = false.
Proof. split; by vm_compute. Qed.

(** * Further properties of [gen.py] *)

(** ** The registry and unsupported categories *)

Lemma detector_unregistered detect (type : string) :
  (∀ t, type ≠ value t) → detector detect !! type = None.
Proof.
  intros Hno. destruct (detector detect !! type) as [f|] eqn:Hd; [|done].
  apply detector_registered in Hd as (t & -> & _). by destruct (Hno t).
Qed.

(** X2: a category without a registered detector makes [square] return
    [None] and [mask] and [highlight] return the source path; the file
    system is not touched and the detector is not consulted. *)
Theorem unsupported_category lib detect (type : string)
    (img_path output_dir : Path) (target_size : Z)
    (square_padding mask_padding highlight_padding blur_radius : num)
    (color : string) (width : Z) (with_mask : bool) (fs : FS) :
  (∀ t, type ≠ value t) →
  square lib detect type img_path output_dir target_size square_padding fs
    = (Ok None, fs) ∧
  mask lib detect type img_path output_dir mask_padding color width fs
    = (Ok img_path, fs) ∧
  highlight lib detect type img_path output_dir highlight_padding blur_radius
    with_mask color width fs = (Ok img_path, fs).
Proof.
  intros Hno. apply (detector_unregistered detect) in Hno as Hd.
  unfold square, mask, highlight. by rewrite Hd.
Qed.

Lemma unsupported_category_witness :
  square Sample.lib (Sample.detects [(400, 300, 600, 500)]) "tail"
    Sample.img_path ["out"] 512 (PFloat float_0_3) (Sample.fs 1000 800)
  = (Ok None, Sample.fs 1000 800).
Proof.
  apply (unsupported_category Sample.lib
           (Sample.detects [(400, 300, 600, 500)]) "tail"
           Sample.img_path ["out"] 512 (PFloat float_0_3) (PFloat float_0_2)
           (PFloat float_0_3) (PInt 15) "red" 8 false (Sample.fs 1000 800)).
  intros t. destruct t; discriminate.
Defined.

(** ** What the operations change on the file system *)

Section Frame.

Variables (out : Path → Prop) (made : gset Path).

Lemma changes_only_refl fs : changes_only out made fs fs.
Proof. split; [done|]. split; [done|]. apply union_subseteq_l. Qed.

Lemma changes_only_trans fs1 fs2 fs3 :
  changes_only out made fs1 fs2 → changes_only out made fs2 fs3 →
  changes_only out made fs1 fs3.
Proof.
  intros (Hf1 & Hd1 & Hm1) (Hf2 & Hd2 & Hm2). split; [|split].
  - intros q Hq. by rewrite Hf2, Hf1.
  - by trans (dirs fs2).
  - trans (dirs fs2 ∪ made); [done|].
    apply union_least; [done|]. apply union_subseteq_r.
Qed.

Lemma preserves_ret {A} (a : A) : preserves (changes_only out made) (mret a).
Proof. intros fs. apply changes_only_refl. Qed.

Lemma preserves_lift {A} (r : res A) :
  preserves (changes_only out made) (lift r).
Proof. intros fs. apply changes_only_refl. Qed.

Lemma preserves_bind {A B} (m : M A) (k : A → M B) :
  preserves (changes_only out made) m →
  (∀ a, preserves (changes_only out made) (k a)) →
  preserves (changes_only out made) (m ≫= k).
Proof.
  intros Hm Hk fs. unfold mbind, M_bind. specialize (Hm fs).
  destruct (m fs) as [[a|e] fs1]; cbn [snd] in *; [|done].
  eapply changes_only_trans; [exact Hm|]. apply Hk.
Qed.

Lemma preserves_open (p : Path) :
  preserves (changes_only out made) (image_open p).
Proof.
  intros fs. unfold image_open.
  destruct (files fs !! p); apply changes_only_refl.
Qed.

Lemma preserves_save lib (im : picture) (p : Path) :
  out p → preserves (changes_only out made) (save lib im p).
Proof.
  intros Hp fs. unfold save.
  destruct (_ || _); [apply changes_only_refl|].
  destruct (writes_png lib im);
    (split; [|split]; cbn [snd files dirs]; [|done|apply union_subseteq_l]);
    intros q Hq.
  - apply lookup_insert_ne. by intros ->.
  - apply lookup_delete_ne. by intros ->.
Qed.

Lemma preserves_ensure_dir (output_dir : Path) :
  list_to_set (ancestors output_dir) ⊆ made →
  preserves (changes_only out made) (ensure_dir output_dir).
Proof.
  intros Hmade fs. unfold ensure_dir, path_exists, mbind, M_bind.
  destruct (bool_decide (output_dir ∈ dirs fs) ||
            bool_decide (is_Some (files fs !! output_dir)));
    [apply changes_only_refl|].
  unfold mkdir_parents. case_bool_decide; [apply changes_only_refl|].
  split; [|split]; cbn [snd files dirs]; [done|apply union_subseteq_l|].
  apply union_least; [apply union_subseteq_l|].
  trans made; [done|]. apply union_subseteq_r.
Qed.

End Frame.

Lemma square_loop_preserves lib made type img_path output_dir target_size
    padding_ratio results : ∀ i acc,
  preserves
    (changes_only (λ q, ∃ i, q = square_path type img_path output_dir i) made)
    (square_loop lib type img_path output_dir target_size padding_ratio i
       results acc).
Proof.
  induction results as [|result rest IH]; intros i acc; cbn [square_loop].
  - apply preserves_ret.
  - apply preserves_bind; [apply preserves_open|]. intros img.
    destruct (size img) as [img_width img_height].
    apply preserves_bind; [apply preserves_lift|]. intros new_crop.
    apply preserves_bind; [apply preserves_lift|]. intros square_img.
    apply preserves_bind; [apply preserves_lift|]. intros final_img.
    apply preserves_bind; [apply preserves_save; by exists i|]. intros _.
    apply IH.
Qed.

Lemma square_frame lib detect type img_path output_dir target_size
    padding_ratio :
  preserves
    (changes_only (λ q, ∃ i, q = square_path type img_path output_dir i)
       (list_to_set (ancestors output_dir)))
    (square lib detect type img_path output_dir target_size padding_ratio).
Proof.
  unfold square. destruct (detector detect !! type) as [f|];
    [|apply preserves_ret].
  destruct (f img_path) as [|result rest]; [apply preserves_ret|].
  apply preserves_bind; [by apply preserves_ensure_dir|]. intros _.
  apply preserves_bind; [apply square_loop_preserves|]. intros paths.
  destruct paths; apply preserves_ret.
Qed.

Lemma mask_frame lib detect type img_path output_dir padding_ratio color
    width :
  preserves
    (changes_only (λ q, q = mask_path type img_path output_dir) ∅)
    (mask lib detect type img_path output_dir padding_ratio color width).
Proof.
  unfold mask. destruct (detector detect !! type) as [f|];
    [|apply preserves_ret].
  destruct (f img_path) as [|result rest]; [apply preserves_ret|].
  apply preserves_bind; [apply preserves_open|]. intros image.
  destruct (size image) as [img_width img_height].
  apply preserves_bind; [apply preserves_lift|]. intros marked.
  apply preserves_bind; [by apply preserves_save|]. intros _.
  apply preserves_ret.
Qed.

Lemma highlight_frame lib detect type img_path output_dir padding_ratio
    blur_radius with_mask mask_color mask_width :
  preserves
    (changes_only (λ q, q = highlight_path type img_path output_dir)
       (list_to_set (ancestors output_dir)))
    (highlight lib detect type img_path output_dir padding_ratio blur_radius
       with_mask mask_color mask_width).
Proof.
  unfold highlight. destruct (detector detect !! type) as [f|];
    [|apply preserves_ret].
  destruct (f img_path) as [|result rest]; [apply preserves_ret|].
  apply preserves_bind; [apply preserves_open|]. intros opened.
  apply preserves_bind; [apply preserves_lift|]. intros image.
  apply preserves_bind; [apply preserves_lift|]. intros blurred.
  destruct (size image) as [img_width img_height].
  apply preserves_bind; [apply preserves_lift|]. intros [mask boxes].
  apply preserves_bind.
  { destruct (with_mask && negb (bool_decide (boxes = [])));
      [apply preserves_lift | apply preserves_ret]. }
  intros highlighted.
  apply preserves_bind; [by apply preserves_ensure_dir|]. intros _.
  apply preserves_bind; [by apply preserves_save|]. intros _.
  apply preserves_ret.
Qed.

(** X3: whatever their outcome, the operations change no file but their
    own outputs, remove no directory, and create no directory but the
    output directory and its parents; [mask] creates none. *)
Theorem only_outputs_change lib detect (type : string)
    (img_path output_dir : Path) (target_size : Z)
    (square_padding mask_padding highlight_padding blur_radius : num)
    (color : string) (width : Z) (with_mask : bool) (fs : FS) :
  changes_only (λ q, ∃ i, q = square_path type img_path output_dir i)
    (list_to_set (ancestors output_dir)) fs
    (square lib detect type img_path output_dir target_size square_padding
       fs).2 ∧
  changes_only (λ q, q = mask_path type img_path output_dir) ∅ fs
    (mask lib detect type img_path output_dir mask_padding color width fs).2 ∧
  changes_only (λ q, q = highlight_path type img_path output_dir)
    (list_to_set (ancestors output_dir)) fs
    (highlight lib detect type img_path output_dir highlight_padding
       blur_radius with_mask color width fs).2.
Proof.
  split; [|split].
  - apply square_frame.
  - apply mask_frame.
  - apply highlight_frame.
Qed.

(** X4: none of the operations ever overwrites the image it reads: whatever
    the outcome, the file at [img_path] is what it was. *)
Theorem source_untouched lib detect (type : string)
    (img_path output_dir : Path) (target_size : Z)
    (square_padding mask_padding highlight_padding blur_radius : num)
    (color : string) (width : Z) (with_mask : bool) (fs : FS) :
  files (square lib detect type img_path output_dir target_size
           square_padding fs).2 !! img_path = files fs !! img_path ∧
  files (mask lib detect type img_path output_dir mask_padding color width
           fs).2 !! img_path = files fs !! img_path ∧
  files (highlight lib detect type img_path output_dir highlight_padding
           blur_radius with_mask color width fs).2 !! img_path
    = files fs !! img_path.
Proof.
  destruct (square_frame lib detect type img_path output_dir target_size
              square_padding fs) as [Hs _].
  destruct (mask_frame lib detect type img_path output_dir mask_padding color
              width fs) as [Hm _].
  destruct (highlight_frame lib detect type img_path output_dir
              highlight_padding blur_radius with_mask color width fs)
    as [Hh _].
  split; [|split].
  - apply Hs. intros [i Hi]. symmetry in Hi. by apply square_path_fresh in Hi.
  - apply Hm. intros Hi. symmetry in Hi. by apply output_name_fresh in Hi.
  - apply Hh. intros Hi. symmetry in Hi. by apply output_name_fresh in Hi.
Qed.

(** ** What [mask] draws *)

Lemma mask_loop_inv lib img_width img_height padding_ratio color width
    results :
  ∀ image marked,
  mask_loop lib img_width img_height padding_ratio color width results image
    = Ok marked →
  ∃ boxes,
    padded_boxes img_width img_height padding_ratio results boxes ∧
    size marked = size image ∧
    mode_of marked = mode_of image ∧
    ∀ x y,
      if existsb (λ nb, stroked lib nb width x y) boxes
      then ink_of lib color (pixel_at lib marked x y)
      else pixel_at lib marked x y = pixel_at lib image x y.
Proof.
  induction results as [|result rest IH]; intros image marked Hrun.
  - injection Hrun as <-. exists []. split; [constructor|]. done.
  - cbn [mask_loop] in Hrun.
    apply res_bind_inv in Hrun as (nb & Hnb & Hrun).
    apply res_bind_inv in Hrun as (image1 & Hrect & Hrun).
    apply rectangle_outline_inv in Hrect as (px & Hpx & ->).
    apply IH in Hrun as (boxes & Hboxes & Hsize & Hmode & Hpix).
    exists (nb :: boxes). split; [by constructor|]. split; [done|].
    split; [done|]. intros x y. specialize (Hpix x y). cbn [existsb].
    destruct (existsb _ boxes).
    + by rewrite orb_true_r.
    + rewrite orb_false_r, Hpix. cbn [pixel_at].
      destruct (stroked lib nb width x y); [|done]. by exists image.
Qed.

(** X5: when [mask] returns on a non-empty detection list, it has written
    one file and nothing else: the source picture, at its own
    dimensions, with the outline of every padded box stroked over it, a
    picture the library wrote as PNG; a pixel an outline covers holds an
    ink the library gave for the colour, any other pixel is the source
    pixel. *)
Theorem mask_marks lib detect (type : string) (f : Detector)
    (img_path output_dir : Path) (padding_ratio : num) (color : string)
    (width : Z) (fs fs' : FS) (path : Path) :
  detector detect !! type = Some f →
  f img_path ≠ [] →
  mask lib detect type img_path output_dir padding_ratio color width fs
    = (Ok path, fs') →
  ∃ opened boxes marked,
    files fs !! img_path = Some opened ∧
    padded_boxes (size opened).1 (size opened).2 padding_ratio
      (f img_path) boxes ∧
    length boxes = length (f img_path) ∧
    path = mask_path type img_path output_dir ∧
    files fs' = <[path := marked]> (files fs) ∧
    dirs fs' = dirs fs ∧
    size marked = size opened ∧
    writes_png lib marked = true ∧
    ∀ x y,
      if existsb (λ nb, stroked lib nb width x y) boxes
      then ink_of lib color (pixel_at lib marked x y)
      else pixel_at lib marked x y = pixel_at lib opened x y.
Proof.
  intros Hd Hne Hrun. unfold mask in Hrun. rewrite Hd in Hrun.
  destruct (f img_path) as [|result rest] eqn:Hres; [done|].
  apply bind_inv in Hrun as (opened & fs1 & Hopen & Hrun).
  unfold image_open in Hopen.
  destruct (files fs !! img_path) as [im|] eqn:Him; [|discriminate].
  injection Hopen as -> <-.
  destruct (size opened) as [img_width img_height] eqn:Hsize.
  apply bind_inv in Hrun as (marked & fs1 & Hloop & Hrun).
  apply lift_inv in Hloop as [Hloop ->].
  apply mask_loop_inv in Hloop as (boxes & Hboxes & Hsz & _ & Hpix).
  apply bind_inv in Hrun as ([] & fs2 & Hsave & Hrun).
  injection Hrun as <- <-.
  apply save_inv in Hsave as (-> & _ & _ & Hpng).
  exists opened, boxes, marked. split; [done|].
  split; [by rewrite Hsize|].
  split; [symmetry; by eapply Forall2_length|]. split; [done|].
  split; [done|]. split; [done|]. split; [done|]. split; [done|]. done.
Qed.

Lemma mask_marks_witness :
  is_Some (files (mask Sample.lib
                    (Sample.detects [(100, 100, 300, 300); (200, 200, 400, 400)])
                    "faces" Sample.img_path ["in"] (PFloat float_0_2) "red" 8
                    (Sample.fs 1000 800)).2
             !! ["in"; "photo_faces_marked.png"]).
Proof.
  destruct (mask Sample.lib
              (Sample.detects [(100, 100, 300, 300); (200, 200, 400, 400)])
              "faces" Sample.img_path ["in"] (PFloat float_0_2) "red" 8
              (Sample.fs 1000 800)) as [r fs'] eqn:Hrun.
  assert (Hr : r = Ok ["in"; "photo_faces_marked.png"]).
  { change r with (r, fs').1. rewrite <- Hrun. vm_compute. reflexivity. }
  subst r.
  destruct (mask_marks Sample.lib
    (Sample.detects [(100, 100, 300, 300); (200, 200, 400, 400)]) "faces"
    (Sample.detects [(100, 100, 300, 300); (200, 200, 400, 400)] FACES)
    Sample.img_path ["in"] (PFloat float_0_2) "red" 8 (Sample.fs 1000 800)
    fs' ["in"; "photo_faces_marked.png"] eq_refl)
    as (opened & boxes & marked & _ & _ & _ & _ & Hfiles & _).
  - discriminate.
  - exact Hrun.
  - cbn [snd]. rewrite Hfiles. exists marked. apply lookup_insert_eq.
Defined.

(** ** Padding never cuts into the detection *)

Lemma axis_covers (l r : num) (a b w : Z) :
  0 ≤ a → b ≤ w → at_most l a → at_least r b →
  leb (max (PInt 0) l) (PInt a) = true ∧
  leb (PInt b) (min (PInt w) r) = true.
Proof.
  intros Ha Hb Hl Hr. unfold max, min. split.
  - destruct (ltb (PInt 0) l) eqn:E; [|by apply leb_int].
    apply ltb_not_nan in E. destruct Hl as [?|Hl]; [tauto|done].
  - destruct (ltb r (PInt w)) eqn:E; [|by apply leb_int].
    apply ltb_not_nan in E. destruct Hr as [?|Hr]; [tauto|done].
Qed.

(** X6: for a box inside the image and a padding ratio that is not
    negative, the padded box of [mask] and [highlight] contains the
    detection box: each padded corner lies on or outside the raw one. *)
Theorem padded_box_covers (img_width img_height : Z) (x0 y0 x1 y1 : Z)
    (padding_ratio : num) :
  inside img_width img_height (x0, y0, x1, y1) →
  img_width < 2 ^ 53 → img_height < 2 ^ 53 →
  leb (PInt 0) padding_ratio = true →
  ∃ nx0 ny0 nx1 ny1,
    padded_box img_width img_height (x0, y0, x1, y1) padding_ratio
      = Ok (nx0, ny0, nx1, ny1) ∧
    leb nx0 (PInt x0) = true ∧ leb ny0 (PInt y0) = true ∧
    leb (PInt x1) nx1 = true ∧ leb (PInt y1) ny1 = true.
Proof.
  intros Hin Hw Hh Hp. apply leb_zero_not_negative in Hp.
  unfold inside in Hin. unfold padded_box.
  destruct (mul_int_total (x1 - x0) padding_ratio) as (pad_w & -> & Hpw);
    [lia|done|].
  rewrite res_bind_Ok.
  destruct (mul_int_total (y1 - y0) padding_ratio) as (pad_h & -> & Hph);
    [lia|done|].
  rewrite res_bind_Ok.
  destruct (sub_at_most x0 pad_w) as (l & -> & Hl); [lia|done|].
  rewrite res_bind_Ok.
  destruct (sub_at_most y0 pad_h) as (u & -> & Hu); [lia|done|].
  rewrite res_bind_Ok.
  destruct (add_at_least x1 pad_w) as (r & -> & Hr); [lia|done|].
  rewrite res_bind_Ok.
  destruct (add_at_least y1 pad_h) as (d & -> & Hd); [lia|done|].
  rewrite res_bind_Ok.
  destruct (axis_covers l r x0 x1 img_width) as [Hx0 Hx1]; [lia|lia|done|done|].
  destruct (axis_covers u d y0 y1 img_height) as [Hy0 Hy1]; [lia|lia|done|done|].
  by eexists _, _, _, _.
Qed.

Lemma padded_box_covers_witness :
  ∃ nx0 ny0 nx1 ny1,
    padded_box 1000 800 (400, 300, 600, 500) (PFloat float_0_2)
      = Ok (nx0, ny0, nx1, ny1) ∧
    leb nx0 (PInt 400) = true ∧ leb ny0 (PInt 300) = true ∧
    leb (PInt 600) nx1 = true ∧ leb (PInt 500) ny1 = true.
Proof.
  apply (padded_box_covers 1000 800 400 300 600 500 (PFloat float_0_2)).
  - unfold inside. lia.
  - reflexivity.
  - reflexivity.
  - reflexivity.
Defined.

(** ** The crop region holds the centre of the detection *)

(** X7: for a box inside the image and a padding ratio that is not
    negative, a crop region that is not empty contains the centre of the
    box, on both axes. *)
Theorem square_region_holds_centre (img_width img_height : Z)
    (x0 y0 x1 y1 : Z) (padding_ratio : num) (nx0 ny0 nx1 ny1 : Z) :
  inside img_width img_height (x0, y0, x1, y1) →
  leb (PInt 0) padding_ratio = true →
  square_crop img_width img_height (x0, y0, x1, y1) padding_ratio
    = Ok (nx0, ny0, nx1, ny1) →
  nx0 < nx1 →
  nx0 ≤ (x0 + x1) `div` 2 ∧ (x0 + x1) `div` 2 < nx1 ∧
  ny0 ≤ (y0 + y1) `div` 2 ∧ (y0 + y1) `div` 2 < ny1.
Proof.
  intros Hin Hp Hcrop Hne. unfold square_crop in Hcrop.
  apply res_bind_inv in Hcrop as (e & He & Hcrop).
  assert (He0 : 0 ≤ e).
  { apply (expanded_size_not_negative (base_size (x0, y0, x1, y1))
             padding_ratio); [|by apply leb_zero_not_negative|done].
    pose proof (base_size_inside _ _ _ Hin). lia. }
  unfold inside in Hin. unfold square_region in Hcrop.
  set (cx := (x0 + x1) `div` 2) in *. set (cy := (y0 + y1) `div` 2) in *.
  set (h := e `div` 2) in *.
  assert (Hcx : x0 ≤ cx ∧ cx < x1).
  { subst cx. split; [apply Z.div_le_lower_bound | apply Z.div_lt_upper_bound];
      lia. }
  assert (Hcy : y0 ≤ cy ∧ cy < y1).
  { subst cy. split; [apply Z.div_le_lower_bound | apply Z.div_lt_upper_bound];
      lia. }
  assert (Hh : 0 ≤ h) by (subst h; apply Z.div_pos; lia).
  clearbody cx cy h.
  set (s := Z.min (Z.min img_width (cx + h) - Z.max 0 (cx - h))
                  (Z.min img_height (cy + h) - Z.max 0 (cy - h))) in *.
  assert (Hs : s ≤ img_width ∧ s ≤ img_height) by (subst s; lia).
  assert (Hs2 : 2 * (s `div` 2) ≤ s < 2 * (s `div` 2) + 2).
  { pose proof (Z.div_mod s 2 ltac:(lia)).
    pose proof (Z.mod_pos_bound s 2 ltac:(lia)). lia. }
  clearbody s. injection Hcrop as <- <- <- <-. lia.
Qed.

Lemma square_region_holds_centre_witness :
  0 ≤ (0 + 50) `div` 2 ∧ (0 + 50) `div` 2 < 65 ∧
  0 ≤ (0 + 50) `div` 2 ∧ (0 + 50) `div` 2 < 65.
Proof.
  apply (square_region_holds_centre 100 100 0 0 50 50 (PFloat float_0_3)
           0 0 65 65).
  - unfold inside. lia.
  - reflexivity.
  - by vm_compute.
  - lia.
Defined.

(** ** A source that cannot be opened *)

(** X8: with the source image missing, all three operations raise.  [square]
    has by then created the output directory, since it does so before it
    opens the image; [mask] and [highlight] leave the file system as it
    was. *)
Theorem missing_source lib detect (type : string) (f : Detector)
    (img_path output_dir : Path) (target_size : Z)
    (square_padding mask_padding highlight_padding blur_radius : num)
    (color : string) (width : Z) (with_mask : bool) (fs : FS) :
  detector detect !! type = Some f →
  f img_path ≠ [] →
  files fs !! img_path = None →
  no_file_above output_dir fs →
  output_dir ∉ dirs fs →
  square lib detect type img_path output_dir target_size square_padding fs
    = (Raise OSError,
       {| dirs := dirs fs ∪ list_to_set (ancestors output_dir);
          files := files fs |}) ∧
  mask lib detect type img_path output_dir mask_padding color width fs
    = (Raise OSError, fs) ∧
  highlight lib detect type img_path output_dir highlight_padding blur_radius
    with_mask color width fs = (Raise OSError, fs).
Proof.
  intros Hd Hne Him Hno Hdir. unfold square, mask, highlight. rewrite Hd.
  destruct (f img_path) as [|result rest]; [done|]. split; [|split].
  - assert (Hens : ensure_dir output_dir fs =
      (Ok (), {| dirs := dirs fs ∪ list_to_set (ancestors output_dir);
                 files := files fs |})).
    { unfold ensure_dir, path_exists, mbind, M_bind.
      assert (Hself : files fs !! output_dir = None).
      { unfold no_file_above in Hno. rewrite Forall_forall in Hno.
        apply Hno, ancestors_self. }
      rewrite Hself, bool_decide_eq_false_2 by done.
      rewrite (bool_decide_eq_false_2 (is_Some None));
        [|intros [? ?]; discriminate].
      cbn [orb]. unfold mkdir_parents. rewrite bool_decide_eq_false_2; [done|].
      intros Hex. apply Exists_exists in Hex as (q & Hq & [im Hq']).
      unfold no_file_above in Hno. rewrite Forall_forall in Hno.
      specialize (Hno q Hq). congruence. }
    erewrite bind_ok; [|exact Hens].
    erewrite bind_raise; [done|]. cbn [square_loop].
    erewrite bind_raise; [done|]. unfold image_open. cbn [files].
    by rewrite Him.
  - erewrite bind_raise; [done|]. unfold image_open. by rewrite Him.
  - erewrite bind_raise; [done|]. unfold image_open. by rewrite Him.
Qed.

Lemma missing_source_witness :
  mask Sample.lib (Sample.detects [(400, 300, 600, 500)]) "faces"
    ["in"; "gone.jpg"] ["out"] (PFloat float_0_2) "red" 8 (Sample.fs 1000 800)
  = (Raise OSError, Sample.fs 1000 800).
Proof.
  apply (missing_source Sample.lib (Sample.detects [(400, 300, 600, 500)])
    "faces"
    (Sample.detects [(400, 300, 600, 500)] FACES) ["in"; "gone.jpg"] ["out"]
    512 (PFloat float_0_3) (PFloat float_0_2) (PFloat float_0_3) (PInt 15)
    "red" 8 false (Sample.fs 1000 800)).
  - reflexivity.
  - discriminate.
  - reflexivity.
  - repeat constructor.
  - vm_compute. intros H. discriminate.
Defined.

(** ** The files [square] writes *)

Lemma str_of_nat_inj (i j : nat) : str_of_nat i = str_of_nat j → i = j.
Proof.
  unfold str_of_nat. intros H.
  assert (Hnn : ∀ n, Nat.to_uint n ≠ Decimal.Nil).
  { intros n. rewrite <- (Unsigned.of_to n) at 1. rewrite Unsigned.to_of.
    apply unorm_nonnil. }
  apply Unsigned.to_uint_inj.
  pose proof (NilZero.usu _ (Hnn i)) as Hi.
  pose proof (NilZero.usu _ (Hnn j)) as Hj.
  rewrite H in Hi. congruence.
Qed.

Lemma append_length (a b : string) :
  String.length (a +:+ b) = (String.length a + String.length b)%nat.
Proof. induction a; [done|]. rewrite append_cons. cbn. by rewrite IHa. Qed.

Lemma append_inj_r (a b c : string) : a +:+ c = b +:+ c → a = b.
Proof.
  revert b. induction a as [|x a IH]; intros [|y b] H.
  - done.
  - apply (f_equal String.length) in H. rewrite !append_length in H.
    cbn in H. lia.
  - apply (f_equal String.length) in H. rewrite !append_length in H.
    cbn in H. lia.
  - rewrite !append_cons in H. injection H as -> H. f_equal. by apply IH.
Qed.

Lemma square_path_inj type img_path output_dir (i j : nat) :
  square_path type img_path output_dir i
    = square_path type img_path output_dir j → i = j.
Proof.
  unfold square_path. intros H. apply app_inv_head in H.
  injection H as H.
  do 4 apply (inj (String.append _)) in H.
  apply append_inj_r in H. by apply str_of_nat_inj.
Qed.

Lemma changes_only_weaken (out out' : Path → Prop) made fs fs' :
  (∀ q, out q → out' q) →
  changes_only out made fs fs' → changes_only out' made fs fs'.
Proof.
  intros Hsub (Hf & Hd). split; [|done]. intros q Hq. apply Hf. auto.
Qed.

Lemma square_loop_later lib made type img_path output_dir target_size
    padding_ratio results : ∀ i acc,
  preserves
    (changes_only
       (λ q, ∃ j, (i ≤ j)%nat ∧ q = square_path type img_path output_dir j)
       made)
    (square_loop lib type img_path output_dir target_size padding_ratio i
       results acc).
Proof.
  induction results as [|result rest IH]; intros i acc; cbn [square_loop].
  - apply preserves_ret.
  - apply preserves_bind; [apply preserves_open|]. intros img.
    destruct (size img) as [img_width img_height].
    apply preserves_bind; [apply preserves_lift|]. intros new_crop.
    apply preserves_bind; [apply preserves_lift|]. intros square_img.
    apply preserves_bind; [apply preserves_lift|]. intros final_img.
    apply preserves_bind; [apply preserves_save; by exists i|]. intros _.
    intros fs. eapply changes_only_weaken; [|apply IH].
    intros q (j & Hj & ->). exists j. split; [lia|done].
Qed.

Lemma crop_inv im box im' : crop im box = Ok im' → im' = Crop im box.
Proof.
  unfold crop. destruct box as [[[x0 y0] x1] y1].
  destruct (_ || _); [discriminate|]. by intros [= <-].
Qed.

Lemma resize_inv lib im sz im' :
  resize lib im sz = Ok im' → im' = ResizeLanczos im sz.
Proof.
  unfold resize. destruct (_ || _); [discriminate|].
  destruct (resamples lib im sz); [|discriminate]. by intros [= <-].
Qed.

(** The files a run of the loop that returns has left. *)
Lemma square_loop_files lib type img_path output_dir target_size
    padding_ratio im results : ∀ i acc fs paths fs',
  files fs !! img_path = Some im →
  square_loop lib type img_path output_dir target_size padding_ratio i
    results acc fs = (Ok paths, fs') →
  ∀ (k : nat) result, results !! k = Some result →
    ∃ region,
      square_crop (size im).1 (size im).2 result.1.1 padding_ratio
        = Ok region ∧
      files fs' !! square_path type img_path output_dir (i + k)
        = Some (ResizeLanczos (Crop im region) (target_size, target_size)) ∧
      writes_png lib (ResizeLanczos (Crop im region)
                        (target_size, target_size)) = true.
Proof.
  induction results as [|result rest IH];
    intros i acc fs paths fs' Him Hrun k res Hk; [done|].
  cbn [square_loop] in Hrun.
  apply bind_inv in Hrun as (img & fs1 & Hopen & Hrun).
  unfold image_open in Hopen. rewrite Him in Hopen. injection Hopen as <- <-.
  rewrite (surjective_pairing (size im)) in Hrun. cbv beta iota in Hrun.
  apply bind_inv in Hrun as (new_crop & fs2 & Hcrop & Hrun).
  apply lift_inv in Hcrop as [Hcrop ->].
  apply bind_inv in Hrun as (square_img & fs3 & Hsq & Hrun).
  apply lift_inv in Hsq as [Hsq ->]. apply crop_inv in Hsq as ->.
  apply bind_inv in Hrun as (final_img & fs4 & Hfin & Hrun).
  apply lift_inv in Hfin as [Hfin ->]. apply resize_inv in Hfin as ->.
  apply bind_inv in Hrun as ([] & fs5 & Hsave & Hrun).
  apply save_inv in Hsave as (-> & _ & _ & Hpng).
  destruct k as [|k]; cbn in Hk.
  - injection Hk as <-. exists new_crop. split; [done|]. split; [|done].
    rewrite Nat.add_0_r.
    destruct (square_loop_later lib ∅ type img_path output_dir target_size
                padding_ratio rest (S i)
                (acc ++ [square_path type img_path output_dir i])
                {| dirs := dirs fs;
                   files := <[square_path type img_path output_dir i :=
                     ResizeLanczos (Crop im new_crop)
                       (target_size, target_size)]> (files fs) |})
      as (Hframe & _).
    rewrite Hrun in Hframe. cbn [snd files] in Hframe. rewrite Hframe.
    + apply lookup_insert_eq.
    + intros (j & Hj & Heq). apply square_path_inj in Heq. lia.
  - replace (i + S k)%nat with (S i + k)%nat by lia.
    eapply (IH (S i)); [|exact Hrun|exact Hk]. cbn [files].
    rewrite lookup_insert_ne; [done|]. apply square_path_fresh.
Qed.

(** X9: when [square] returns, it has left, for each detection, its own
    file: the region of that detection cropped from the source and
    resampled to [target_size] by [target_size], a picture the library
    wrote as PNG; files of different detections have different names, so
    none overwrites another. *)
Theorem square_writes_crops lib detect (type : string) (f : Detector)
    (img_path output_dir : Path) (target_size : Z) (padding_ratio : num)
    (fs fs' : FS) (r : option (list Path)) (im : picture) :
  detector detect !! type = Some f →
  files fs !! img_path = Some im →
  square lib detect type img_path output_dir target_size padding_ratio fs
    = (Ok r, fs') →
  (∀ (k : nat) result, f img_path !! k = Some result →
     ∃ region saved,
       square_crop (size im).1 (size im).2 result.1.1 padding_ratio
         = Ok region ∧
       saved = ResizeLanczos (Crop im region) (target_size, target_size) ∧
       files fs' !! square_path type img_path output_dir k = Some saved ∧
       size saved = (target_size, target_size) ∧
       writes_png lib saved = true) ∧
  (∀ i j : nat, square_path type img_path output_dir i
                = square_path type img_path output_dir j → i = j).
Proof.
  intros Hd Him Hrun. split; [|apply square_path_inj].
  intros k result Hk. unfold square in Hrun. rewrite Hd in Hrun.
  destruct (f img_path) as [|r0 rest] eqn:Hres; [done|].
  apply bind_inv in Hrun as ([] & fs1 & Hens & Hrun).
  apply bind_inv in Hrun as (paths & fs2 & Hloop & Hrun).
  assert (fs2 = fs') as ->.
  { destruct paths; by injection Hrun as _ <-. }
  pose proof (preserves_ensure_dir (λ _, False)
                (list_to_set (ancestors output_dir)) output_dir
                ltac:(done) fs) as (Hfiles & _).
  rewrite Hens in Hfiles. cbn [snd] in Hfiles.
  destruct (square_loop_files lib type img_path output_dir target_size
              padding_ratio im (r0 :: rest) 0 [] fs1 paths fs')
    with (k := k) (result := result) as (region & Hreg & Hfile & Hpng);
    [rewrite Hfiles; [done|tauto] | done | done |].
  exists region, (ResizeLanczos (Crop im region) (target_size, target_size)).
  done.
Qed.

Lemma square_writes_crops_witness :
  files (square Sample.lib
           (Sample.detects [(400, 300, 600, 500); (0, 0, 50, 50)])
           "head" Sample.img_path ["out"] 512 (PFloat float_0_3)
           (Sample.fs 1000 800)).2 !! ["out"; "photo_head_1.png"]
  = Some (ResizeLanczos (Crop (Sample.black 1000 800) (0, 0, 65, 65))
            (512, 512)).
Proof.
  destruct (square Sample.lib
              (Sample.detects [(400, 300, 600, 500); (0, 0, 50, 50)]) "head"
              Sample.img_path ["out"] 512 (PFloat float_0_3)
              (Sample.fs 1000 800)) as [r fs'] eqn:Hrun.
  assert (Hr : ∃ paths, r = Ok paths).
  { change r with (r, fs').1. rewrite <- Hrun. vm_compute. by eexists. }
  destruct Hr as [paths ->].
  destruct (square_writes_crops Sample.lib
    (Sample.detects [(400, 300, 600, 500); (0, 0, 50, 50)]) "head"
    (Sample.detects [(400, 300, 600, 500); (0, 0, 50, 50)] HEAD)
    Sample.img_path ["out"] 512 (PFloat float_0_3) (Sample.fs 1000 800)
    fs' paths (Sample.black 1000 800) eq_refl eq_refl Hrun) as [H _].
  destruct (H 1%nat ((0, 0, 50, 50), "face"%string,
               S754_finite false 8106479329266893 (-53)) eq_refl)
    as (region & saved & Hreg & -> & Hfile & _).
  assert (Hc : square_crop 1000 800 (0, 0, 50, 50) (PFloat float_0_3)
               = Ok (0, 0, 65, 65)) by (vm_compute; reflexivity).
  cbn [size Sample.black fst snd] in Hreg. rewrite Hc in Hreg.
  injection Hreg as <-. exact Hfile.
Defined.

(** ** What [highlight] writes *)

(** X10: when [highlight] returns on a non-empty detection list, it has
    written exactly one file, of the dimensions of the source, into an
    output directory that exists by then. *)
Theorem highlight_writes_one lib detect (type : string) (f : Detector)
    (img_path output_dir : Path) (padding_ratio blur_radius : num)
    (with_mask : bool) (mask_color : string) (mask_width : Z)
    (fs fs' : FS) (path : Path) :
  detector detect !! type = Some f →
  f img_path ≠ [] →
  highlight lib detect type img_path output_dir padding_ratio blur_radius
    with_mask mask_color mask_width fs = (Ok path, fs') →
  ∃ opened saved,
    files fs !! img_path = Some opened ∧
    path = highlight_path type img_path output_dir ∧
    files fs' = <[path := saved]> (files fs) ∧
    size saved = size opened ∧
    output_dir ∈ dirs fs'.
Proof.
  intros Hd Hne Hrun. unfold highlight in Hrun. rewrite Hd in Hrun.
  destruct (f img_path) as [|result rest] eqn:Hres; [done|].
  apply bind_inv in Hrun as (opened & fs1 & Hopen & Hrun).
  unfold image_open in Hopen.
  destruct (files fs !! img_path) as [im|] eqn:Him; [|discriminate].
  injection Hopen as -> <-.
  apply bind_inv in Hrun as (image & fs1 & Hconv & Hrun).
  apply lift_inv in Hconv as [Hconv ->]. unfold convert_rgb in Hconv.
  destruct (converts lib opened); [|discriminate]. injection Hconv as <-.
  apply bind_inv in Hrun as (blurred & fs1 & Hblur & Hrun).
  apply lift_inv in Hblur as [Hblur ->]. unfold gaussian_blur in Hblur.
  destruct (blurs lib (ConvertRGB opened) blur_radius); [|discriminate].
  injection Hblur as <-.
  cbn [size] in Hrun. destruct (size opened) as [img_width img_height] eqn:Hsize.
  apply bind_inv in Hrun as ([mask boxes] & fs1 & Hloop & Hrun).
  apply lift_inv in Hloop as [Hloop ->].
  apply bind_inv in Hrun as (highlighted & fs1 & Hover & Hrun).
  apply bind_inv in Hrun as ([] & fs2 & Hens & Hrun).
  apply bind_inv in Hrun as ([] & fs3 & Hsave & Hrun).
  injection Hrun as <- <-.
  assert (Hh : size highlighted = size opened ∧ fs1 = fs).
  { destruct (with_mask && negb (bool_decide (boxes = []))).
    - apply lift_inv in Hover as [Hover ->]. split; [|done].
      apply outline_loop_inv in Hover as (-> & _). cbn [size]. done.
    - by injection Hover as <- <-. }
  destruct Hh as [Hh ->].
  pose proof (preserves_ensure_dir (λ _, False)
                (list_to_set (ancestors output_dir)) output_dir
                ltac:(done) fs) as (Hfiles & _).
  rewrite Hens in Hfiles. cbn [snd] in Hfiles.
  assert (Hf2 : files fs2 = files fs).
  { apply map_eq. intros q. apply Hfiles. tauto. }
  apply save_inv in Hsave as (-> & Hparent & _).
  unfold highlight_path in Hparent. rewrite parent_app in Hparent.
  exists opened, highlighted. cbn [files dirs]. by rewrite Hf2.
Qed.

Lemma highlight_writes_one_witness :
  ["out"] ∈ dirs (highlight Sample.lib (Sample.detects [(400, 300, 600, 500)])
                    "faces" Sample.img_path ["out"] (PFloat float_0_3)
                    (PInt 15) true "red" 8 (Sample.fs 1000 800)).2.
Proof.
  destruct (highlight Sample.lib (Sample.detects [(400, 300, 600, 500)])
              "faces" Sample.img_path ["out"] (PFloat float_0_3) (PInt 15)
              true "red" 8 (Sample.fs 1000 800)) as [r fs'] eqn:Hrun.
  assert (Hr : r = Ok ["out"; "photo_faces_highlighted.png"]).
  { change r with (r, fs').1. rewrite <- Hrun. vm_compute. reflexivity. }
  subst r.
  destruct (highlight_writes_one Sample.lib
              (Sample.detects [(400, 300, 600, 500)]) "faces"
              (Sample.detects [(400, 300, 600, 500)] FACES)
              Sample.img_path ["out"] (PFloat float_0_3) (PInt 15) true
              "red" 8 (Sample.fs 1000 800) fs'
              ["out"; "photo_faces_highlighted.png"])
    as (opened & saved & _ & _ & _ & _ & Hdir).
  - reflexivity.
  - discriminate.
  - exact Hrun.
  - exact Hdir.
Defined.

(** ** [square] without padding *)

Lemma int_holds_int (f : spec_float) (b : Z) :
  holds_int f b → int (PFloat f) = Ok b.
Proof.
  destruct f as [s|s| |s m e]; cbn [holds_int int]; try done.
  - by intros ->.
  - intros (-> & Hle & Hge). cbn [cond_Zopp]. f_equal.
    unfold dle, dge in *. destruct (Z.le_gt_cases 0 e) as [He|He].
    + rewrite (Z.max_r 0 e), (Z.max_l 0 (- e)), Z.pow_0_r in * by lia.
      rewrite Z.shiftl_mul_pow2 by done. lia.
    + rewrite (Z.max_l 0 e), (Z.max_r 0 (- e)), Z.pow_0_r in * by lia.
      rewrite Z.shiftl_div_pow2 by lia.
      replace (Z.pos m) with (b * 2 ^ (- e)) by lia.
      apply Z.div_mul. pose proof (pow2_pos (- e) ltac:(lia)). lia.
Qed.

Lemma SFmul_one (fb : spec_float) (b : Z) :
  0 ≤ b < 2 ^ 53 → holds_int fb b →
  holds_int
    (SFmul prec emax fb (S754_finite false 4503599627370496 (-52))) b.
Proof.
  intros Hb Hfb.
  destruct fb as [s|s| |s m e]; cbn [holds_int] in *; try done.
  destruct Hfb as (-> & Hle & Hge). cbn [SFmul xorb].
  assert (Hm : Z.pos (m * 4503599627370496)
               = Z.pos m * 2 ^ (e - (e + -52))).
  { replace (e - (e + -52)) with 52 by lia. by rewrite Pos2Z.inj_mul. }
  pose proof (round_aux_up false (m * 4503599627370496) (e + -52) b Hb) as Hup.
  pose proof (round_aux_down false (m * 4503599627370496) (e + -52) b Hb)
    as Hdown.
  rewrite Hm in Hup, Hdown.
  assert (He : e + -52 ≤ e) by lia.
  specialize (Hup (proj2 (dle_shift (Z.pos m) e (e + -52) b He) Hle)).
  specialize (Hdown (proj2 (dge_shift (Z.pos m) e (e + -52) b He) Hge)).
  rewrite <- Hm in Hup, Hdown.
  destruct (binary_round_aux prec emax false
              (Z.pos (m * 4503599627370496)) (e + -52) loc_Exact)
    as [s'|s'| |s' m' e']; cbn [holds_int]; try done.
  - by destruct Hdown.
  - destruct Hup as [-> Hup]. destruct Hdown as [_ Hdown]. done.
Qed.

(** X11: with a padding ratio of zero the expanded size of [square] is the
    base size (below [2^53], for a float zero), and with an integer
    padding ratio [k] it is [base_size * (1 + 2 * k)], with no rounding
    at all. *)
Theorem expanded_size_exact (b : Z) :
  (∀ k, expanded_size b (PInt k) = Ok (b * (1 + k * 2))) ∧
  (0 ≤ b < 2 ^ 53 → ∀ s, expanded_size b (PFloat (S754_zero s)) = Ok b).
Proof.
  split; [done|]. intros Hb s. unfold expanded_size. cbn [mul add as_float].
  assert (H2 : float_of_int 2 = Ok (S754_finite false 4503599627370496 (-51)))
    by (vm_compute; reflexivity).
  assert (H1 : float_of_int 1 = Ok (S754_finite false 4503599627370496 (-52)))
    by (vm_compute; reflexivity).
  rewrite res_bind_Ok, H2, !res_bind_Ok. cbn [SFmul]. cbv beta iota.
  rewrite H1, res_bind_Ok. cbn [as_float]. rewrite !res_bind_Ok.
  cbn [SFadd]. cbv beta iota.
  destruct (float_of_int_exact b Hb) as (fb & -> & Hfb).
  rewrite res_bind_Ok. cbn [as_float]. rewrite !res_bind_Ok.
  apply int_holds_int. by apply SFmul_one.
Qed.

Lemma expanded_size_exact_witness :
  expanded_size 200 (PFloat (S754_zero false)) = Ok 200.
Proof.
  destruct (expanded_size_exact 200) as [_ H]. apply H. split; [lia|reflexivity].
Defined.

(** ** A padding ratio that is infinite or not a number *)

Lemma max_zero_not_greater (l : num) :
  ltb (PInt 0) l = false → max (PInt 0) l = PInt 0.
Proof. unfold max. by intros ->. Qed.

Lemma min_width_not_less (w : Z) (r : num) :
  ltb r (PInt w) = false → min (PInt w) r = PInt w.
Proof. unfold min. by intros ->. Qed.

(** X12: with a padding ratio of plus infinity or NaN, [mask] and
    [highlight] do not fail: the padded box of a box inside the image is
    the whole image.  [square] raises instead, [OverflowError] for
    infinity and [ValueError] for NaN, from its conversion to [int]. *)
Theorem unbounded_padding (img_width img_height : Z) (box : BoundingBox) :
  inside img_width img_height box →
  img_width < 2 ^ 53 → img_height < 2 ^ 53 →
  (∀ p, p = S754_infinity false ∨ p = S754_nan →
     padded_box img_width img_height box (PFloat p)
       = Ok (PInt 0, PInt 0, PInt img_width, PInt img_height)) ∧
  square_crop img_width img_height box (PFloat (S754_infinity false))
    = Raise OverflowError ∧
  square_crop img_width img_height box (PFloat S754_nan) = Raise ValueError.
Proof.
  intros Hin Hw Hh. destruct box as [[[x0 y0] x1] y1]. unfold inside in Hin.
  assert (Hpos : ∀ z, 0 < z < 2 ^ 53 →
            ∃ m e, float_of_int z = Ok (S754_finite false m e)).
  { intros z Hz. destruct (float_of_int_exact z) as (fz & Hfz & Hz'); [lia|].
    destruct fz as [s|s| |s m e]; cbn [holds_int] in Hz'; try done; [lia|].
    destruct Hz' as [-> _]. by exists m, e. }
  assert (Hnn : ∀ z, 0 ≤ z < 2 ^ 53 →
            ∃ fz, float_of_int z = Ok fz ∧
                  ((∃ s, fz = S754_zero s) ∨
                   ∃ m e, fz = S754_finite false m e)).
  { intros z Hz. destruct (float_of_int_exact z Hz) as (fz & Hfz & Hz').
    exists fz. split; [done|].
    destruct fz as [s'|s'| |s' m' e']; cbn [holds_int] in Hz'; try done.
    - left. by exists s'.
    - destruct Hz' as [-> _]. right. by exists m', e'. }
  split; [|split].
  - intros p Hp. unfold padded_box. cbn [mul sub add as_float].
    destruct (Hpos (x1 - x0)) as (mw & ew & ->); [lia|].
    destruct (Hpos (y1 - y0)) as (mh & eh & ->); [lia|].
    rewrite !res_bind_Ok.
    destruct (Hnn x0) as (fx0 & -> & Hx0); [lia|].
    destruct (Hnn y0) as (fy0 & -> & Hy0); [lia|].
    destruct (Hpos x1) as (mx1 & ex1 & ->); [lia|].
    destruct (Hpos y1) as (my1 & ey1 & ->); [lia|].
    destruct Hx0 as [[sx ->] | (mx & ex & ->)],
             Hy0 as [[sy ->] | (my & ey & ->)],
             Hp as [-> | ->];
      cbn [SFmul xorb as_float]; rewrite !res_bind_Ok; done.
  - unfold square_crop, expanded_size, base_size. cbn [mul add as_float].
    assert (H2 : float_of_int 2 = Ok (S754_finite false 4503599627370496 (-51)))
      by (vm_compute; reflexivity).
    assert (H1 : float_of_int 1 = Ok (S754_finite false 4503599627370496 (-52)))
      by (vm_compute; reflexivity).
    rewrite res_bind_Ok, H2, !res_bind_Ok. cbn [SFmul xorb]. cbv beta iota.
    rewrite H1, res_bind_Ok. cbn [as_float]. rewrite !res_bind_Ok.
    cbn [SFadd]. cbv beta iota.
    destruct (Hpos (Z.max (x1 - x0) (y1 - y0))) as (mb & eb & ->); [lia|].
    rewrite res_bind_Ok. cbn [as_float]. rewrite !res_bind_Ok. done.
  - unfold square_crop, expanded_size, base_size. cbn [mul add as_float].
    assert (H2 : float_of_int 2 = Ok (S754_finite false 4503599627370496 (-51)))
      by (vm_compute; reflexivity).
    assert (H1 : float_of_int 1 = Ok (S754_finite false 4503599627370496 (-52)))
      by (vm_compute; reflexivity).
    rewrite res_bind_Ok, H2, !res_bind_Ok. cbn [SFmul xorb]. cbv beta iota.
    rewrite H1, res_bind_Ok. cbn [as_float]. rewrite !res_bind_Ok.
    cbn [SFadd]. cbv beta iota.
    destruct (Hpos (Z.max (x1 - x0) (y1 - y0))) as (mb & eb & ->); [lia|].
    rewrite res_bind_Ok. cbn [as_float]. rewrite !res_bind_Ok. done.
Qed.

Lemma unbounded_padding_witness :
  padded_box 1000 800 (400, 300, 600, 500) (PFloat S754_nan)
  = Ok (PInt 0, PInt 0, PInt 1000, PInt 800).
Proof.
  destruct (unbounded_padding 1000 800 (400, 300, 600, 500)) as [H _].
  - unfold inside. lia.
  - reflexivity.
  - reflexivity.
  - apply H. by right.
Defined.

(** ** What the library and the file system refuse *)

Lemma highlight_loop_cases lib img_width img_height padding_ratio results
    boxes :
  padded_boxes img_width img_height padding_ratio results boxes →
  ∀ mask acc,
    highlight_loop lib img_width img_height padding_ratio results mask acc
      = Raise ValueError ∨
    ∃ mask', highlight_loop lib img_width img_height padding_ratio results
               mask acc = Ok (mask', acc ++ boxes).
Proof.
  induction 1 as [|result nb rest boxes Hnb _ IH]; intros mask acc.
  - right. exists mask. by rewrite app_nil_r.
  - cbn [highlight_loop]. rewrite Hnb, res_bind_Ok.
    destruct nb as [[[x0 y0] x1] y1]. unfold rectangle.
    rewrite !res_bind_Ok. destruct (_ && _); [by left|]. rewrite !res_bind_Ok.
    destruct (IH (Rectangle mask (x0, y0, x1, y1) (Some 255) None 1)
                (acc ++ [(x0, y0, x1, y1)])) as [Hl|[mask' Hr]]; [by left|].
    right. exists mask'. etrans; [exact Hr|]. by rewrite <- app_assoc.
Qed.

(** X13: a colour the library does not know makes [mask], and [highlight]
    with [with_mask] on, raise [ValueError] once the padded boxes are
    computed; nothing is written and no directory is made. *)
Theorem unknown_colour lib detect (type : string) (f : Detector)
    (img_path output_dir : Path) (mask_padding highlight_padding : num)
    (blur_radius : num) (color : string) (width : Z) (fs : FS)
    (opened : picture) (mask_boxes highlight_boxes : list PaddedBox) :
  detector detect !! type = Some f →
  f img_path ≠ [] →
  files fs !! img_path = Some opened →
  (∀ im, inks lib im color = None) →
  padded_boxes (size opened).1 (size opened).2 mask_padding (f img_path)
    mask_boxes →
  padded_boxes (size opened).1 (size opened).2 highlight_padding (f img_path)
    highlight_boxes →
  converts lib opened = true →
  blurs lib (ConvertRGB opened) blur_radius = true →
  mask lib detect type img_path output_dir mask_padding color width fs
    = (Raise ValueError, fs) ∧
  highlight lib detect type img_path output_dir highlight_padding blur_radius
    true color width fs = (Raise ValueError, fs).
Proof.
  intros Hd Hne Him Hunknown Hmk Hhl Hconv Hblur. split.
  - unfold mask. rewrite Hd.
    destruct (f img_path) as [|result rest] eqn:Hres; [done|].
    erewrite bind_ok; [|unfold image_open; by rewrite Him].
    destruct (size opened) as [img_width img_height].
    apply Forall2_cons_inv_l in Hmk as (nb & boxes & Hnb & _ & _).
    erewrite bind_raise; [done|]. unfold lift. cbn [mask_loop fst snd] in *.
    rewrite Hnb, res_bind_Ok. destruct nb as [[[x0 y0] x1] y1].
    unfold rectangle. by rewrite Hunknown.
  - unfold highlight. rewrite Hd.
    destruct (f img_path) as [|result rest] eqn:Hres; [done|].
    erewrite bind_ok; [|unfold image_open; by rewrite Him].
    erewrite bind_ok; [|unfold lift, convert_rgb; by rewrite Hconv].
    erewrite bind_ok; [|unfold lift, gaussian_blur; by rewrite Hblur].
    cbn [size]. destruct (size opened) as [img_width img_height].
    cbn [fst snd] in Hhl.
    destruct (highlight_loop_cases lib img_width img_height highlight_padding
                (result :: rest) highlight_boxes Hhl
                (NewL (img_width, img_height) 0) []) as [Hloop|[mask Hloop]].
    + erewrite bind_raise; [done|]. unfold lift. by rewrite Hloop.
    + erewrite bind_ok; [|unfold lift; by rewrite Hloop]. cbn [app andb].
      apply Forall2_cons_inv_l in Hhl as (nb & boxes & _ & _ & ->).
      rewrite bool_decide_eq_false_2 by done. cbn [negb].
      erewrite bind_raise; [done|]. unfold lift. cbn [outline_loop].
      destruct nb as [[[x0 y0] x1] y1]. unfold rectangle.
      by rewrite Hunknown.
Qed.

Lemma unknown_colour_witness :
  mask Sample.lib (Sample.detects [(400, 300, 600, 500)]) "faces"
    Sample.img_path ["in"] (PFloat float_0_2) "notacolor" 8
    (Sample.fs 1000 800)
  = (Raise ValueError, Sample.fs 1000 800).
Proof.
  pose (nb := (PFloat (S754_finite false 6333186975989760 (-44)),
               PFloat (S754_finite false 4573968371548160 (-44)),
               PFloat (S754_finite false 5629499534213120 (-43)),
               PFloat (S754_finite false 4749890231992320 (-43)))).
  assert (Hm : padded_box 1000 800 (400, 300, 600, 500) (PFloat float_0_2)
               = Ok nb) by (vm_compute; reflexivity).
  apply (unknown_colour Sample.lib (Sample.detects [(400, 300, 600, 500)])
    "faces" (Sample.detects [(400, 300, 600, 500)] FACES) Sample.img_path
    ["in"] (PFloat float_0_2) (PFloat float_0_2) (PInt 15) "notacolor" 8
    (Sample.fs 1000 800) (Sample.black 1000 800) [nb] [nb]).
  - reflexivity.
  - discriminate.
  - reflexivity.
  - intros im. reflexivity.
  - constructor; [exact Hm | constructor].
  - constructor; [exact Hm | constructor].
  - reflexivity.
  - reflexivity.
Defined.

(** X14: a blur radius the library refuses makes [highlight] raise
    [ValueError] right after the source is opened and converted: no
    directory is made and nothing is written. *)
Theorem blur_refused lib detect (type : string) (f : Detector)
    (img_path output_dir : Path) (padding_ratio blur_radius : num)
    (with_mask : bool) (mask_color : string) (mask_width : Z) (fs : FS)
    (opened : picture) :
  detector detect !! type = Some f →
  f img_path ≠ [] →
  files fs !! img_path = Some opened →
  converts lib opened = true →
  blurs lib (ConvertRGB opened) blur_radius = false →
  highlight lib detect type img_path output_dir padding_ratio blur_radius
    with_mask mask_color mask_width fs = (Raise ValueError, fs).
Proof.
  intros Hd Hne Him Hconv Hblur. unfold highlight. rewrite Hd.
  destruct (f img_path) as [|result rest] eqn:Hres; [done|].
  erewrite bind_ok; [|unfold image_open; by rewrite Him].
  erewrite bind_ok; [|unfold lift, convert_rgb; by rewrite Hconv].
  erewrite bind_raise; [done|]. unfold lift, gaussian_blur. by rewrite Hblur.
Qed.

Lemma blur_refused_witness :
  highlight Sample.lib (Sample.detects [(400, 300, 600, 500)]) "faces"
    Sample.img_path ["out"] (PFloat float_0_3) (PFloat S754_nan) false "red" 8
    (Sample.fs 1000 800)
  = (Raise ValueError, Sample.fs 1000 800).
Proof.
  apply (blur_refused Sample.lib (Sample.detects [(400, 300, 600, 500)])
    "faces" (Sample.detects [(400, 300, 600, 500)] FACES) Sample.img_path
    ["out"] (PFloat float_0_3) (PFloat S754_nan) false "red" 8
    (Sample.fs 1000 800) (Sample.black 1000 800)).
  - reflexivity.
  - discriminate.
  - reflexivity.
  - reflexivity.
  - reflexivity.
Defined.

Lemma save_blocked lib im (p : Path) fs :
  p ∈ dirs fs → save lib im p fs = (Raise OSError, fs).
Proof. intros Hp. unfold save. by rewrite (bool_decide_eq_true_2 _ Hp). Qed.

Lemma ensure_dir_files output_dir fs :
  files (ensure_dir output_dir fs).2 = files fs ∧
  dirs fs ⊆ dirs (ensure_dir output_dir fs).2.
Proof.
  pose proof (preserves_ensure_dir (λ _, False)
                (list_to_set (ancestors output_dir)) output_dir
                ltac:(done) fs) as (Hfiles & Hdirs & _).
  split; [|done]. apply map_eq. intros q. apply Hfiles. tauto.
Qed.

(** X15: with a directory at the output path ([square]: at the path of
    its first output) no operation returns, and none writes a file. *)
Theorem blocked_output lib detect (type : string) (f : Detector)
    (img_path output_dir : Path) (target_size : Z)
    (square_padding mask_padding highlight_padding blur_radius : num)
    (color : string) (width : Z) (with_mask : bool) (fs : FS) :
  detector detect !! type = Some f →
  f img_path ≠ [] →
  (square_path type img_path output_dir 0 ∈ dirs fs →
   ∃ e fs', square lib detect type img_path output_dir target_size
              square_padding fs = (Raise e, fs') ∧
            files fs' = files fs) ∧
  (mask_path type img_path output_dir ∈ dirs fs →
   ∃ e, mask lib detect type img_path output_dir mask_padding color width fs
        = (Raise e, fs)) ∧
  (highlight_path type img_path output_dir ∈ dirs fs →
   ∃ e fs', highlight lib detect type img_path output_dir highlight_padding
              blur_radius with_mask color width fs = (Raise e, fs') ∧
            files fs' = files fs).
Proof.
  intros Hd Hne. split; [|split]; intros Hblocked.
  - unfold square. rewrite Hd.
    destruct (f img_path) as [|result rest] eqn:Hres; [done|].
    destruct (ensure_dir_files output_dir fs) as [Hfiles Hdirs].
    unfold mbind at 1, M_bind at 1.
    destruct (ensure_dir output_dir fs) as [[[]|e] fs1]; cbn [snd] in *;
      [|by eexists _, _].
    assert (Hb1 : square_path type img_path output_dir 0 ∈ dirs fs1)
      by by apply Hdirs.
    unfold mbind at 1, M_bind at 1. cbn [square_loop].
    unfold mbind at 1, M_bind at 1. unfold image_open.
    destruct (files fs1 !! img_path) as [img|]; [|by eexists _, _].
    destruct (size img) as [img_width img_height].
    unfold mbind at 1, M_bind at 1. unfold lift at 1.
    destruct (square_crop _ _ _ _) as [new_crop|e]; [|by eexists _, _].
    unfold mbind at 1, M_bind at 1. unfold lift at 1.
    destruct (crop _ _) as [square_img|e]; [|by eexists _, _].
    unfold mbind at 1, M_bind at 1. unfold lift at 1.
    destruct (resize _ _ _) as [final_img|e]; [|by eexists _, _].
    unfold mbind at 1, M_bind at 1. rewrite save_blocked by done.
    by eexists _, _.
  - unfold mask. rewrite Hd.
    destruct (f img_path) as [|result rest] eqn:Hres; [done|].
    unfold mbind at 1, M_bind at 1. unfold image_open.
    destruct (files fs !! img_path) as [img|]; [|by eexists].
    destruct (size img) as [img_width img_height].
    unfold mbind at 1, M_bind at 1. unfold lift at 1.
    destruct (mask_loop _ _ _ _ _ _ _ _) as [marked|e]; [|by eexists].
    unfold mbind at 1, M_bind at 1. rewrite save_blocked by done.
    by eexists.
  - unfold highlight. rewrite Hd.
    destruct (f img_path) as [|result rest] eqn:Hres; [done|].
    unfold mbind at 1, M_bind at 1. unfold image_open.
    destruct (files fs !! img_path) as [img|]; [|by eexists _, _].
    unfold mbind at 1, M_bind at 1. unfold lift at 1.
    destruct (convert_rgb lib img) as [image|e]; [|by eexists _, _].
    unfold mbind at 1, M_bind at 1. unfold lift at 1.
    destruct (gaussian_blur lib blur_radius image) as [blurred|e];
      [|by eexists _, _].
    destruct (size image) as [img_width img_height].
    unfold mbind at 1, M_bind at 1. unfold lift at 1.
    destruct (highlight_loop _ _ _ _ _ _ _) as [[mask boxes]|e];
      [|by eexists _, _].
    unfold mbind at 1, M_bind at 1.
    assert (Hover : ∀ m : M picture,
      (m = lift (outline_loop lib color width boxes
                   (Composite image blurred mask)) ∨
       m = mret (Composite image blurred mask)) →
      ∃ r, m fs = (r, fs)).
    { intros m [-> | ->]; by eexists. }
    destruct (Hover (if with_mask && negb (bool_decide (boxes = []))
                     then lift (outline_loop lib color width boxes
                                  (Composite image blurred mask))
                     else mret (Composite image blurred mask)))
      as [[highlighted|e] ->].
    { destruct (_ && _); [by left | by right]. }
    2:{ by eexists _, _. }
    destruct (ensure_dir_files output_dir fs) as [Hfiles Hdirs].
    unfold mbind at 1, M_bind at 1.
    destruct (ensure_dir output_dir fs) as [[[]|e] fs1]; cbn [snd] in *;
      [|by eexists _, _].
    unfold mbind at 1, M_bind at 1. rewrite save_blocked by by apply Hdirs.
    by eexists _, _.
Qed.

Lemma blocked_output_witness :
  ∃ e, mask Sample.lib (Sample.detects [(400, 300, 600, 500)]) "faces"
         Sample.img_path ["in"] (PFloat float_0_2) "red" 8
         {| dirs := {[ ["in"]; ["in"; "photo_faces_marked.png"] ]};
            files := {[ Sample.img_path := Sample.black 1000 800 ]} |}
       = (Raise e,
          {| dirs := {[ ["in"]; ["in"; "photo_faces_marked.png"] ]};
             files := {[ Sample.img_path := Sample.black 1000 800 ]} |}).
Proof.
  destruct (blocked_output Sample.lib (Sample.detects [(400, 300, 600, 500)])
    "faces" (Sample.detects [(400, 300, 600, 500)] FACES) Sample.img_path
    ["in"] 512 (PFloat float_0_3) (PFloat float_0_2) (PFloat float_0_3)
    (PInt 15) "red" 8 false
    {| dirs := {[ ["in"]; ["in"; "photo_faces_marked.png"] ]};
       files := {[ Sample.img_path := Sample.black 1000 800 ]} |})
    as (_ & H & _).
  - reflexivity.
  - discriminate.
  - apply H. cbn [dirs]. apply elem_of_union_r, elem_of_singleton. reflexivity.
Defined.

(** X16: a source whose mode the PNG writer refuses makes [square] and
    [mask] raise [OSError] at the write, although everything before it
    went well: [square] has made the output directory by then, and no
    picture is left at the output path. *)
Theorem png_refused lib detect (type : string) (f : Detector)
    (img_path output_dir : Path) (target_size : Z)
    (square_padding mask_padding : num) (color : string) (width : Z)
    (fs : FS) (opened : picture) (result : DetectionResult)
    (rest : list DetectionResult) (x0 y0 x1 y1 : Z) :
  detector detect !! type = Some f →
  f img_path = result :: rest →
  files fs !! img_path = Some opened →
  (∀ im, mode_of im = mode_of opened → writes_png lib im = false) →
  (no_file_above output_dir fs →
   square_path type img_path output_dir 0 ∉ dirs fs →
   0 < target_size →
   square_crop (size opened).1 (size opened).2 result.1.1 square_padding
     = Ok (x0, y0, x1, y1) →
   x0 ≤ x1 → y0 ≤ y1 →
   resamples lib (Crop opened (x0, y0, x1, y1)) (target_size, target_size)
     = true →
   ∃ fs', square lib detect type img_path output_dir target_size
            square_padding fs = (Raise OSError, fs') ∧
          output_dir ∈ dirs fs' ∧
          files fs' = delete (square_path type img_path output_dir 0)
                        (files fs)) ∧
  (output_dir ∈ dirs fs →
   mask_path type img_path output_dir ∉ dirs fs →
   knows lib color →
   Forall (λ r, drawable (size opened).1 (size opened).2 mask_padding r
                = true) (f img_path) →
   mask lib detect type img_path output_dir mask_padding color width fs
   = (Raise OSError,
      {| dirs := dirs fs;
         files := delete (mask_path type img_path output_dir) (files fs) |})).
Proof.
  intros Hd Hres Him Hpng. split.
  - intros Hno Hfree Htarget Hcrop Hx Hy Hresample.
    destruct (ensure_dir_ok output_dir fs Hno)
      as (fs1 & Hens & Hdir & Hfiles & _ & Hfree1).
    exists {| dirs := dirs fs1;
              files := delete (square_path type img_path output_dir 0)
                         (files fs1) |}.
    split; [|by rewrite Hfiles]. unfold square. rewrite Hd, Hres.
    erewrite bind_ok; [|exact Hens].
    erewrite bind_raise; [done|]. cbn [square_loop].
    erewrite bind_ok; [|unfold image_open; by rewrite Hfiles, Him].
    destruct (size opened) as [img_width img_height]. cbn [fst snd] in Hcrop.
    erewrite bind_ok; [|unfold lift; by rewrite Hcrop].
    erewrite bind_ok.
    2:{ unfold lift, crop.
        rewrite (proj2 (Z.ltb_ge x1 x0)), (proj2 (Z.ltb_ge y1 y0)) by lia.
        reflexivity. }
    erewrite bind_ok.
    2:{ unfold lift, resize. cbn [fst snd].
        rewrite (proj2 (Z.ltb_ge target_size 1)) by lia. cbn [orb].
        by rewrite Hresample. }
    erewrite bind_raise; [done|]. unfold save, square_path.
    rewrite parent_app.
    rewrite (bool_decide_eq_false_2 (_ ∈ dirs fs1)),
      (bool_decide_eq_true_2 (output_dir ∈ dirs fs1)) by
      (done || by apply Hfree1).
    cbn [orb negb]. by rewrite Hpng.
  - intros Hdir Hfree Hknows Hall. unfold mask. rewrite Hd.
    rewrite Hres in *.
    erewrite bind_ok; [|unfold image_open; by rewrite Him].
    destruct (size opened) as [img_width img_height] eqn:Hsize.
    destruct (mask_loop_ok lib img_width img_height mask_padding color width
                (result :: rest) Hknows opened Hall) as [marked Hloop].
    erewrite bind_ok; [|unfold lift; by rewrite Hloop].
    apply mask_loop_inv in Hloop as (_ & _ & _ & Hmode & _).
    erewrite bind_raise; [done|]. unfold save, mask_path.
    rewrite parent_app.
    rewrite (bool_decide_eq_false_2 (_ ∈ dirs fs)),
      (bool_decide_eq_true_2 (output_dir ∈ dirs fs)) by done.
    cbn [orb negb]. by rewrite Hpng.
Qed.

Lemma png_refused_witness :
  mask Sample.lib (Sample.detects [(400, 300, 600, 500)]) "faces"
    Sample.img_path ["in"] (PFloat float_0_2) "red" 8
    {| dirs := {[ ["in"] ]};
       files := {[ Sample.img_path := Sample.cmyk 1000 800 ]} |}
  = (Raise OSError,
     {| dirs := {[ ["in"] ]};
        files := delete ["in"; "photo_faces_marked.png"]
                   {[ Sample.img_path := Sample.cmyk 1000 800 ]} |}).
Proof.
  destruct (png_refused Sample.lib (Sample.detects [(400, 300, 600, 500)])
    "faces" (Sample.detects [(400, 300, 600, 500)] FACES) Sample.img_path
    ["in"] 512 (PFloat float_0_3) (PFloat float_0_2) "red" 8
    {| dirs := {[ ["in"] ]};
       files := {[ Sample.img_path := Sample.cmyk 1000 800 ]} |}
    (Sample.cmyk 1000 800)
    ((400, 300, 600, 500), "face"%string,
     S754_finite false 8106479329266893 (-53)) [] 340 240 660 560)
    as [_ H].
  - reflexivity.
  - reflexivity.
  - reflexivity.
  - intros im Hmode. unfold Sample.lib. cbn [writes_png]. by rewrite Hmode.
  - apply H.
    + cbn [dirs]. by apply elem_of_singleton.
    + cbn [dirs]. intros Hin. apply elem_of_singleton in Hin. discriminate.
    + intros im. by eexists.
    + repeat constructor.
Defined.
